(** * retroterm: ROM scanner, preferences and launcher input layer

    A shallow embedding of [src/RomScanner.js], [src/Preferences.js] and
    the navigation / controller-polling part of [src/Launcher.js], with
    the properties of the catalog builder, the recent list, the selection
    context and the await-release gate proved over it.

    File and member names are ASCII byte strings; JavaScript numbers that
    hold indices, depths and millisecond clocks are [Z]; the contrast
    arithmetic is done on binary64 floats. *)

From Stdlib Require Import List String Ascii ZArith Lia Bool Arith Permutation Sorted.
From Stdlib Require Import PrimFloat.
From Stdlib Require Uint63.
Import ListNotations.
Open Scope string_scope.
Open Scope list_scope.

(* ================================================================== *)
(** * JavaScript strings *)
(* ================================================================== *)

Module JsString.

Definition chars (s : string) : list ascii := list_ascii_of_string s.
Definition str (l : list ascii) : string := string_of_list_ascii l.

(** [s.startsWith(p)] *)
Definition startsWith (s p : string) : bool := String.prefix p s.

Definition lowerAscii (c : ascii) : ascii :=
  let n := nat_of_ascii c in
  if (65 <=? n)%nat && (n <=? 90)%nat then ascii_of_nat (n + 32) else c.

(** [s.toLowerCase()] on ASCII text *)
Fixpoint toLowerCase (s : string) : string :=
  match s with
  | EmptyString => EmptyString
  | String c r => String (lowerAscii c) (toLowerCase r)
  end.

Definition isDigit (c : ascii) : bool :=
  let n := nat_of_ascii c in (48 <=? n)%nat && (n <=? 57)%nat.

(** [/^\d+$/.test(s)] *)
Definition allDigits (s : string) : bool :=
  match chars s with
  | [] => false
  | l => forallb isDigit l
  end.

Definition isSpace (c : ascii) : bool :=
  let n := nat_of_ascii c in
  (n =? 32)%nat || ((9 <=? n)%nat && (n <=? 13)%nat).

Fixpoint dropSpaces (l : list ascii) : list ascii :=
  match l with
  | c :: r => if isSpace c then dropSpaces r else l
  | [] => []
  end.

(** [s.trim()] on ASCII text *)
Definition trim (s : string) : string :=
  str (rev (dropSpaces (rev (dropSpaces (chars s))))).

End JsString.
Import JsString.

(* ================================================================== *)
(** * Node's [path] module (POSIX flavour) *)
(* ================================================================== *)

Module Path.

Definition isSlash (c : ascii) : bool := Ascii.eqb c "/".
Definition isDot (c : ascii) : bool := Ascii.eqb c ".".

(** [join(dir, entry)] for a normalised, non-empty [dir] and a plain
    entry name as [readdirSync] returns it. *)
Definition join (dir entry : string) : string := (dir ++ "/" ++ entry)%string.

Fixpoint dropSlashes (l : list ascii) : list ascii :=
  match l with
  | c :: r => if isSlash c then dropSlashes r else l
  | [] => []
  end.

Fixpoint takeSlashes (l : list ascii) : list ascii :=
  match l with
  | c :: r => if isSlash c then c :: takeSlashes r else []
  | [] => []
  end.

Fixpoint takeComponent (l : list ascii) : list ascii :=
  match l with
  | c :: r => if isSlash c then [] else c :: takeComponent r
  | [] => []
  end.

(** Last portion of a path, trailing separators ignored, read from the
    right end (so the result is reversed). *)
Definition lastComponentRev (p : string) : list ascii :=
  takeComponent (dropSlashes (rev (chars p))).

(** Split a list at its first dot: what precedes it and what follows. *)
Fixpoint splitAtDot (l : list ascii) : option (list ascii * list ascii) :=
  match l with
  | [] => None
  | c :: r =>
      if isDot c then Some ([], r)
      else match splitAtDot r with
           | Some (b, a) => Some (c :: b, a)
           | None => None
           end
  end.

(** [extname(p)]: from the last dot of the last portion to its end; empty
    when there is no dot, when the only dot leads the portion, and for
    the portion [..]. *)
Definition extname (p : string) : string :=
  match splitAtDot (lastComponentRev p) with
  | None => ""
  | Some (_, []) => ""
  | Some ([], ["."%char]) => ""
  | Some (revExt, _) => str ("."%char :: rev revExt)
  end.

(** Compare a portion and a suffix from their right ends: [Some rest]
    when the suffix is used up (what is left of the portion, reversed),
    [None] on a mismatch; the portion running out first is reported
    apart. *)
Inductive SuffixScan :=
| Stripped (restRev : list ascii)
| Mismatch
| PortionShort.

Fixpoint scanSuffix (compRev sufRev : list ascii) : SuffixScan :=
  match sufRev, compRev with
  | [], _ => Stripped compRev
  | _ :: _, [] => PortionShort
  | s :: sr, c :: cr => if Ascii.eqb c s then scanSuffix cr sr else Mismatch
  end.

(** [basename(p, suffix)] *)
Definition basename (p suffix : string) : string :=
  let revp := rev (chars p) in
  let compRev := lastComponentRev p in
  let comp := str (rev compRev) in
  if (Nat.eqb (String.length suffix) 0)
     || (String.length p <? String.length suffix)%nat
  then comp
  else if String.eqb suffix p then ""
  else match scanSuffix compRev (rev (chars suffix)) with
       | Stripped [] => comp
       | Stripped restRev => str (rev restRev)
       | Mismatch => comp
       | PortionShort => (comp ++ str (takeSlashes revp))%string
       end.

End Path.
Import Path.

(* ================================================================== *)
(** * RomScanner.js *)
(* ================================================================== *)

Module RomScanner.

(** Supported ROM extensions *)
Definition ROM_EXTENSIONS : list string :=
  [ ".nes"; ".fds"; ".unf"; ".unif";
    ".sfc"; ".smc";
    ".gb"; ".gbc"; ".gba";
    ".md"; ".gen"; ".smd"; ".bin";
    ".sms"; ".gg"; ".sg";
    ".a26"; ".a52"; ".a78";
    ".xex"; ".atr"; ".atx"; ".bas"; ".car"; ".xfd";
    ".lnx"; ".o";
    ".pce"; ".cue"; ".ccd"; ".chd";
    ".ngp"; ".ngc";
    ".ws"; ".wsc";
    ".col";
    ".vec";
    ".tzx"; ".z80"; ".sna";
    ".mx1"; ".mx2"; ".rom"; ".dsk"; ".cas";
    ".iso"; ".pbp"; ".m3u" ].

(** [ROM_EXTENSIONS.has(ext)] *)
Definition ROM_EXTENSIONS_has (ext : string) : bool :=
  existsb (String.eqb ext) ROM_EXTENSIONS.

Definition SYSTEM_NAMES : list (string * string) :=
  [ (".nes", "NES"); (".fds", "NES"); (".unf", "NES"); (".unif", "NES");
    (".sfc", "SNES"); (".smc", "SNES");
    (".gb", "Game Boy"); (".gbc", "Game Boy Color"); (".gba", "Game Boy Advance");
    (".md", "Genesis"); (".gen", "Genesis"); (".smd", "Genesis"); (".bin", "Genesis");
    (".sms", "Master System"); (".gg", "Game Gear"); (".sg", "SG-1000");
    (".a26", "Atari 2600"); (".a52", "Atari 5200"); (".a78", "Atari 7800");
    (".xex", "Atari 800"); (".atr", "Atari 800"); (".atx", "Atari 800");
    (".bas", "Atari 800"); (".car", "Atari 800"); (".xfd", "Atari 800");
    (".lnx", "Lynx"); (".o", "Lynx");
    (".pce", "PC Engine"); (".cue", "PC Engine"); (".ccd", "PC Engine"); (".chd", "PC Engine");
    (".ngp", "Neo Geo Pocket"); (".ngc", "Neo Geo Pocket Color");
    (".ws", "WonderSwan"); (".wsc", "WonderSwan Color");
    (".col", "ColecoVision");
    (".vec", "Vectrex");
    (".tzx", "ZX Spectrum"); (".z80", "ZX Spectrum"); (".sna", "ZX Spectrum");
    (".mx1", "MSX"); (".mx2", "MSX"); (".rom", "MSX"); (".dsk", "MSX"); (".cas", "MSX");
    (".iso", "PlayStation"); (".pbp", "PlayStation"); (".m3u", "PlayStation");
    (".zip", "Archive") ].

Fixpoint lookup (table : list (string * string)) (key : string) : option string :=
  match table with
  | [] => None
  | (k, v) :: rest => if String.eqb k key then Some v else lookup rest key
  end.

(** [SYSTEM_NAMES[ext] || 'Unknown'] *)
Definition systemOf (ext : string) : string :=
  match lookup SYSTEM_NAMES ext with
  | Some s => if String.eqb s "" then "Unknown" else s
  | None => "Unknown"
  end.

(** One catalog entry; [zipEntry] is absent on plain files. *)
Record Rom := mkRom {
  name : string;
  path : string;
  zipEntry : option string;
  ext : string;
  system : string
}.

(** ** The file system and archives the scanner reads *)

Inductive Stat :=
| IsDirectory      (* stat.isDirectory() *)
| IsFile           (* stat.isFile() *)
| IsOther.         (* neither: socket, device, ... *)

(** What yauzl does with a path opened with [lazyEntries]: the open
    callback gets an error, or a zipfile that emits the ['entry'] events
    of [members], one per [readEntry()], and then ['end'] or, when
    [ends] is false, ['error'] in its place (a central-directory record
    that does not parse, a member name yauzl refuses). *)
Inductive ZipRun :=
| OpenError
| Entries (members : list string) (ends : bool).

Record FS := mkFS {
  readdirSync : string -> option (list string);   (* None: throws *)
  statSync : string -> option Stat;               (* None: throws *)
  zipOpen : string -> ZipRun
}.

(** ** Awaited results *)

(** An awaited promise either resolves or is never settled; the
    function awaiting it then never resumes and delivers no result. *)
Inductive Outcome (A : Type) :=
| Done (a : A)
| Pending.
Arguments Done {A} a.
Arguments Pending {A}.

Definition bind {A B} (m : Outcome A) (k : A -> Outcome B) : Outcome B :=
  match m with
  | Done a => k a
  | Pending => Pending
  end.

Notation "x <- m ;; k" := (bind m (fun x => k))
  (at level 61, m at next level, right associativity).

(** ** _scanZip *)

(** The generic-name test on an inner file's base name. *)
Definition genericName (romName : string) : bool :=
  allDigits romName || (String.length romName <? 3)%nat.

(** The body of the ['entry'] listener: the entries it pushes. *)
Definition onEntry (zipPath zipName fileName : string) : list Rom :=
  let ext := toLowerCase (extname fileName) in
  if ROM_EXTENSIONS_has ext && negb (startsWith fileName "__MACOSX") then
    let romName := basename fileName ext in
    let romName := if genericName romName then zipName else romName in
    [ {| name := romName; path := zipPath; zipEntry := Some fileName;
         ext := ext; system := systemOf ext |} ]
  else [].

(** [_scanZip(zipPath)]. The listing promise is built from [resolve]
    alone and listens to ['entry'] and ['end']: a zipfile that emits
    ['error'] leaves it unsettled, and nothing reaches the [catch]. *)
Definition _scanZip (fs : FS) (zipPath : string) : Outcome (list Rom) :=
  match zipOpen fs zipPath with
  | OpenError => Done []                      (* rejected, caught *)
  | Entries members ends =>
      let zipName := basename zipPath (extname zipPath) in
      let roms := flat_map (onEntry zipPath zipName) members in
      if ends then Done roms                  (* 'end' resolves *)
      else Pending                            (* no 'error' listener, no reject *)
  end.

(** ** _scanDir *)

(** The entry a plain ROM file contributes. *)
Definition fileRom (fullPath entry ext : string) : Rom :=
  {| name := basename entry ext; path := fullPath; zipEntry := None;
     ext := ext; system := systemOf ext |}.

(** The [for (const entry of entries)] loop of [_scanDir]; [recurse] is
    the nested call [this._scanDir(fullPath, roms, depth + 1)]. *)
Fixpoint forEntries (recurse : string -> list Rom -> Outcome (list Rom))
    (fs : FS) (dir : string) (entries : list string) (roms : list Rom)
  : Outcome (list Rom) :=
  match entries with
  | [] => Done roms
  | entry :: rest =>
    if startsWith entry "." then forEntries recurse fs dir rest roms else
    let fullPath := join dir entry in
    match statSync fs fullPath with
    | None => forEntries recurse fs dir rest roms        (* inaccessible file *)
    | Some IsDirectory =>
        roms <- recurse fullPath roms ;;
        forEntries recurse fs dir rest roms
    | Some IsFile =>
        let ext := toLowerCase (extname entry) in
        if String.eqb ext ".zip" then
          zipRoms <- _scanZip fs fullPath ;;
          forEntries recurse fs dir rest (roms ++ zipRoms)
        else if ROM_EXTENSIONS_has ext then
          forEntries recurse fs dir rest (roms ++ [fileRom fullPath entry ext])
        else forEntries recurse fs dir rest roms
    | Some IsOther => forEntries recurse fs dir rest roms
    end
  end.

(** [fuel] bounds the nesting of calls; [scanDirFrom] below supplies
    enough for the depth guard to be the one that stops the descent. *)
Fixpoint _scanDir (fuel : nat) (fs : FS) (dir : string) (roms : list Rom)
    (depth : Z) {struct fuel} : Outcome (list Rom) :=
  match fuel with
  | O => Done roms
  | S fuel =>
    if (depth >? 3)%Z then Done roms else        (* don't recurse too deep *)
    match readdirSync fs dir with
    | None => Done roms                          (* inaccessible directory *)
    | Some entries =>
        forEntries (fun fullPath roms => _scanDir fuel fs fullPath roms (depth + 1))
                   fs dir entries roms
    end
  end.

(** [_scanDir(dir, roms, depth)] *)
Definition scanDirFrom (fs : FS) (dir : string) (roms : list Rom) (depth : Z)
  : Outcome (list Rom) :=
  _scanDir (Z.to_nat (5 - depth)) fs dir roms depth.

(** ** scan *)

Section Sorting.

(** [a.localeCompare(b)]: negative, zero or positive; its collation
    is the host's and is left open. *)
Variable localeCompare : string -> string -> Z.

Fixpoint insertSorted (r : Rom) (sorted : list Rom) : list Rom :=
  match sorted with
  | [] => [r]
  | x :: rest =>
      if (localeCompare (name r) (name x) <=? 0)%Z then r :: sorted
      else x :: insertSorted r rest
  end.

(** [roms.sort((a, b) => a.name.localeCompare(b.name))]: a stable sort. *)
Definition sortByName (roms : list Rom) : list Rom :=
  fold_right insertSorted [] roms.

Definition scan (fs : FS) (romsDir : string) : Outcome (list Rom) :=
  roms <- scanDirFrom fs romsDir [] 0 ;;
  Done (sortByName roms).

End Sorting.

(** [getSystemGroups(roms)]: groups in first-seen order, entries in
    catalog order. *)
Fixpoint pushGroup (groups : list (string * list Rom)) (rom : Rom)
  : list (string * list Rom) :=
  match groups with
  | [] => [(system rom, [rom])]
  | (s, g) :: rest =>
      if String.eqb s (system rom) then (s, g ++ [rom]) :: rest
      else (s, g) :: pushGroup rest rom
  end.

Definition getSystemGroups (roms : list Rom) : list (string * list Rom) :=
  fold_left pushGroup roms [].

End RomScanner.

Import RomScanner.


(* ================================================================== *)
(** * Preferences.js *)
(* ================================================================== *)

Module Preferences.

(** [this.config]; [contrast] is the 1-10 slider and [maxRecent] the cap
    as stored, both whatever integer the config file holds. *)
Record Config := mkConfig {
  romsDir : string;
  savesDir : string;
  recentGames : list string;
  maxRecent : Z;
  symbols : string;
  colors : string;
  fgOnly : bool;
  dither : bool;
  contrast : Z
}.

(** [DEFAULTS], for the home directory [home]. *)
Definition DEFAULTS (home : string) : Config :=
  {| romsDir := join home "roms";
     savesDir := join (join (join home ".config") "retroterm") "saves";
     recentGames := [];
     maxRecent := 10;
     symbols := "ascii+block";
     colors := "256";
     fgOnly := true;
     dither := false;
     contrast := 5 |}.

(** [arr.slice(0, end)]: a negative [end] counts from the end of the array. *)
Definition slice0 {A} (arr : list A) (e : Z) : list A :=
  if (e <? 0)%Z
  then firstn (Z.to_nat (Z.max (Z.of_nat (List.length arr) + e) 0)) arr
  else firstn (Z.to_nat e) arr.

Definition setRecentGames (c : Config) (recent : list string) : Config :=
  {| romsDir := romsDir c; savesDir := savesDir c; recentGames := recent;
     maxRecent := maxRecent c; symbols := symbols c; colors := colors c;
     fgOnly := fgOnly c; dither := dither c; contrast := contrast c |}.

(** [addRecentGame(romPath)]; [save()] writes the file and leaves the
    configuration as it is. *)
Definition addRecentGame (romPath : string) (c : Config) : Config :=
  let recent := filter (fun p => negb (String.eqb p romPath)) (recentGames c) in
  let recent := romPath :: recent in                      (* unshift *)
  setRecentGames c (slice0 recent (maxRecent c)).

End Preferences.
Import Preferences.

(* ================================================================== *)
(** * Launcher.js: selection, launch and controller polling *)
(* ================================================================== *)

Module Launcher.

(** ** Numbers *)

(** A small integer as a JavaScript number. *)
Definition toNumber (z : Z) : float :=
  if (z <? 0)%Z then PrimFloat.opp (PrimFloat.of_uint63 (Uint63.of_Z (- z)))
  else PrimFloat.of_uint63 (Uint63.of_Z z).

(** [a % b] on integers: the sign follows the dividend. *)
Definition jsRem (a b : Z) : Z := Z.rem a b.

(** [arr.indexOf(x)] *)
Fixpoint indexOfFrom (i : Z) (arr : list string) (x : string) : Z :=
  match arr with
  | [] => (-1)%Z
  | y :: rest => if String.eqb y x then i else indexOfFrom (i + 1)%Z rest x
  end.
Definition indexOf (arr : list string) (x : string) : Z := indexOfFrom 0 arr x.

(** [arr[i]]: [None] for [undefined]. *)
Definition at_ {A} (arr : list A) (i : Z) : option A :=
  if (i <? 0)%Z then None else nth_error arr (Z.to_nat i).

(** ** State *)

Inductive View := SystemView | RecentView.

(** The variables the closures of [_showSettings] share. *)
Record Dialog := mkDialog {
  romsInput : string;              (* romsInput.getValue() *)
  selectedSymbols : string;
  selectedColors : string;
  selectedFgOnly : bool;
  selectedDither : bool;
  selectedContrast : Z;
  focusedField : string
}.

(** One argument of the emulator's command line; [Fixed2 x] stands for
    the text [x.toFixed(2)]. *)
Inductive Arg :=
| Text (s : string)
| Fixed2 (x : float).

(** The handlers [_handleGamepadInput] calls, as they are logged. *)
Inductive Command :=
| NavigateUp | NavigateDown | PrevSystem | NextSystem
| PageUp | PageDown
| Launch (rom : Rom) | ShowRecent | ShowSettings
| CloseForm | SaveAndClose | FocusPrev | FocusNext
| LeftRight (delta : Z) | Toggle.

Inductive Slot := SUp | SDown | SLeft | SRight | SLb | SRb.

Definition Slot_eqb (a b : Slot) : bool :=
  match a, b with
  | SUp, SUp | SDown, SDown | SLeft, SLeft | SRight, SRight
  | SLb, SLb | SRb, SRb => true
  | _, _ => false
  end.

(** The fields of the class the modelled methods read or write, and the
    list widget [romList] as the launcher sees it: the highlighted row
    [selected] and the number of rows it holds, kept as the index of the
    last one, [lastRow]. The launcher fills the widget in [_loadRoms]
    before any handler selects a row, and every array it passes to
    [setItems] holds at least one row: the list of a system is never
    empty and the other lists are messages. [reselected] is the part the
    widget decides on its own: the rows it selects again when
    [_loadRoms] replaces its rows, one per call; the choice depends on
    the text of the rows, which is not kept. [spawned] and [dispatched]
    are logs: the children started and the handlers the poll loop has
    called. *)
Record Launcher := mkLauncher {
  prefs : Config;
  roms : list Rom;
  sortedRoms : option (list Rom);
  systems : list string;
  systemRoms : list (string * list Rom);
  currentSystemIndex : Z;
  currentView : View;
  selected : Z                        (* romList.selected *);
  lastRow : nat                       (* romList.items.length - 1 *);
  reselected : list Z                 (* rows setItems will select again *);
  settingsOpen : bool;
  settingsState : option Dialog;
  prevButtons : nat -> bool           (* _prevButtons, absent = false *);
  holdTime : Slot -> option Z         (* _holdTime *);
  waitingForRelease : bool;
  polling : bool                      (* gamepadPollInterval !== null *);
  loading : list string               (* scans awaited by _loadRoms *);
  spawned : list (list Arg);
  dispatched : list Command
}.

(** The object after [new Launcher()]; the widget is described as it is
    once [_createUI] and the first [_loadRoms] have run. *)
Definition construct (p : Config) : Launcher :=
  {| prefs := p; roms := []; sortedRoms := None; systems := [];
     systemRoms := []; currentSystemIndex := 0; currentView := SystemView;
     selected := 0; lastRow := 0; reselected := [];
     settingsOpen := false; settingsState := None;
     prevButtons := fun _ => false; holdTime := fun _ => None;
     waitingForRelease := false; polling := false; loading := [];
     spawned := []; dispatched := [] |}.

Section Setters.
Variable st : Launcher.

Definition setPrefs (x : Config) : Launcher :=
  mkLauncher x (roms st) (sortedRoms st) (systems st) (systemRoms st)
    (currentSystemIndex st) (currentView st) (selected st) (lastRow st)
    (reselected st) (settingsOpen st) (settingsState st) (prevButtons st)
    (holdTime st) (waitingForRelease st) (polling st) (loading st)
    (spawned st) (dispatched st).
Definition setRoms (x : list Rom) : Launcher :=
  mkLauncher (prefs st) x (sortedRoms st) (systems st) (systemRoms st)
    (currentSystemIndex st) (currentView st) (selected st) (lastRow st)
    (reselected st) (settingsOpen st) (settingsState st) (prevButtons st)
    (holdTime st) (waitingForRelease st) (polling st) (loading st)
    (spawned st) (dispatched st).
Definition setSortedRoms (x : option (list Rom)) : Launcher :=
  mkLauncher (prefs st) (roms st) x (systems st) (systemRoms st)
    (currentSystemIndex st) (currentView st) (selected st) (lastRow st)
    (reselected st) (settingsOpen st) (settingsState st) (prevButtons st)
    (holdTime st) (waitingForRelease st) (polling st) (loading st)
    (spawned st) (dispatched st).
Definition setGroups (sys : list string) (groups : list (string * list Rom)) : Launcher :=
  mkLauncher (prefs st) (roms st) (sortedRoms st) sys groups
    (currentSystemIndex st) (currentView st) (selected st) (lastRow st)
    (reselected st) (settingsOpen st) (settingsState st) (prevButtons st)
    (holdTime st) (waitingForRelease st) (polling st) (loading st)
    (spawned st) (dispatched st).
Definition setCurrentSystemIndex (x : Z) : Launcher :=
  mkLauncher (prefs st) (roms st) (sortedRoms st) (systems st) (systemRoms st)
    x (currentView st) (selected st) (lastRow st) (reselected st)
    (settingsOpen st) (settingsState st) (prevButtons st) (holdTime st)
    (waitingForRelease st) (polling st) (loading st) (spawned st)
    (dispatched st).
Definition setCurrentView (x : View) : Launcher :=
  mkLauncher (prefs st) (roms st) (sortedRoms st) (systems st) (systemRoms st)
    (currentSystemIndex st) x (selected st) (lastRow st) (reselected st)
    (settingsOpen st) (settingsState st) (prevButtons st) (holdTime st)
    (waitingForRelease st) (polling st) (loading st) (spawned st)
    (dispatched st).
Definition setSelected (x : Z) : Launcher :=
  mkLauncher (prefs st) (roms st) (sortedRoms st) (systems st) (systemRoms st)
    (currentSystemIndex st) (currentView st) x (lastRow st) (reselected st)
    (settingsOpen st) (settingsState st) (prevButtons st) (holdTime st)
    (waitingForRelease st) (polling st) (loading st) (spawned st)
    (dispatched st).
Definition setLastRow (x : nat) : Launcher :=
  mkLauncher (prefs st) (roms st) (sortedRoms st) (systems st) (systemRoms st)
    (currentSystemIndex st) (currentView st) (selected st) x (reselected st)
    (settingsOpen st) (settingsState st) (prevButtons st) (holdTime st)
    (waitingForRelease st) (polling st) (loading st) (spawned st)
    (dispatched st).
Definition setReselected (x : list Z) : Launcher :=
  mkLauncher (prefs st) (roms st) (sortedRoms st) (systems st) (systemRoms st)
    (currentSystemIndex st) (currentView st) (selected st) (lastRow st) x
    (settingsOpen st) (settingsState st) (prevButtons st) (holdTime st)
    (waitingForRelease st) (polling st) (loading st) (spawned st)
    (dispatched st).
Definition setSettings (open : bool) (d : option Dialog) : Launcher :=
  mkLauncher (prefs st) (roms st) (sortedRoms st) (systems st) (systemRoms st)
    (currentSystemIndex st) (currentView st) (selected st) (lastRow st)
    (reselected st) open d (prevButtons st) (holdTime st)
    (waitingForRelease st) (polling st) (loading st) (spawned st)
    (dispatched st).
Definition setPrevButtons (x : nat -> bool) : Launcher :=
  mkLauncher (prefs st) (roms st) (sortedRoms st) (systems st) (systemRoms st)
    (currentSystemIndex st) (currentView st) (selected st) (lastRow st)
    (reselected st) (settingsOpen st) (settingsState st) x (holdTime st)
    (waitingForRelease st) (polling st) (loading st) (spawned st)
    (dispatched st).
Definition setHoldTime (x : Slot -> option Z) : Launcher :=
  mkLauncher (prefs st) (roms st) (sortedRoms st) (systems st) (systemRoms st)
    (currentSystemIndex st) (currentView st) (selected st) (lastRow st)
    (reselected st) (settingsOpen st) (settingsState st) (prevButtons st) x
    (waitingForRelease st) (polling st) (loading st) (spawned st)
    (dispatched st).
Definition setWaitingForRelease (x : bool) : Launcher :=
  mkLauncher (prefs st) (roms st) (sortedRoms st) (systems st) (systemRoms st)
    (currentSystemIndex st) (currentView st) (selected st) (lastRow st)
    (reselected st) (settingsOpen st) (settingsState st) (prevButtons st)
    (holdTime st) x (polling st) (loading st) (spawned st) (dispatched st).
Definition setPolling (x : bool) : Launcher :=
  mkLauncher (prefs st) (roms st) (sortedRoms st) (systems st) (systemRoms st)
    (currentSystemIndex st) (currentView st) (selected st) (lastRow st)
    (reselected st) (settingsOpen st) (settingsState st) (prevButtons st)
    (holdTime st) (waitingForRelease st) x (loading st) (spawned st)
    (dispatched st).
Definition setLoading (x : list string) : Launcher :=
  mkLauncher (prefs st) (roms st) (sortedRoms st) (systems st) (systemRoms st)
    (currentSystemIndex st) (currentView st) (selected st) (lastRow st)
    (reselected st) (settingsOpen st) (settingsState st) (prevButtons st)
    (holdTime st) (waitingForRelease st) (polling st) x (spawned st)
    (dispatched st).
Definition setSpawned (x : list (list Arg)) : Launcher :=
  mkLauncher (prefs st) (roms st) (sortedRoms st) (systems st) (systemRoms st)
    (currentSystemIndex st) (currentView st) (selected st) (lastRow st)
    (reselected st) (settingsOpen st) (settingsState st) (prevButtons st)
    (holdTime st) (waitingForRelease st) (polling st) (loading st) x
    (dispatched st).
Definition setDispatched (x : list Command) : Launcher :=
  mkLauncher (prefs st) (roms st) (sortedRoms st) (systems st) (systemRoms st)
    (currentSystemIndex st) (currentView st) (selected st) (lastRow st)
    (reselected st) (settingsOpen st) (settingsState st) (prevButtons st)
    (holdTime st) (waitingForRelease st) (polling st) (loading st)
    (spawned st) x.
End Setters.

(** ** The list widget *)

(** [romList.select(index)]: the widget moves the highlight to [index]
    brought back into its rows. *)
Definition select (st : Launcher) (index : Z) : Launcher :=
  let length := (Z.of_nat (lastRow st) + 1)%Z in
  let index :=
    if (index <? 0)%Z then 0%Z
    else if (index >=? length)%Z then (length - 1)%Z
    else index in
  setSelected st index.

(** [romList.setItems(items)] for [n] rows, followed at once by
    [romList.select(0)]: the widget holds the new rows and the first one
    is highlighted, whatever row [setItems] had selected again. The
    launcher passes at least one row. *)
Definition showRows (st : Launcher) (n : nat) : Launcher :=
  select (setLastRow st (Nat.pred n)) 0.

(** [romList.setItems(items)] for [n] rows with no [select] after it:
    the widget holds the new rows and selects again the row of its
    choice (the next of [reselected]), brought back into the new rows.
    The launcher passes at least one row. *)
Definition setItems (st : Launcher) (n : nat) : Launcher :=
  select (setReselected (setLastRow st (Nat.pred n)) (tl (reselected st)))
         (hd 0%Z (reselected st)).

(** ** Methods that run to completion or throw *)

Inductive Res (A : Type) :=
| Ok (a : A) (st : Launcher)
| Threw (st : Launcher).            (* an uncaught TypeError / RangeError *)
Arguments Ok {A} a st.
Arguments Threw {A} st.

Definition M (A : Type) : Type := Launcher -> Res A.

Definition ret {A} (a : A) : M A := fun st => Ok a st.
Definition throw {A} : M A := fun st => Threw st.
Definition bindM {A B} (m : M A) (k : A -> M B) : M B :=
  fun st => match m st with
            | Ok a st' => k a st'
            | Threw st' => Threw st'
            end.
Definition get : M Launcher := fun st => Ok st st.
Definition modify (f : Launcher -> Launcher) : M unit := fun st => Ok tt (f st).
Definition log (c : Command) : M unit :=
  modify (fun st => setDispatched st (dispatched st ++ [c])).

Definition stateOf {A} (r : Res A) : Launcher :=
  match r with Ok _ st => st | Threw st => st end.

Notation "'let*' x ':=' m 'in' k" := (bindM m (fun x => k))
  (at level 10, x name, m at level 100, k at level 200).
Notation "m ';;' k" := (bindM m (fun _ => k))
  (at level 61, right associativity).

(** ** Selection *)

Section World.

(** The collation of [localeCompare] and the disk the launcher runs on. *)
Variable localeCompare : string -> string -> Z.
Variable disk : FS.

Definition existsSync (p : string) : bool :=
  match statSync disk p with Some _ => true | None => false end.

(** [Array.prototype.sort()] on strings: code-unit order. *)
Fixpoint insertString (s : string) (sorted : list string) : list string :=
  match sorted with
  | [] => [s]
  | x :: rest =>
      match String.compare s x with
      | Gt => x :: insertString s rest
      | _ => s :: sorted
      end
  end.
Definition sortStrings (l : list string) : list string :=
  fold_right insertString [] l.

(** [_groupRomsBySystem()] *)
Definition _groupRomsBySystem (st : Launcher) : Launcher :=
  let groups := fold_left pushGroup (roms st) [] in     (* the same loop as getSystemGroups *)
  let sys := sortStrings (map fst groups) in
  setGroups st sys
    (map (fun g => (fst g, sortByName localeCompare (snd g))) groups).

(** [this.systemRoms[system]] *)
Fixpoint groupOf (groups : list (string * list Rom)) (sys : string)
  : option (list Rom) :=
  match groups with
  | [] => None
  | (s, g) :: rest => if String.eqb s sys then Some g else groupOf rest sys
  end.

(** [_showCurrentSystem()]; [roms.map] throws when the index names no
    system. The rows are the names of the system's games. *)
Definition _showCurrentSystem : M unit :=
  modify (fun st => setCurrentView st SystemView) ;;
  let* st := get in
  if (List.length (systems st) =? 0)%nat then ret tt else
  let roms := match at_ (systems st) (currentSystemIndex st) with
              | Some sys => groupOf (systemRoms st) sys
              | None => None
              end in
  modify (fun st => setSortedRoms st roms) ;;
  match roms with
  | None => throw
  | Some l => modify (fun st => showRows st (List.length l))
  end.

(** [_showRecentRoms()]; with no recent game the widget shows one row,
    the message. *)
Definition _showRecentRoms (st : Launcher) : Launcher :=
  let st := setCurrentView st RecentView in
  let recent := recentGames (prefs st) in
  let recentRoms :=
    flat_map (fun o => match o with Some r => [r] | None => [] end)   (* filter(r => r) *)
      (map (fun p => find (fun r => String.eqb (path r) p) (roms st)) recent) in
  let st := setSortedRoms st (Some recentRoms) in
  let rows := if (List.length recentRoms =? 0)%nat then 1%nat
              else List.length recentRoms in
  showRows st rows.

(** [_getSelectedRom(index)] *)
Definition _getSelectedRom (st : Launcher) (index : Z) : option Rom :=
  match sortedRoms st with
  | Some l => at_ l index
  | None => None
  end.

(** [_loadRoms()] up to its [await]: the widget shows the five rows of
    the message that the directory is missing, or the one row
    [Scanning ROMs...], the scan of [romsDir] is started and its result
    is awaited. *)
Definition _loadRoms (st : Launcher) : Launcher :=
  let dir := romsDir (prefs st) in
  if negb (existsSync dir) then setRoms (setItems st 5) []
  else
    let st := setItems st 1 in
    setLoading st (loading st ++ [dir]).

(** [_loadRoms()] from its [await] on, once the oldest awaited scan
    has resolved; a scan that stays pending is never resumed. An empty
    catalog is answered by the five rows of the message [No ROMs found]. *)
Definition loadRomsResumed : M unit :=
  let* st := get in
  match loading st with
  | [] => ret tt
  | dir :: rest =>
      match scan localeCompare disk dir with
      | Pending => ret tt
      | Done found =>
          modify (fun st => setRoms (setLoading st rest) found) ;;
          if (List.length found =? 0)%nat then modify (fun st => setItems st 5)
          else modify _groupRomsBySystem ;; _showCurrentSystem
      end
  end.

(** [_navigateUp()] *)
Definition _navigateUp (st : Launcher) : Launcher :=
  let index := (selected st - 1)%Z in
  if (index >=? 0)%Z then select st index else st.

(** [_navigateDown()] *)
Definition _navigateDown (st : Launcher) : Launcher :=
  let index := (selected st + 1)%Z in
  let max := match sortedRoms st with
             | Some l => Z.of_nat (List.length l)
             | None => 0%Z
             end in
  if (index <? max)%Z then select st index else st.

Definition isSystemView (v : View) : bool :=
  match v with SystemView => true | RecentView => false end.

(** [_navigatePrevSystem()] *)
Definition _navigatePrevSystem : M unit :=
  let* st := get in
  if negb (isSystemView (currentView st)) || (List.length (systems st) =? 0)%nat
  then ret tt else
  let i := (currentSystemIndex st - 1)%Z in
  let i := if (i <? 0)%Z then (Z.of_nat (List.length (systems st)) - 1)%Z else i in
  modify (fun st => setCurrentSystemIndex st i) ;;
  _showCurrentSystem.

(** [_navigateNextSystem()] *)
Definition _navigateNextSystem : M unit :=
  let* st := get in
  if negb (isSystemView (currentView st)) || (List.length (systems st) =? 0)%nat
  then ret tt else
  let i := (currentSystemIndex st + 1)%Z in
  let i := if (i >=? Z.of_nat (List.length (systems st)))%Z then 0%Z else i in
  modify (fun st => setCurrentSystemIndex st i) ;;
  _showCurrentSystem.

(** ** Launching *)

(** [0.5 + (contrastSlider - 1) * (1.5 / 9)] *)
Definition contrastValue (contrastSlider : Z) : float :=
  (0.5 + (toNumber contrastSlider - 1) * (1.5 / 9))%float.

(** The argument list [_launchGame(rom)] builds. *)
Definition launchArgs (p : Config) (rom : Rom) : list Arg :=
  let args := [Text (path rom)] in
  let args := args ++ [Text "--symbols"; Text (symbols p)] in
  let args := args ++ [Text "--colors"; Text (colors p)] in
  let args := if fgOnly p then args ++ [Text "--fg-only"] else args in
  let args := if dither p then args ++ [Text "--dither"] else args in
  let contrastSlider := if (contrast p =? 0)%Z then 5%Z else contrast p in   (* || 5 *)
  let value := contrastValue contrastSlider in
  if negb (PrimFloat.eqb value 1%float)                                     (* !== 1.0 *)
  then args ++ [Text "--contrast"; Fixed2 value]
  else args.

(** [_stopControllerPolling()] *)
Definition _stopControllerPolling (st : Launcher) : Launcher :=
  setPolling st false.

(** [_launchGame(rom)]: the recent list is updated, polling stops, the
    child is spawned. *)
Definition _launchGame (rom : Rom) (st : Launcher) : Launcher :=
  let st := setPrefs st (addRecentGame (path rom) (prefs st)) in
  let st := _stopControllerPolling st in
  setSpawned st (spawned st ++ [launchArgs (prefs st) rom]).

End World.

(** ** The settings dialog *)

Definition SYMBOLS : list string :=
  ["block"; "half"; "ascii"; "ascii+block"; "solid"; "stipple"; "quad";
   "sextant"; "octant"; "braille"].
Definition COLORS : list string := ["true"; "256"; "16"; "2"].
Definition FIELDS : list string :=
  ["roms"; "symbols"; "colors"; "fgOnly"; "dither"; "contrast"].

(** [arr[(idx + delta + arr.length) % arr.length]] *)
Definition cycle (arr : list string) (current : string) (delta : Z) : string :=
  let len := Z.of_nat (List.length arr) in
  match at_ arr (jsRem (indexOf arr current + delta + len) len) with
  | Some x => x
  | None => ""
  end.

Section DialogVars.
Variable d : Dialog.

Definition toggleSymbols (delta : Z) : Dialog :=
  mkDialog (romsInput d) (cycle SYMBOLS (selectedSymbols d) delta)
    (selectedColors d) (selectedFgOnly d) (selectedDither d)
    (selectedContrast d) (focusedField d).
Definition toggleColors (delta : Z) : Dialog :=
  mkDialog (romsInput d) (selectedSymbols d)
    (cycle COLORS (selectedColors d) delta) (selectedFgOnly d)
    (selectedDither d) (selectedContrast d) (focusedField d).
Definition toggleFgOnly : Dialog :=
  mkDialog (romsInput d) (selectedSymbols d) (selectedColors d)
    (negb (selectedFgOnly d)) (selectedDither d) (selectedContrast d)
    (focusedField d).
Definition toggleDither : Dialog :=
  mkDialog (romsInput d) (selectedSymbols d) (selectedColors d)
    (selectedFgOnly d) (negb (selectedDither d)) (selectedContrast d)
    (focusedField d).
Definition adjustContrast (delta : Z) : Dialog :=
  mkDialog (romsInput d) (selectedSymbols d) (selectedColors d)
    (selectedFgOnly d) (selectedDither d)
    (Z.max 1 (Z.min 10 (selectedContrast d + delta))) (focusedField d).
Definition focusField (field : string) : Dialog :=
  mkDialog (romsInput d) (selectedSymbols d) (selectedColors d)
    (selectedFgOnly d) (selectedDither d) (selectedContrast d) field.

Definition focusNextField : Dialog :=
  focusField (cycle FIELDS (focusedField d) 1 ).
Definition focusPrevField : Dialog :=
  focusField (cycle FIELDS (focusedField d) (-1)).

Definition handleLeftRight (delta : Z) : Dialog :=
  if String.eqb (focusedField d) "symbols" then toggleSymbols delta
  else if String.eqb (focusedField d) "colors" then toggleColors delta
  else if String.eqb (focusedField d) "fgOnly" then toggleFgOnly
  else if String.eqb (focusedField d) "dither" then toggleDither
  else if String.eqb (focusedField d) "contrast" then adjustContrast delta
  else d.

Definition handleToggle : Dialog :=
  if String.eqb (focusedField d) "symbols" then toggleSymbols 1
  else if String.eqb (focusedField d) "colors" then toggleColors 1
  else if String.eqb (focusedField d) "fgOnly" then toggleFgOnly
  else if String.eqb (focusedField d) "dither" then toggleDither
  else d.
End DialogVars.

(** [renderSlider(value)] throws a RangeError when a [repeat] count is
    negative. *)
Definition renderSliderThrows (value : Z) : bool :=
  (value <? 0)%Z || (10 - value <? 0)%Z.

Section Dialogs.
Variable disk : FS.

(** [_showSettings()] *)
Definition _showSettings : M unit :=
  modify (fun st => setSettings st true (settingsState st)) ;;
  let* st := get in
  let p := prefs st in
  if renderSliderThrows (contrast p) then throw else
  let d := mkDialog (romsDir p) (symbols p) (colors p) (fgOnly p) (dither p)
                    (contrast p) "roms" in
  modify (fun st => setSettings st true (Some d)).

(** A closure of the open dialog applied to the variables it captured. *)
Definition onDialog (f : Dialog -> Dialog) (st : Launcher) : Launcher :=
  match settingsState st with
  | Some d => setSettings st (settingsOpen st) (Some (f d))
  | None => st
  end.

(** [closeForm()] *)
Definition closeForm (st : Launcher) : Launcher :=
  setSettings st false None.

(** [saveAndClose()] for the dialog variables [d] *)
Definition saveAndClose (d : Dialog) (st : Launcher) : Launcher :=
  let p := prefs st in
  let newPath := trim (romsInput d) in
  let dir := if String.eqb newPath "" then romsDir p else newPath in
  let p := mkConfig dir (savesDir p) (recentGames p) (maxRecent p)
             (selectedSymbols d) (selectedColors d) (selectedFgOnly d)
             (selectedDither d) (selectedContrast d) in
  let st := setPrefs st p in
  let st := setSettings st false None in
  _loadRoms disk st.
End Dialogs.

(** ** Controller polling *)

(** One pad of [navigator.getGamepads()]: [b?.pressed] of each button
    ([None] for a missing button object) and the axis values. *)
Record Gamepad := mkGamepad {
  buttons : list (option bool);
  axes : list float
}.

(** [buttons[idx]?.pressed], [undefined] read as false *)
Definition buttonPressed (bs : list (option bool)) (idx : nat) : bool :=
  match nth_error bs idx with
  | Some (Some b) => b
  | _ => false
  end.

(** [gp.buttons.some(b => b?.pressed)] *)
Definition anyPressed (gp : Gamepad) : bool :=
  existsb (fun b => match b with Some p => p | None => false end) (buttons gp).

(** [gp.axes[i] || 0] *)
Definition axisOrZero (gp : Gamepad) (i : nat) : float :=
  match nth_error (axes gp) i with
  | Some x => if PrimFloat.eqb x 0%float || negb (PrimFloat.eqb x x) then 0%float else x
  | None => 0%float
  end.

(** [_startControllerPolling()]: the maps are reset, the gate is armed
    and the interval is set. *)
Definition _startControllerPolling (st : Launcher) : Launcher :=
  let st := setPrevButtons st (fun _ => false) in
  let st := setHoldTime st (fun _ => None) in
  let st := setWaitingForRelease st true in
  setPolling st true.

(** The helper [pressed(idx)]: press edge, and the sample is remembered. *)
Definition pressed (bs : list (option bool)) (idx : nat) : M bool :=
  fun st =>
    let isPressed := buttonPressed bs idx in
    let wasPressed := prevButtons st idx in
    Ok (isPressed && negb wasPressed)
       (setPrevButtons st (fun i => if Nat.eqb i idx then isPressed else prevButtons st i)).

(** The helper [heldWithRepeat(key, isActive)] at time [now]. *)
Definition heldWithRepeat (now : Z) (key : Slot) (isActive : bool) : M bool :=
  fun st =>
    let hold := holdTime st in
    let put v := setHoldTime st (fun k => if Slot_eqb k key then v else hold k) in
    if isActive then
      match hold key with
      | None | Some 0%Z => Ok true (put (Some now))          (* first press *)
      | Some since =>
          let elapsed := (now - since)%Z in
          if (elapsed >? 300)%Z then
            let repeatElapsed := jsRem (elapsed - 300) 80 in
            let prevRepeatElapsed := jsRem (elapsed - 300 - 16) 80 in
            if (repeatElapsed <? prevRepeatElapsed)%Z || (elapsed - 300 <? 16)%Z
            then Ok true st else Ok false st
          else Ok false st
      end
    else Ok false (put None).

Fixpoint times {A} (n : nat) (f : A -> A) (a : A) : A :=
  match n with
  | O => a
  | S n => times n f (f a)
  end.

Section Polling.
Variable disk : FS.

(** The launch handlers: [_getSelectedRom(this.romList.selected)], and
    [_launchGame] when it is a ROM. *)
Definition launchSelected : M unit :=
  let* st := get in
  match _getSelectedRom st (selected st) with
  | Some rom => log (Launch rom) ;; modify (_launchGame rom)
  | None => ret tt
  end.

(** The dialog branch of [_handleGamepadInput], [d] being the
    variables of the open dialog. *)
Definition dialogInput (bs : list (option bool)) (d : Dialog) : M unit :=
  let* b := pressed bs 1 in
  if b then log CloseForm ;; modify closeForm else
  let* a := pressed bs 0 in
  let* b := (if a then ret true else pressed bs 9) in
  if b then
    log SaveAndClose ;; modify (saveAndClose disk d)
  else
  let* b := pressed bs 12 in
  if b then log FocusPrev ;; modify (onDialog focusPrevField) else
  let* b := pressed bs 13 in
  if b then log FocusNext ;; modify (onDialog focusNextField) else
  let* b := pressed bs 14 in
  if b then log (LeftRight (-1)) ;; modify (onDialog (fun d => handleLeftRight d (-1))) else
  let* b := pressed bs 15 in
  if b then log (LeftRight 1) ;; modify (onDialog (fun d => handleLeftRight d 1)) else
  let* b := pressed bs 2 in
  if b then log Toggle ;; modify (onDialog handleToggle) else
  ret tt.

Definition when (b : bool) (m : M unit) : M unit := if b then m else ret tt.

(** [_handleGamepadInput(gamepads)] at [Date.now() = now] *)
Definition _handleGamepadInput (gamepads : list Gamepad) (now : Z) : M unit :=
  match gamepads with
  | [] => ret tt
  | gp :: _ =>
    let bs := buttons gp in
    let* st := get in
    match settingsOpen st, settingsState st with
    | true, Some d => dialogInput bs d
    | _, _ =>
      let leftStickY := axisOrZero gp 1 in
      let leftStickX := axisOrZero gp 0 in
      let upActive := buttonPressed bs 12 || PrimFloat.ltb leftStickY (-0.5)%float in
      let downActive := buttonPressed bs 13 || PrimFloat.ltb 0.5%float leftStickY in
      let leftActive := buttonPressed bs 14 || PrimFloat.ltb leftStickX (-0.5)%float in
      let rightActive := buttonPressed bs 15 || PrimFloat.ltb 0.5%float leftStickX in
      let* b := heldWithRepeat now SUp upActive in
      when b (log NavigateUp ;; modify _navigateUp) ;;
      let* b := heldWithRepeat now SDown downActive in
      when b (log NavigateDown ;; modify _navigateDown) ;;
      let* b := heldWithRepeat now SLeft leftActive in
      when b (log PrevSystem ;; _navigatePrevSystem) ;;
      let* b := heldWithRepeat now SRight rightActive in
      when b (log NextSystem ;; _navigateNextSystem) ;;
      let* b := heldWithRepeat now SLb (buttonPressed bs 4) in
      when b (log PageUp ;; modify (times 10 _navigateUp)) ;;
      let* b := heldWithRepeat now SRb (buttonPressed bs 5) in
      when b (log PageDown ;; modify (times 10 _navigateDown)) ;;
      let* b := pressed bs 0 in
      when b launchSelected ;;
      let* b := pressed bs 2 in
      when b (log ShowRecent ;; modify _showRecentRoms) ;;
      let* b := pressed bs 3 in
      when b (log ShowSettings ;; _showSettings) ;;
      let* b := pressed bs 9 in
      when b launchSelected
    end
  end.

(** The interval callback of [_startControllerPolling];
    [_updateControllerStatus] only redraws the status box. *)
Definition pollTick (pads : list (option Gamepad)) (now : Z) : M unit :=
  let gamepads :=
    flat_map (fun gp => match gp with Some g => [g] | None => [] end) pads in
  let* st := get in
  match waitingForRelease st, gamepads with
  | true, gp :: _ =>
      if negb (anyPressed gp)
      then modify (fun st => setWaitingForRelease st false)
      else ret tt                      (* skip input handling until released *)
  | _, _ => _handleGamepadInput gamepads now
  end.

(** The callback on successive timer ticks. A tick that throws ends
    the process; a cleared interval fires no more. Each tick is paired
    with what it dispatched. *)
Fixpoint pollRun (ticks : list (list (option Gamepad) * Z)) (st : Launcher)
  : list (list Command) * Launcher :=
  match ticks with
  | [] => ([], st)
  | (pads, now) :: rest =>
      if negb (polling st) then ([], st) else
      let before := List.length (dispatched st) in
      match pollTick pads now st with
      | Ok _ st' =>
          let (outs, final) := pollRun rest st' in
          (skipn before (dispatched st') :: outs, final)
      | Threw st' => ([skipn before (dispatched st')], st')
      end
  end.

End Polling.

End Launcher.
Import Launcher.

(* ================================================================== *)
(** * Vocabulary of the statements, sample disks and sample states *)
(* ================================================================== *)

(** A name free of separators. *)
Fixpoint noSlash (s : string) : bool :=
  match s with
  | EmptyString => true
  | String c r => negb (isSlash c) && noSlash r
  end.

(** What may follow an entry name inside a longer path: nothing, or a
    separator and more. *)
Definition tailOk (t : string) : Prop := t = "" \/ exists u, t = String "/" u.

(** What the iteration for a regular file adds to the catalog. *)
Definition fileAdds (fs : FS) (fullPath entry : string) : Outcome (list Rom) :=
  let ext := toLowerCase (extname entry) in
  if String.eqb ext ".zip" then _scanZip fs fullPath
  else if ROM_EXTENSIONS_has ext then Done [fileRom fullPath entry ext]
  else Done [].

(** What the iteration for one directory entry adds, [recurse] giving
    what a nested directory adds. *)
Definition entryAdds (recurse : string -> Outcome (list Rom)) (fs : FS)
    (dir entry : string) : Outcome (list Rom) :=
  if startsWith entry "." then Done [] else
  match statSync fs (join dir entry) with
  | Some IsDirectory => recurse (join dir entry)
  | Some IsFile => fileAdds fs (join dir entry) entry
  | Some IsOther => Done []
  | None => Done []
  end.

Fixpoint collect (f : string -> Outcome (list Rom)) (entries : list string)
  : Outcome (list Rom) :=
  match entries with
  | [] => Done []
  | e :: rest => a <- f e ;; b <- collect f rest ;; Done (a ++ b)
  end.

(** No archive on the disk breaks off its listing with an ['error']. *)
Definition archivesEnd (fs : FS) : Prop :=
  forall p members, zipOpen fs p <> Entries members false.

Definition visible (entry : string) : Prop := startsWith entry "." = false.

(** [Listed fs dir comps p]: [p] is reached from [dir] through the
    directory entries [comps], each one listed by [readdirSync] in the
    directory before it and none hidden; all but the last are
    directories. *)
Inductive Listed (fs : FS) : string -> list string -> string -> Prop :=
| Listed_here dir entries e :
    readdirSync fs dir = Some entries -> In e entries -> visible e ->
    Listed fs dir [e] (join dir e)
| Listed_below dir entries d comps p :
    readdirSync fs dir = Some entries -> In d entries -> visible d ->
    statSync fs (join dir d) = Some IsDirectory ->
    Listed fs (join dir d) comps p ->
    Listed fs dir (d :: comps) p.

(** The last name of a chain of entries. *)
Definition lastName (comps : list string) : string := last comps "".

(** A catalog entry [r] made from the regular file at [comps] below
    [dir]: either the file is a ROM and [r] is its entry, or it is an
    archive that lists to its end and [r] is the entry of one member. *)
Definition Origin (fs : FS) (dir : string) (depth : Z) (r : Rom) : Prop :=
  exists comps,
    Listed fs dir comps (path r) /\
    (depth + Z.of_nat (List.length comps) <= 4)%Z /\
    statSync fs (path r) = Some IsFile /\
    let e := lastName comps in
    let x := toLowerCase (extname e) in
    (String.eqb x ".zip" = false /\ ROM_EXTENSIONS_has x = true /\
     r = fileRom (path r) e x)
    \/
    (String.eqb x ".zip" = true /\
     exists members m,
       zipOpen fs (path r) = Entries members true /\ In m members /\
       In r (onEntry (path r) (basename (path r) (extname (path r))) m)).

(** Directory listings name each entry once, and no name holds a
    separator. *)
Definition plainListings (fs : FS) : Prop :=
  forall dir entries, readdirSync fs dir = Some entries ->
    NoDup entries /\ Forall (fun e => noSlash e = true) entries.

(** The entries of the catalog [roms] whose path is [p]. *)
Definition entriesAt (p : string) (roms : list Rom) : list Rom :=
  filter (fun r => String.eqb (path r) p) roms.

(** ** Sample disks *)

Module Samples.

Fixpoint assoc {A} (l : list (string * A)) (k : string) : option A :=
  match l with
  | [] => None
  | (k', v) :: rest => if String.eqb k' k then Some v else assoc rest k
  end.

(** A disk from its directory listings, its stat results and its
    archives; any other path is absent. *)
Definition disk (dirs : list (string * list string))
    (stats : list (string * Stat)) (zips : list (string * ZipRun)) : FS :=
  {| readdirSync := assoc dirs;
     statSync := assoc stats;
     zipOpen := fun p => match assoc zips p with Some z => z | None => OpenError end |}.

(** A byte-wise, case-blind stand-in for [localeCompare]. *)
Definition compareNames (a b : string) : Z :=
  match String.compare (toLowerCase a) (toLowerCase b) with
  | Lt => (-1)%Z
  | Eq => 0%Z
  | Gt => 1%Z
  end.

Definition gamesDisk : FS :=
  disk [("/roms", ["games.zip"])]
       [("/roms/games.zip", IsFile)]
       [("/roms/games.zip", Entries ["1.nes"; "2.nes"] true)].

End Samples.

Module Disks.
Import Samples.

(** An archive whose only member is a dot file with a ROM extension. *)
Definition hiddenMemberDisk : FS :=
  disk [("/roms", ["pack.zip"])]
       [("/roms/pack.zip", IsFile)]
       [("/roms/pack.zip", Entries [".secret.nes"] true)].

(** A dot file with a ROM extension next to a plain ROM. *)
Definition hiddenFileDisk : FS :=
  disk [("/roms", [".hidden.nes"; "zelda.nes"])]
       [("/roms/.hidden.nes", IsFile); ("/roms/zelda.nes", IsFile)]
       [].

(** An archive made on macOS: the ROM and its resource fork. *)
Definition macosxDisk : FS :=
  disk [("/roms", ["mac.zip"])]
       [("/roms/mac.zip", IsFile)]
       [("/roms/mac.zip", Entries ["game.nes"; "__MACOSX/._game.nes"] true)].

(** An archive that opens and then fails on its second record, next to a
    plain ROM. *)
Definition brokenArchiveDisk : FS :=
  disk [("/roms", ["bad.zip"; "good.nes"])]
       [("/roms/bad.zip", IsFile); ("/roms/good.nes", IsFile)]
       [("/roms/bad.zip", Entries ["a.nes"] false)].

(** An unreadable directory, a file whose stat fails and an archive that
    does not open, next to a plain ROM. *)
Definition failuresDisk : FS :=
  disk [("/roms", ["locked"; "gone.nes"; "junk.zip"; "good.nes"])]
       [("/roms/locked", IsDirectory); ("/roms/junk.zip", IsFile);
        ("/roms/good.nes", IsFile)]
       [("/roms/junk.zip", OpenError)].

(** Five nested directories with a ROM in each. *)
Definition deepDisk : FS :=
  disk [("/roms", ["a"; "r0.nes"]); ("/roms/a", ["b"; "r1.nes"]);
        ("/roms/a/b", ["c"; "r2.nes"]); ("/roms/a/b/c", ["d"; "r3.nes"]);
        ("/roms/a/b/c/d", ["e"; "r4.nes"]); ("/roms/a/b/c/d/e", ["r5.nes"])]
       [("/roms/a", IsDirectory); ("/roms/a/b", IsDirectory);
        ("/roms/a/b/c", IsDirectory); ("/roms/a/b/c/d", IsDirectory);
        ("/roms/a/b/c/d/e", IsDirectory);
        ("/roms/r0.nes", IsFile); ("/roms/a/r1.nes", IsFile);
        ("/roms/a/b/r2.nes", IsFile); ("/roms/a/b/c/r3.nes", IsFile);
        ("/roms/a/b/c/d/r4.nes", IsFile); ("/roms/a/b/c/d/e/r5.nes", IsFile)]
       [].

(** An upper-case name. *)
Definition upperCaseDisk : FS :=
  disk [("/roms", ["MARIO.NES"])] [("/roms/MARIO.NES", IsFile)] [].

(** A hidden directory with a ROM inside, a hidden ROM, a plain
    directory with a ROM, a plain ROM, and an archive with a dot member,
    a plain member and a resource fork. *)
Definition hiddenEntriesDisk : FS :=
  disk [("/roms", [".hidden"; ".ghost.nes"; "sub"; "pack.zip"; "zelda.nes"]);
        ("/roms/.hidden", ["lost.nes"]); ("/roms/sub", ["mario.nes"])]
       [("/roms/.hidden", IsDirectory); ("/roms/.hidden/lost.nes", IsFile);
        ("/roms/.ghost.nes", IsFile); ("/roms/sub", IsDirectory);
        ("/roms/sub/mario.nes", IsFile); ("/roms/pack.zip", IsFile);
        ("/roms/zelda.nes", IsFile)]
       [("/roms/pack.zip",
         Entries [".secret.nes"; "game.nes"; "__MACOSX/._game.nes"] true)].

(** What [scan] makes of it, under [compareNames]. *)
Definition hiddenEntriesCatalog : list Rom :=
  [ mkRom ".secret" "/roms/pack.zip" (Some ".secret.nes") ".nes" "NES";
    mkRom "game" "/roms/pack.zip" (Some "game.nes") ".nes" "NES";
    mkRom "mario" "/roms/sub/mario.nes" None ".nes" "NES";
    mkRom "zelda" "/roms/zelda.nes" None ".nes" "NES" ].

(** The ROM directory of the sample preferences, with one ROM. *)
Definition homeDisk : FS :=
  disk [("/home/u/roms", ["zelda.nes"])]
       [("/home/u/roms", IsDirectory); ("/home/u/roms/zelda.nes", IsFile)]
       [].

(** Three ROMs the directory lists in another order than their names
    rank. *)
Definition shelfDisk : FS :=
  disk [("/roms", ["zelda.nes"; "dk.gb"; "asteroids.a26"])]
       [("/roms/zelda.nes", IsFile); ("/roms/dk.gb", IsFile);
        ("/roms/asteroids.a26", IsFile)]
       [].

End Disks.

Import Samples Disks.

(** The members [_scanZip] keeps: a recognized ROM extension, and an
    inner name that does not start with [__MACOSX]. *)
Definition kept (member : string) : bool :=
  ROM_EXTENSIONS_has (toLowerCase (extname member))
  && negb (startsWith member "__MACOSX").

(** The display name of a member with base name [base] in the archive
    named [zipName]: placeholder names give way to the archive's. *)
Definition displayName (zipName base : string) : string :=
  if allDigits base || (String.length base <? 3)%nat then zipName else base.

(** Sample disks are checked by computation. *)
Fixpoint distinct (l : list string) : bool :=
  match l with
  | [] => true
  | x :: rest => negb (existsb (String.eqb x) rest) && distinct rest
  end.

Definition listsToEnd (z : ZipRun) : bool :=
  match z with
  | Entries _ false => false
  | _ => true
  end.

(** How an entry is classified. *)
Definition classOf (r : Rom) : string * string := (ext r, system r).

Definition isNot (p : string) : string -> bool := fun q => negb (String.eqb q p).

Definition threeRecent : Config :=
  mkConfig "/home/u/roms" "/home/u/.config/retroterm/saves" ["A"; "B"; "C"] 3
           "ascii+block" "256" true false 5.

(** The slider value [_launchGame] resolves: [prefs.get('contrast') || 5]. *)
Definition resolvedSlider (p : Config) : Z :=
  if (contrast p =? 0)%Z then 5%Z else contrast p.

(** The arguments before the contrast option. *)
Definition baseArgs (p : Config) (rom : Rom) : list Arg :=
  [Text (path rom); Text "--symbols"; Text (symbols p); Text "--colors"; Text (colors p)]
  ++ (if fgOnly p then [Text "--fg-only"] else [])
  ++ (if dither p then [Text "--dither"] else []).

(** The rows the recent view shows for the stored [paths] over the flat
    catalog [catalog]. *)
Definition resolveRecent (catalog : list Rom) (paths : list string) : list Rom :=
  flat_map (fun p => match find (fun r => String.eqb (path r) p) catalog with
                     | Some r => [r]
                     | None => []
                     end) paths.

Definition game1 : Rom := mkRom "games" "/roms/games.zip" (Some "1.nes") ".nes" "NES".
Definition game2 : Rom := mkRom "games" "/roms/games.zip" (Some "2.nes") ".nes" "NES".
Definition zelda : Rom := mkRom "zelda" "/roms/zelda.nes" None ".nes" "NES".

(** A launcher whose catalog holds both members of [games.zip] and whose
    recent list names the archive twice. *)
Definition recentState : Launcher :=
  setRoms
    (construct (mkConfig "/roms" "/saves"
                  ["/roms/games.zip"; "/roms/zelda.nes"; "/roms/games.zip"] 10
                  "ascii+block" "256" true false 5))
    [game1; game2; zelda].

(** Highlight movements: single steps and the ten-step page moves of the
    shoulder buttons. *)
Inductive Move := StepUp | StepDown | PageUpMove | PageDownMove.

Definition applyMove (st : Launcher) (m : Move) : Launcher :=
  match m with
  | StepUp => _navigateUp st
  | StepDown => _navigateDown st
  | PageUpMove => times 10 _navigateUp st
  | PageDownMove => times 10 _navigateDown st
  end.

(** The length of the active list; no list counts as empty. *)
Definition listLength (st : Launcher) : Z :=
  match sortedRoms st with
  | Some l => Z.of_nat (List.length l)
  | None => 0%Z
  end.

(** The highlight is inside the list, or at 0 when the list is empty. *)
Definition inRange (st : Launcher) : Prop :=
  (listLength st = 0 -> selected st = 0)%Z /\
  (0 < listLength st -> 0 <= selected st < listLength st)%Z.

(** The highlight is one of the rows the widget holds. *)
Definition onScreen (st : Launcher) : Prop :=
  (0 <= selected st <= Z.of_nat (lastRow st))%Z.

(** A launcher showing a list of three entries, the first highlighted. *)
Definition browsing : Launcher :=
  showRows (setSortedRoms (construct threeRecent) (Some [game1; game2; zelda])) 3.

(** The pad the poll loop reads: the first one that is not null. *)
Definition firstPad (pads : list (option Gamepad)) : option Gamepad :=
  hd_error (flat_map (fun gp => match gp with Some g => [g] | None => [] end) pads).

(** A pad with button A (0) held, and the same pad at rest. *)
Definition padA : Gamepad := mkGamepad [Some true; Some false; Some false; Some false] [].
Definition padIdle : Gamepad := mkGamepad [Some false; Some false; Some false; Some false] [].

(** Resuming with A still held: two ticks held, one released, A again. *)
Definition resumeTicks : list (list (option Gamepad) * Z) :=
  [([Some padA], 1000%Z); ([None; Some padA], 1016%Z);
   ([Some padIdle], 1032%Z); ([Some padA], 1048%Z)].

(** ** Vocabulary of the further properties *)

(** [a] may stand before [b] in a list sorted by name. *)
Definition nameLe (cmp : string -> string -> Z) (a b : Rom) : Prop :=
  (cmp (name a) (name b) <= 0)%Z.

(** A consistent comparator, as [Array.prototype.sort] asks for one:
    [b] is after [a] exactly when [a] is before [b], and the order is
    transitive. *)
Definition consistent (cmp : string -> string -> Z) : Prop :=
  (forall a b, cmp a b < 0 <-> 0 < cmp b a)%Z /\
  (forall a b c, cmp a b <= 0 -> cmp b c <= 0 -> cmp a c <= 0)%Z.

(** Shorter names first: a comparator that is consistent by arithmetic. *)
Definition compareLengths (a b : string) : Z :=
  (Z.of_nat (String.length a) - Z.of_nat (String.length b))%Z.

(** The entries whose name [cmp] ranks with [n]. *)
Definition ranked (cmp : string -> string -> Z) (n : string) (roms : list Rom) : list Rom :=
  filter (fun r => (cmp (name r) n =? 0)%Z) roms.

(** The entries named [n]. *)
Definition named (n : string) (roms : list Rom) : list Rom :=
  filter (fun r => String.eqb (name r) n) roms.

(** The entries of the system [s]. *)
Definition ofSystem (s : string) (roms : list Rom) : list Rom :=
  filter (fun r => String.eqb (system r) s) roms.

(** The paths of [l], each at its first place only. *)
Fixpoint firstSeen (l : list string) : list string :=
  match l with
  | [] => []
  | p :: rest => p :: filter (isNot p) (firstSeen rest)
  end.

(** The configuration after the games at [plays] were launched in turn. *)
Definition played (plays : list string) (c : Config) : Config :=
  fold_left (fun c p => addRecentGame p c) plays c.

(** The systems of the extension table: the keys groups are filed under. *)
Definition tableSystem (r : Rom) : Prop := In (system r) (map snd SYSTEM_NAMES).

(** [a] is [b] or stands before it in code-unit order. *)
Definition codeUnitLe (a b : string) : Prop := String.compare a b <> Gt.

(** Every listed system has its group. *)
Definition grouped (st : Launcher) : Prop :=
  forall s, In s (systems st) -> groupOf (systemRoms st) s <> None.

Definition systemCount (st : Launcher) : Z := Z.of_nat (List.length (systems st)).

(** The index names a system. *)
Definition systemInRange (st : Launcher) : Prop :=
  (0 <= currentSystemIndex st < systemCount st)%Z.

(** The group of the system at index [i]. *)
Definition groupAt (st : Launcher) (i : Z) : option (list Rom) :=
  match at_ (systems st) i with
  | Some s => groupOf (systemRoms st) s
  | None => None
  end.

(** The system view of the list [l], as [_showCurrentSystem] leaves it. *)
Definition showing (st : Launcher) (l : list Rom) : Launcher :=
  showRows (setSortedRoms (setCurrentView st SystemView) (Some l)) (List.length l).

(** A handler called [n] times in a row. *)
Fixpoint repeatM (n : nat) (m : M unit) : M unit :=
  match n with
  | O => ret tt
  | S n => m ;; repeatM n m
  end.

(** A launcher whose catalog holds games of two systems. *)
Definition sonic : Rom := mkRom "sonic" "/roms/sonic.md" None ".md" "Genesis".
Definition twoSystems : Launcher :=
  setRoms (construct threeRecent) [zelda; sonic; game1].


(** The commands of the settings dialog. *)
Definition isDialogCommand (c : Command) : bool :=
  match c with
  | CloseForm | SaveAndClose | FocusPrev | FocusNext | LeftRight _ | Toggle => true
  | _ => false
  end.




(** Both sticks rest inside the dead zone. *)
Definition sticksIdle (gp : Gamepad) : bool :=
  negb (PrimFloat.ltb (axisOrZero gp 1) (-0.5)%float)
  && negb (PrimFloat.ltb 0.5%float (axisOrZero gp 1))
  && negb (PrimFloat.ltb (axisOrZero gp 0) (-0.5)%float)
  && negb (PrimFloat.ltb 0.5%float (axisOrZero gp 0)).

(** Button [b] is down and no other. *)
Definition onlyButton (gp : Gamepad) (b : nat) : Prop :=
  forall idx, buttonPressed (buttons gp) idx = Nat.eqb idx b.

(** [hold[key] = v], and [delete hold[key]] for [None]. *)
Definition setHold (key : Slot) (v : option Z) (st : Launcher) : Launcher :=
  setHoldTime st (fun k => if Slot_eqb k key then v else holdTime st k).

(** [prev[idx] = v] *)
Definition setPrev (idx : nat) (v : bool) (st : Launcher) : Launcher :=
  setPrevButtons st (fun i => if Nat.eqb i idx then v else prevButtons st i).

(** What a dispatched dialog command does to the dialog's variables. *)
Definition dialogStep (c : Command) (d : Dialog) : Dialog :=
  match c with
  | FocusPrev => focusPrevField d
  | FocusNext => focusNextField d
  | LeftRight delta => handleLeftRight d delta
  | Toggle => handleToggle d
  | _ => d
  end.

(** The dialog after the commands [cmds]. *)
Definition edited (cmds : list Command) (d : Dialog) : Dialog :=
  fold_left (fun d c => dialogStep c d) cmds d.

(** The sample launcher with the settings dialog open. *)
Definition settingsShown : Launcher := stateOf (_showSettings browsing).

(** The dialog as it opens on the sample launcher. *)
Definition sampleDialog : Dialog :=
  mkDialog "/home/u/roms" "ascii+block" "256" true false 5 "roms".

(* ================================================================== *)
(** * Properties *)
(* ================================================================== *)

(** ** The list widget *)

Lemma select_selected_row st i :
  selected (select st i) = Z.max 0 (Z.min i (Z.of_nat (lastRow st))).
Proof.
  unfold select. simpl.
  destruct (Z.ltb_spec i 0); [lia|].
  destruct (Z.geb_spec i (Z.of_nat (lastRow st) + 1)); lia.
Qed.

Lemma select_first st : selected (select st 0) = 0%Z.
Proof. rewrite select_selected_row. lia. Qed.

Lemma showRows_selected st n : selected (showRows st n) = 0%Z.
Proof. apply select_first. Qed.

(** A row of the widget is selected as it is. *)
Lemma select_inside st i :
  (0 <= i <= Z.of_nat (lastRow st))%Z -> select st i = setSelected st i.
Proof.
  intros H. unfold select. cbv zeta.
  destruct (Z.ltb_spec i 0); [lia|].
  destruct (Z.geb_spec i (Z.of_nat (lastRow st) + 1)); [lia | reflexivity].
Qed.

(** ** Path helpers on sample names *)

Example extname_nes : extname "MARIO.NES" = ".NES". Proof. reflexivity. Qed.
Example extname_hidden : extname ".bashrc" = "". Proof. reflexivity. Qed.
Example extname_hidden_rom : extname ".hidden.nes" = ".nes". Proof. reflexivity. Qed.
Example extname_inner : extname "disc/sub.d/1.nes" = ".nes". Proof. reflexivity. Qed.
Example extname_dotdot : extname "a/.." = "". Proof. reflexivity. Qed.
Example extname_dots : extname "..." = ".". Proof. reflexivity. Qed.
Example extname_noext : extname "a.b/README" = "". Proof. reflexivity. Qed.
Example extname_dirslash : extname "dir.nes/" = ".nes". Proof. reflexivity. Qed.
Example basename_plain : basename "mario.nes" ".nes" = "mario". Proof. reflexivity. Qed.
Example basename_case : basename "MARIO.NES" ".nes" = "MARIO.NES". Proof. reflexivity. Qed.
Example basename_zip : basename "/roms/games.zip" ".zip" = "games". Proof. reflexivity. Qed.
Example basename_inner : basename "disc/1.nes" ".nes" = "1". Proof. reflexivity. Qed.

(** ** Strings and paths *)

Lemma append_assoc (a b c : string) : ((a ++ b) ++ c = a ++ (b ++ c))%string.
Proof. induction a as [|x a IH]; simpl; [reflexivity | now rewrite IH]. Qed.

Lemma append_cancel_l (a b c : string) : (a ++ b = a ++ c)%string -> b = c.
Proof.
  induction a as [|x a IH]; simpl; intros H; [exact H | ].
  injection H as H. now apply IH.
Qed.

Lemma append_nil_r (a : string) : (a ++ "")%string = a.
Proof. induction a as [|x a IH]; simpl; [reflexivity | now rewrite IH]. Qed.

Lemma name_tail_inj (e e' t t' : string) :
  noSlash e = true -> noSlash e' = true -> tailOk t -> tailOk t' ->
  (e ++ t = e' ++ t')%string -> e = e'.
Proof.
  revert e'. induction e as [|c e IH]; intros [|c' e'] He He' Ht Ht' H; simpl in *.
  - reflexivity.
  - exfalso. apply andb_prop in He' as [Hc' _].
    destruct Ht as [-> | [u ->]]; [discriminate | ].
    injection H as <- _. discriminate.
  - exfalso. apply andb_prop in He as [Hc _].
    destruct Ht' as [-> | [u ->]]; [discriminate | ].
    injection H as -> _. discriminate.
  - apply andb_prop in He as [_ He]. apply andb_prop in He' as [_ He'].
    injection H as -> H. f_equal. now apply IH.
Qed.

Lemma join_tail_inj (dir e e' t t' : string) :
  noSlash e = true -> noSlash e' = true -> tailOk t -> tailOk t' ->
  (join dir e ++ t = join dir e' ++ t')%string -> e = e'.
Proof.
  unfold join. intros He He' Ht Ht' H.
  rewrite !append_assoc in H. apply append_cancel_l in H.
  simpl in H. injection H as H.
  now apply (name_tail_inj e e' t t').
Qed.

Lemma join_join_tail (dir e e2 t : string) :
  (join (join dir e) e2 ++ t = join dir e ++ String "/" (e2 ++ t))%string.
Proof. unfold join. now rewrite !append_assoc. Qed.

(** ** Lowercasing and extensions *)

Lemma chars_toLowerCase s : chars (toLowerCase s) = map lowerAscii (chars s).
Proof. induction s as [|c s IH]; simpl; [reflexivity | unfold chars in *; simpl; now rewrite IH]. Qed.

Lemma str_map_lower l : str (map lowerAscii l) = toLowerCase (str l).
Proof. induction l as [|c l IH]; simpl; [reflexivity | unfold str in *; simpl; now rewrite IH]. Qed.

Lemma isSlash_lower c : isSlash (lowerAscii c) = isSlash c.
Proof. destruct c as [[] [] [] [] [] [] [] []]; reflexivity. Qed.

Lemma isDot_lower c : isDot (lowerAscii c) = isDot c.
Proof. destruct c as [[] [] [] [] [] [] [] []]; reflexivity. Qed.

Lemma lower_dot c : lowerAscii c = "."%char -> c = "."%char.
Proof. destruct c as [[] [] [] [] [] [] [] []]; simpl; intros H; try reflexivity; discriminate H. Qed.

Lemma lowerAscii_idem c : lowerAscii (lowerAscii c) = lowerAscii c.
Proof. destruct c as [[] [] [] [] [] [] [] []]; reflexivity. Qed.

Lemma dropSlashes_map l : dropSlashes (map lowerAscii l) = map lowerAscii (dropSlashes l).
Proof.
  induction l as [|c l IH]; simpl; [reflexivity|]. rewrite isSlash_lower.
  destruct (isSlash c); [exact IH | reflexivity].
Qed.

Lemma takeComponent_map l : takeComponent (map lowerAscii l) = map lowerAscii (takeComponent l).
Proof.
  induction l as [|c l IH]; simpl; [reflexivity|]. rewrite isSlash_lower.
  destruct (isSlash c); [reflexivity | simpl; now rewrite IH].
Qed.

Lemma splitAtDot_map l :
  splitAtDot (map lowerAscii l) =
  match splitAtDot l with
  | Some (b, a) => Some (map lowerAscii b, map lowerAscii a)
  | None => None
  end.
Proof.
  induction l as [|c l IH]; simpl; [reflexivity|]. rewrite isDot_lower.
  destruct (isDot c); [reflexivity|]. rewrite IH.
  destruct (splitAtDot l) as [[b a]|]; reflexivity.
Qed.

Lemma str_dot_map l :
  str ("."%char :: rev (map lowerAscii l)) = toLowerCase (str ("."%char :: rev l)).
Proof. rewrite <- map_rev. exact (str_map_lower ("."%char :: rev l)). Qed.

Lemma extname_toLowerCase s : extname (toLowerCase s) = toLowerCase (extname s).
Proof.
  unfold extname, lastComponentRev.
  rewrite chars_toLowerCase, <- map_rev, dropSlashes_map, takeComponent_map, splitAtDot_map.
  destruct (splitAtDot _) as [[b a]|]; [|reflexivity].
  destruct b as [|y b]; destruct a as [|x [|z a]]; try reflexivity;
    try (cbn [map]; apply (str_dot_map (y :: b))).
  - cbn [map].
    destruct (ascii_dec x ".") as [->|Hx]; [reflexivity|].
    assert (lowerAscii x <> "."%char) as Hx' by (intros E; now apply lower_dot in E).
    transitivity (str ["."%char]); [|transitivity (toLowerCase (str ["."%char]))].
    + destruct (lowerAscii x) as [[] [] [] [] [] [] [] []]; try reflexivity. congruence.
    + reflexivity.
    + destruct x as [[] [] [] [] [] [] [] []]; try reflexivity. congruence.
  - cbn [map]. 
    transitivity (str ["."%char]); [|transitivity (toLowerCase (str ["."%char]))].
    + destruct (lowerAscii x) as [[] [] [] [] [] [] [] []]; reflexivity.
    + reflexivity.
    + destruct x as [[] [] [] [] [] [] [] []]; reflexivity.
Qed.

(** A name and its all-lowercase form have the same extension up to case. *)
Lemma lowercase_twin s :
  toLowerCase (extname s) = toLowerCase (extname (toLowerCase s)).
Proof.
  rewrite extname_toLowerCase.
  induction (extname s) as [|c x IH]; simpl; [reflexivity|].
  now rewrite lowerAscii_idem, <- IH.
Qed.

(** ** Sorting permutes *)

Lemma insertSorted_perm cmp r l : Permutation (insertSorted cmp r l) (r :: l).
Proof.
  induction l as [|x l IH]; simpl; [reflexivity | ].
  destruct (cmp (name r) (name x) <=? 0)%Z; [reflexivity | ].
  rewrite IH. apply perm_swap.
Qed.

Lemma sortByName_perm cmp l : Permutation (sortByName cmp l) l.
Proof.
  induction l as [|x l IH]; simpl; [reflexivity | ].
  rewrite insertSorted_perm. now constructor.
Qed.

Lemma filter_perm {A} (f : A -> bool) (l l' : list A) :
  Permutation l l' -> Permutation (filter f l) (filter f l').
Proof.
  induction 1; simpl.
  - constructor.
  - destruct (f x); [now constructor | assumption].
  - destruct (f x), (f y); try reflexivity; try (now constructor); apply perm_swap.
  - etransitivity; eassumption.
Qed.

(** ** Awaited results *)

Lemma bind_Done {A B} (m : Outcome A) (k : A -> Outcome B) (b : B) :
  (x <- m ;; k x) = Done b -> exists a, m = Done a /\ k a = Done b.
Proof. destruct m as [a|]; simpl; intros H; [eauto | discriminate]. Qed.

(** [H : collect f (x :: rest) = Done roms], taken apart: what [x] adds,
    what the rest adds. *)
Ltac uncollect H a Ha b Hb :=
  simpl in H;
  apply bind_Done in H as (a & Ha & H);
  apply bind_Done in H as (b & Hb & H).

(** ** The walk as what each entry adds *)

Lemma forEntries_collect recurse fs dir :
  (forall p r, recurse p r = (a <- recurse p [] ;; Done (r ++ a))) ->
  forall entries roms,
    forEntries recurse fs dir entries roms =
    (a <- collect (entryAdds (fun p => recurse p []) fs dir) entries ;; Done (roms ++ a)).
Proof.
  intros Hrec. induction entries as [|e rest IH]; intros roms; simpl.
  - now rewrite app_nil_r.
  - unfold entryAdds, fileAdds.
    destruct (startsWith e ".").
    { rewrite IH. simpl. destruct (collect _ rest); reflexivity. }
    destruct (statSync fs (join dir e)) as [[| |]|].
    + rewrite Hrec. destruct (recurse (join dir e) []) as [a|]; simpl; [|reflexivity].
      rewrite IH. destruct (collect _ rest) as [b|]; simpl; [|reflexivity].
      now rewrite app_assoc.
    + destruct (String.eqb (toLowerCase (extname e)) ".zip").
      * destruct (_scanZip fs (join dir e)) as [a|]; simpl; [|reflexivity].
        rewrite IH. destruct (collect _ rest) as [b|]; simpl; [|reflexivity].
        now rewrite app_assoc.
      * destruct (ROM_EXTENSIONS_has (toLowerCase (extname e))); simpl.
        -- rewrite IH. destruct (collect _ rest) as [b|]; simpl; [|reflexivity].
           now rewrite <- app_assoc.
        -- rewrite IH. destruct (collect _ rest); reflexivity.
    + rewrite IH. simpl. destruct (collect _ rest); reflexivity.
    + rewrite IH. simpl. destruct (collect _ rest); reflexivity.
Qed.

(** The accumulator is only ever appended to. *)
Lemma scanDir_acc fs fuel : forall dir roms depth,
  _scanDir fuel fs dir roms depth =
  (a <- _scanDir fuel fs dir [] depth ;; Done (roms ++ a)).
Proof.
  induction fuel as [|fuel IH]; intros dir roms depth; simpl.
  - now rewrite app_nil_r.
  - destruct (depth >? 3)%Z; [simpl; now rewrite app_nil_r|].
    destruct (readdirSync fs dir) as [entries|]; [|simpl; now rewrite app_nil_r].
    rewrite !(forEntries_collect _ fs dir (fun p r => IH p r (depth + 1)%Z)).
    destruct (collect _ entries); reflexivity.
Qed.

Lemma scanDir_unfold fs fuel dir depth :
  _scanDir (S fuel) fs dir [] depth =
  if (depth >? 3)%Z then Done []
  else match readdirSync fs dir with
       | None => Done []
       | Some entries =>
           collect (entryAdds (fun p => _scanDir fuel fs p [] (depth + 1)) fs dir) entries
       end.
Proof.
  simpl. destruct (depth >? 3)%Z; [reflexivity|].
  destruct (readdirSync fs dir) as [entries|]; [|reflexivity].
  rewrite (forEntries_collect _ fs dir (fun p r => scanDir_acc fs fuel p r (depth + 1)%Z)).
  destruct (collect _ entries); reflexivity.
Qed.

Lemma collect_ext f g entries :
  (forall e, In e entries -> f e = g e) -> collect f entries = collect g entries.
Proof.
  induction entries as [|e rest IH]; intros H; simpl; [reflexivity|].
  rewrite (H e (or_introl eq_refl)), IH; [reflexivity|].
  intros e' He'. apply H. now right.
Qed.

Lemma entryAdds_ext f g fs dir e :
  f (join dir e) = g (join dir e) -> entryAdds f fs dir e = entryAdds g fs dir e.
Proof.
  intros H. unfold entryAdds. destruct (startsWith e "."); [reflexivity|].
  destruct (statSync fs (join dir e)) as [[| |]|]; auto.
Qed.

(** The fuel of [scanDirFrom] is enough: more changes nothing, so it is
    the depth guard that ends the descent. *)
Lemma scanDir_fuel fs : forall fuel fuel' dir depth,
  (5 - depth <= Z.of_nat fuel)%Z -> (5 - depth <= Z.of_nat fuel')%Z ->
  _scanDir fuel fs dir [] depth = _scanDir fuel' fs dir [] depth.
Proof.
  induction fuel as [|fuel IH]; intros [|fuel'] dir depth H H'.
  - reflexivity.
  - rewrite scanDir_unfold. simpl.
    destruct (Z.gtb_spec depth 3); [reflexivity | lia].
  - rewrite scanDir_unfold. simpl.
    destruct (Z.gtb_spec depth 3); [reflexivity | lia].
  - rewrite !scanDir_unfold.
    destruct (depth >? 3)%Z; [reflexivity|].
    destruct (readdirSync fs dir) as [entries|]; [|reflexivity].
    apply collect_ext. intros e _. apply entryAdds_ext. apply IH; lia.
Qed.

(** ** Archives that list to their end *)

Lemma scanZip_returns fs p :
  archivesEnd fs -> exists roms, _scanZip fs p = Done roms.
Proof.
  intros H. unfold _scanZip. specialize (H p).
  destruct (zipOpen fs p) as [|members [|]]; eauto.
  exfalso. now apply (H members).
Qed.

Lemma collect_returns f entries :
  (forall e, exists a, f e = Done a) -> exists roms, collect f entries = Done roms.
Proof.
  intros H. induction entries as [|e rest [b IH]]; simpl; [eauto|].
  destruct (H e) as [a ->]. rewrite IH. simpl. eauto.
Qed.

Lemma scanDir_returns fs :
  archivesEnd fs ->
  forall fuel dir depth, exists roms, _scanDir fuel fs dir [] depth = Done roms.
Proof.
  intros H. induction fuel as [|fuel IH]; intros dir depth.
  - simpl. eauto.
  - rewrite scanDir_unfold.
    destruct (depth >? 3)%Z; [eauto|].
    destruct (readdirSync fs dir) as [entries|]; [|eauto].
    apply collect_returns. intros e. unfold entryAdds, fileAdds.
    destruct (startsWith e "."); [eauto|].
    destruct (statSync fs (join dir e)) as [[| |]|]; eauto.
    destruct (String.eqb _ ".zip"); [now apply scanZip_returns|].
    destruct (ROM_EXTENSIONS_has _); eauto.
Qed.

Lemma scan_returns cmp fs root :
  archivesEnd fs -> exists roms, scan cmp fs root = Done roms.
Proof.
  intros H. unfold scan, scanDirFrom.
  destruct (scanDir_returns fs H (Z.to_nat (5 - 0)) root 0%Z) as [roms ->].
  simpl. eauto.
Qed.

(** ** Where an entry comes from *)

Lemma Listed_path fs dir comps p :
  Listed fs dir comps p ->
  p = fold_left join comps dir /\ Forall visible comps /\ comps <> [].
Proof.
  induction 1 as [dir entries e Hd He Hv | dir entries d comps p Hd Hin Hv Hs HL [IH1 [IH2 IH3]]].
  - repeat split; [now repeat constructor | discriminate].
  - repeat split; [exact IH1 | now constructor | discriminate].
Qed.

Lemma Listed_under fs dir comps p :
  Listed fs dir comps p ->
  exists entries c t,
    readdirSync fs dir = Some entries /\ In c entries /\ hd "" comps = c /\
    p = (join dir c ++ t)%string /\ tailOk t.
Proof.
  induction 1 as [dir entries e Hd He Hv | dir entries d comps p Hd Hin Hv Hs HL IH].
  - exists entries, e, "". rewrite append_nil_r. repeat split; auto. now left.
  - destruct IH as (es' & c & t & _ & _ & _ & -> & Ht).
    exists entries, d, (String "/" (c ++ t)).
    repeat split; auto.
    + apply join_join_tail.
    + right. eauto.
Qed.

Lemma collect_In f entries roms r :
  collect f entries = Done roms -> In r roms ->
  exists e a, In e entries /\ f e = Done a /\ In r a.
Proof.
  revert roms. induction entries as [|e rest IH]; intros roms H Hr; simpl in H.
  - injection H as <-. destruct Hr.
  - uncollect H a Ha b Hb. injection H as <-.
    apply in_app_or in Hr as [Hr|Hr].
    + exists e, a. auto with datatypes.
    + destruct (IH b Hb Hr) as (e' & a' & He' & Ha' & Hr').
      exists e', a'. auto with datatypes.
Qed.

Lemma onEntry_path zipPath zipName m r :
  In r (onEntry zipPath zipName m) -> path r = zipPath.
Proof.
  unfold onEntry.
  destruct (ROM_EXTENSIONS_has _ && negb _); simpl; [|tauto].
  intros [<-|[]]. reflexivity.
Qed.

Lemma scanZip_In fs p roms r :
  _scanZip fs p = Done roms -> In r roms ->
  path r = p /\
  exists members m,
    zipOpen fs p = Entries members true /\ In m members /\
    In r (onEntry p (basename p (extname p)) m).
Proof.
  unfold _scanZip. intros H Hr.
  destruct (zipOpen fs p) as [|members [|]]; try discriminate.
  - injection H as <-. destruct Hr.
  - injection H as <-. apply in_flat_map in Hr as (m & Hm & Hr).
    split; [now apply (onEntry_path p (basename p (extname p)) m)|]. exists members, m. auto.
Qed.

Lemma scanDir_sound fs : forall fuel dir depth roms r,
  (0 <= depth)%Z ->
  _scanDir fuel fs dir [] depth = Done roms -> In r roms -> Origin fs dir depth r.
Proof.
  induction fuel as [|fuel IH]; intros dir depth roms r Hd H Hr.
  - simpl in H. injection H as <-. destruct Hr.
  - rewrite scanDir_unfold in H.
    destruct (Z.gtb_spec depth 3) as [Hgt|Hle].
    { injection H as <-. destruct Hr. }
    destruct (readdirSync fs dir) as [entries|] eqn:Hdir.
    2:{ injection H as <-. destruct Hr. }
    destruct (collect_In _ _ _ _ H Hr) as (e & a & He & Ha & Hra).
    unfold entryAdds in Ha.
    destruct (startsWith e ".") eqn:Hvis.
    { injection Ha as <-. destruct Hra. }
    destruct (statSync fs (join dir e)) as [[| |]|] eqn:Hstat.
    + assert (0 <= depth + 1)%Z as Hd' by lia.
      destruct (IH _ _ _ _ Hd' Ha Hra) as (comps & HL & Hlen & Hfile & Hkind).
      exists (e :: comps). repeat split.
      * now apply (Listed_below fs dir entries e comps).
      * simpl List.length. lia.
      * exact Hfile.
      * assert (lastName (e :: comps) = lastName comps) as ->; [|exact Hkind].
        unfold lastName. destruct comps; [|reflexivity].
        now apply Listed_path in HL.
    + unfold fileAdds in Ha.
      destruct (String.eqb (toLowerCase (extname e)) ".zip") eqn:Hzip.
      * destruct (scanZip_In _ _ _ _ Ha Hra) as (Hp & members & m & Hopen & Hm & Hin).
        exists [e]. rewrite Hp. repeat split.
        -- now apply (Listed_here fs dir entries e).
        -- simpl. lia.
        -- exact Hstat.
        -- right. simpl. split; [exact Hzip|]. exists members, m. auto.
      * destruct (ROM_EXTENSIONS_has (toLowerCase (extname e))) eqn:Hrom.
        2:{ injection Ha as <-. destruct Hra. }
        injection Ha as <-. destruct Hra as [<-|[]].
        exists [e]. simpl. repeat split.
        -- now apply (Listed_here fs dir entries e).
        -- lia.
        -- exact Hstat.
        -- left. auto.
    + injection Ha as <-. destruct Hra.
    + injection Ha as <-. destruct Hra.
Qed.

(** ** Exactly the entries of one file *)

Lemma entriesAt_none p roms :
  (forall r, In r roms -> path r <> p) -> entriesAt p roms = [].
Proof.
  induction roms as [|x roms IH]; intros H; simpl; [reflexivity|].
  destruct (String.eqb_spec (path x) p) as [E|_].
  - exfalso. apply (H x); [now left | exact E].
  - apply IH. intros r Hr. apply H. now right.
Qed.

Lemma entriesAt_all p roms :
  (forall r, In r roms -> path r = p) -> entriesAt p roms = roms.
Proof.
  induction roms as [|x roms IH]; intros H; simpl; [reflexivity|].
  rewrite (H x (or_introl eq_refl)), String.eqb_refl. f_equal.
  apply IH. intros r Hr. apply H. now right.
Qed.

Lemma entriesAt_app p a b : entriesAt p (a ++ b) = entriesAt p a ++ entriesAt p b.
Proof. apply filter_app. Qed.

Lemma collect_each f entries roms e :
  collect f entries = Done roms -> In e entries -> exists a, f e = Done a.
Proof.
  revert roms. induction entries as [|x rest IH]; intros roms H He; [destruct He|].
  uncollect H a Ha b Hb.
  destruct He as [->|He]; eauto.
Qed.

Lemma collect_none f p entries roms :
  (forall e a, In e entries -> f e = Done a -> entriesAt p a = []) ->
  collect f entries = Done roms -> entriesAt p roms = [].
Proof.
  revert roms. induction entries as [|x rest IH]; intros roms Hnone H; simpl in H.
  - now injection H as <-.
  - uncollect H a Ha b Hb. injection H as <-.
    rewrite entriesAt_app, (Hnone x a (or_introl eq_refl) Ha), (IH b); auto.
    intros e a' He. apply Hnone. now right.
Qed.

Lemma collect_at f p entries roms e adds :
  NoDup entries -> In e entries ->
  (forall e' a, In e' entries -> e' <> e -> f e' = Done a -> entriesAt p a = []) ->
  collect f entries = Done roms -> f e = Done adds ->
  entriesAt p roms = entriesAt p adds.
Proof.
  revert roms. induction entries as [|x rest IH]; intros roms Hnd He Hother H Hadds.
  - destruct He.
  - uncollect H a Ha b Hb. injection H as <-.
    inversion Hnd as [|? ? Hx Hnd']; subst.
    rewrite entriesAt_app. destruct He as [->|He].
    + rewrite Hadds in Ha. injection Ha as <-.
      rewrite (collect_none f p rest b); [now rewrite app_nil_r | | exact Hb].
      intros e' a' He' Ha'. apply (Hother e' a'); [now right | | exact Ha'].
      intros ->. contradiction.
    + assert (x <> e) as Hxe by (intros ->; contradiction).
      rewrite (Hother x a (or_introl eq_refl) Hxe Ha). simpl.
      apply IH; auto.
      intros e' a' He' Hne. apply Hother; [now right | exact Hne].
Qed.

Lemma fileAdds_path fs p e adds r :
  fileAdds fs p e = Done adds -> In r adds -> path r = p.
Proof.
  unfold fileAdds. intros H Hr.
  destruct (String.eqb _ ".zip").
  - now destruct (scanZip_In _ _ _ _ H Hr).
  - destruct (ROM_EXTENSIONS_has _); injection H as <-; [|destruct Hr].
    destruct Hr as [<-|[]]. reflexivity.
Qed.

(** Whatever the iteration for [e] adds lies at [dir/e] or below it. *)
Lemma entryAdds_under fs fuel dir depth e a r :
  (0 <= depth)%Z ->
  entryAdds (fun p => _scanDir fuel fs p [] (depth + 1)) fs dir e = Done a ->
  In r a -> exists t, path r = (join dir e ++ t)%string /\ tailOk t.
Proof.
  intros Hd Ha Hr. unfold entryAdds in Ha.
  destruct (startsWith e "."); [injection Ha as <-; destruct Hr|].
  destruct (statSync fs (join dir e)) as [[| |]|];
    try (injection Ha as <-; destruct Hr).
  - assert (0 <= depth + 1)%Z as Hd' by lia.
    destruct (scanDir_sound fs _ _ _ _ _ Hd' Ha Hr) as (comps & HL & _).
    destruct (Listed_under _ _ _ _ HL) as (es & c & t & _ & _ & _ & Hp & Ht).
    exists (String "/" (c ++ t)). split; [|right; eauto].
    rewrite Hp. apply join_join_tail.
  - exists "". rewrite append_nil_r. split; [|now left].
    now apply (fileAdds_path fs (join dir e) e a).
Qed.

Lemma lastName_cons c comps : comps <> [] -> lastName (c :: comps) = lastName comps.
Proof. unfold lastName. destruct comps; [congruence | reflexivity]. Qed.

(** A regular file reached within the depth limit contributes, to the
    result of the walk, exactly what its own iteration adds. *)
Lemma scanDir_exact fs :
  plainListings fs ->
  forall dir comps p, Listed fs dir comps p -> statSync fs p = Some IsFile ->
  forall fuel depth roms adds,
    (0 <= depth)%Z -> (depth + Z.of_nat (List.length comps) <= 4)%Z ->
    (5 - depth <= Z.of_nat fuel)%Z ->
    _scanDir fuel fs dir [] depth = Done roms ->
    fileAdds fs p (lastName comps) = Done adds ->
    entriesAt p roms = adds.
Proof.
  intros Hwf dir comps p HL.
  induction HL as [dir entries e Hdir He Hv | dir entries d comps p Hdir Hin Hv Hs HL IH];
    intros Hfile fuel depth roms adds Hd Hlen Hfuel H Hadds;
    (destruct fuel as [|fuel]; [simpl in Hlen; lia|]);
    rewrite scanDir_unfold in H;
    (destruct (Z.gtb_spec depth 3) as [Hgt|_]; [simpl in Hlen; lia|]);
    rewrite Hdir in H; destruct (Hwf _ _ Hdir) as [Hnd Hns];
    rewrite Forall_forall in Hns.
  - set (f := entryAdds (fun q => _scanDir fuel fs q [] (depth + 1)) fs dir) in *.
    assert (entriesAt (join dir e) roms = entriesAt (join dir e) adds) as ->.
    { apply (collect_at f (join dir e) entries roms e adds Hnd He); [ | exact H | ].
      - intros e' a He' Hne Ha. apply entriesAt_none. intros r Hr Heq.
        destruct (entryAdds_under _ _ _ _ _ _ _ Hd Ha Hr) as (t & Hp & Ht).
        apply Hne. rewrite Heq in Hp.
        apply (join_tail_inj dir e' e t ""); auto; [now left|].
        now rewrite append_nil_r.
      - unfold f, entryAdds. unfold visible in Hv. rewrite Hv, Hfile. exact Hadds. }
    apply entriesAt_all. intros r. now apply (fileAdds_path fs (join dir e) e).
  - set (f := entryAdds (fun q => _scanDir fuel fs q [] (depth + 1)) fs dir) in *.
    destruct (collect_each f _ _ d H Hin) as [sub Hsub].
    assert (comps <> []) as Hne by (now apply Listed_path in HL).
    rewrite lastName_cons in Hadds by exact Hne.
    assert (entriesAt p roms = entriesAt p sub) as ->.
    { apply (collect_at f p entries roms d sub Hnd Hin); [ | exact H | exact Hsub].
      intros e' a He' Hne' Ha. apply entriesAt_none. intros r Hr Heq.
      destruct (entryAdds_under _ _ _ _ _ _ _ Hd Ha Hr) as (t & Hp & Ht).
      destruct (Listed_under _ _ _ _ HL) as (es & c & t' & _ & _ & _ & Hp' & Ht').
      apply Hne'. rewrite Heq, Hp', join_join_tail in Hp.
      apply (join_tail_inj dir e' d t (String "/" (c ++ t'))); auto.
      right. eauto. }
    unfold f, entryAdds in Hsub. unfold visible in Hv. rewrite Hv, Hs in Hsub.
    apply (IH Hfile fuel (depth + 1)%Z sub adds); auto; try lia.
    simpl List.length in Hlen. lia.
Qed.

(** ** Hidden entries (C3) *)

Lemma onEntry_kept zipPath zipName m r :
  In r (onEntry zipPath zipName m) ->
  zipEntry r = Some m /\ path r = zipPath /\
  ROM_EXTENSIONS_has (toLowerCase (extname m)) = true /\
  startsWith m "__MACOSX" = false.
Proof.
  unfold onEntry.
  destruct (ROM_EXTENSIONS_has _) eqn:Hrom; simpl; [|tauto].
  destruct (startsWith m "__MACOSX") eqn:Hmac; simpl; [tauto|].
  intros [<-|[]]. auto.
Qed.

Lemma onEntry_row zipPath zipName m :
  (kept m = true ->
     exists r,
       onEntry zipPath zipName m = [r] /\
       path r = zipPath /\ zipEntry r = Some m /\
       ext r = toLowerCase (extname m) /\
       system r = systemOf (toLowerCase (extname m)) /\
       (extname m = toLowerCase (extname m) ->
        name r = displayName zipName (basename m (extname m)))) /\
  (kept m = false -> onEntry zipPath zipName m = []).
Proof.
  unfold kept, onEntry.
  destruct (ROM_EXTENSIONS_has _ && negb _); split; intros H; try discriminate.
  - eexists. split; [reflexivity|]. repeat split.
    intros Hlow. simpl. unfold displayName, genericName. now rewrite <- Hlow.
  - reflexivity.
Qed.

Lemma scanZip_rows fs zipPath members :
  zipOpen fs zipPath = Entries members true ->
  _scanZip fs zipPath =
    Done (flat_map (onEntry zipPath (basename zipPath (extname zipPath))) members).
Proof. unfold _scanZip. intros ->. reflexivity. Qed.

Lemma collect_incl f entries roms e a :
  collect f entries = Done roms -> In e entries -> f e = Done a -> incl a roms.
Proof.
  revert roms. induction entries as [|x rest IH]; intros roms H He Ha; [destruct He|].
  uncollect H a0 Ha0 b Hb. injection H as <-.
  destruct He as [->|He].
  - rewrite Ha in Ha0. injection Ha0 as <-. now apply incl_appl, incl_refl.
  - apply incl_appr. now apply IH.
Qed.

(** A regular file reached within the depth limit: what its iteration
    adds is in the result of the walk. *)
Lemma scanDir_complete fs dir comps p :
  Listed fs dir comps p -> statSync fs p = Some IsFile ->
  forall fuel depth roms adds,
    (0 <= depth)%Z -> (depth + Z.of_nat (List.length comps) <= 4)%Z ->
    (5 - depth <= Z.of_nat fuel)%Z ->
    _scanDir fuel fs dir [] depth = Done roms ->
    fileAdds fs p (lastName comps) = Done adds ->
    incl adds roms.
Proof.
  induction 1 as [dir entries e Hdir He Hv | dir entries d comps p Hdir Hin Hv Hs HL IH];
    intros Hfile fuel depth roms adds Hd Hlen Hfuel H Hadds;
    (destruct fuel as [|fuel]; [simpl in Hlen; lia|]);
    rewrite scanDir_unfold in H;
    (destruct (Z.gtb_spec depth 3) as [Hgt|_]; [simpl in Hlen; lia|]);
    rewrite Hdir in H.
  - apply (collect_incl _ _ _ e adds H He).
    unfold entryAdds. unfold visible in Hv. rewrite Hv, Hfile. exact Hadds.
  - destruct (collect_each _ _ _ d H Hin) as [sub Hsub].
    apply (incl_tran (m := sub)); [|exact (collect_incl _ _ _ d sub H Hin Hsub)].
    assert (comps <> []) as Hne by (now apply Listed_path in HL).
    rewrite lastName_cons in Hadds by exact Hne.
    unfold entryAdds in Hsub. unfold visible in Hv. rewrite Hv, Hs in Hsub.
    apply (IH Hfile fuel (depth + 1)%Z sub adds); auto; try lia.
    simpl List.length in Hlen. lia.
Qed.

Lemma Listed_noSlash fs dir comps p :
  plainListings fs -> Listed fs dir comps p -> Forall (fun c => noSlash c = true) comps.
Proof.
  intros Hwf. induction 1 as [dir entries e Hdir He Hv | dir entries d comps p Hdir Hin Hv Hs HL IH];
    destruct (Hwf _ _ Hdir) as [_ Hns]; rewrite Forall_forall in Hns.
  - constructor; [now apply Hns | constructor].
  - constructor; [now apply Hns | exact IH].
Qed.

(** C3, as stated, fails on archives: the member [.secret.nes] of
    [pack.zip], whose base name begins with a dot, is cataloged. *)
Lemma hidden_member_is_cataloged :
  scan compareNames hiddenMemberDisk "/roms" =
    Done [ {| name := ".secret"; path := "/roms/pack.zip";
              zipEntry := Some ".secret.nes"; ext := ".nes"; system := "NES" |} ]
  /\ startsWith (basename ".secret.nes" "") "." = true.
Proof. split; reflexivity. Qed.

(** C3, amended: for every scan that returns, each catalog entry lies at
    a path the walk reaches from the root through directory entries that
    [readdirSync] lists, one in the directory named by those before it,
    none of which begins with a dot (on a disk with plain listings none
    holds a separator either, so these are the names of the files and
    directories above the entry); so no entry derives from a hidden file
    or directory. Archive members are not filtered by a leading dot: the
    catalog has an entry for every member with a recognized extension
    whose inner name does not start with [__MACOSX], whatever its base
    name begins with, of every archive that lists to its end and is a
    regular file reached within four names below the root; and an entry
    of a member only stands for a member of that kind. *)
Theorem hidden_directory_entries_excluded cmp fs root roms :
  scan cmp fs root = Done roms ->
  (forall r, In r roms ->
     exists comps,
       Listed fs root comps (path r) /\
       path r = fold_left join comps root /\
       Forall (fun c => startsWith c "." = false) comps /\
       (plainListings fs -> Forall (fun c => noSlash c = true) comps)) /\
  (forall r m, In r roms -> zipEntry r = Some m ->
     ROM_EXTENSIONS_has (toLowerCase (extname m)) = true /\
     startsWith m "__MACOSX" = false) /\
  (forall comps zipPath members m,
     Listed fs root comps zipPath -> (List.length comps <= 4)%nat ->
     statSync fs zipPath = Some IsFile ->
     toLowerCase (extname (lastName comps)) = ".zip" ->
     zipOpen fs zipPath = Entries members true ->
     In m members ->
     ROM_EXTENSIONS_has (toLowerCase (extname m)) = true ->
     startsWith m "__MACOSX" = false ->
     exists r, In r roms /\ path r = zipPath /\ zipEntry r = Some m).
Proof.
  unfold scan, scanDirFrom. intros H.
  apply bind_Done in H as (found & Hfound & H). injection H as <-.
  split; [|split].
  - intros r Hr.
    apply (Permutation_in _ (sortByName_perm cmp found)) in Hr.
    destruct (scanDir_sound fs _ _ _ _ r (Z.le_refl 0) Hfound Hr) as (comps & HL & _).
    destruct (Listed_path _ _ _ _ HL) as (Hp & Hv & _).
    exists comps. repeat split; auto.
    intros Hwf. now apply (Listed_noSlash fs root comps (path r)).
  - intros r m Hr Hm.
    apply (Permutation_in _ (sortByName_perm cmp found)) in Hr.
    destruct (scanDir_sound fs _ _ _ _ r (Z.le_refl 0) Hfound Hr)
      as (comps & _ & _ & _ & Hkind).
    destruct Hkind as [(_ & _ & Hr') | (_ & members & m' & _ & _ & Hin)].
    + rewrite Hr' in Hm. discriminate.
    + destruct (onEntry_kept _ _ _ _ Hin) as (Hz & _ & Hrom & Hmac).
      rewrite Hz in Hm. injection Hm as <-. auto.
  - intros comps zipPath members m HL Hlen Hfile Hzip Hopen Hm Hrom Hmac.
    assert (kept m = true) as Hkept by (unfold kept; now rewrite Hrom, Hmac).
    destruct (proj1 (onEntry_row zipPath (basename zipPath (extname zipPath)) m) Hkept)
      as (r & Hrow & Hp & Hz & _).
    exists r. split; [|split; assumption].
    apply (Permutation_in _ (Permutation_sym (sortByName_perm cmp found))).
    apply (scanDir_complete fs root comps zipPath HL Hfile (Z.to_nat (5 - 0)) 0%Z found
             (flat_map (onEntry zipPath (basename zipPath (extname zipPath))) members));
      try lia; auto.
    + unfold fileAdds. rewrite Hzip. simpl. now apply scanZip_rows.
    + apply in_flat_map. exists m. split; [exact Hm|]. rewrite Hrow. now left.
Qed.

Lemma hidden_directory_entries_excluded_witness :
  (forall r, In r hiddenEntriesCatalog ->
     exists comps,
       Listed hiddenEntriesDisk "/roms" comps (path r) /\
       path r = fold_left join comps "/roms" /\
       Forall (fun c => startsWith c "." = false) comps /\
       (plainListings hiddenEntriesDisk -> Forall (fun c => noSlash c = true) comps)) /\
  (forall r m, In r hiddenEntriesCatalog -> zipEntry r = Some m ->
     ROM_EXTENSIONS_has (toLowerCase (extname m)) = true /\
     startsWith m "__MACOSX" = false) /\
  (forall comps zipPath members m,
     Listed hiddenEntriesDisk "/roms" comps zipPath -> (List.length comps <= 4)%nat ->
     statSync hiddenEntriesDisk zipPath = Some IsFile ->
     toLowerCase (extname (lastName comps)) = ".zip" ->
     zipOpen hiddenEntriesDisk zipPath = Entries members true ->
     In m members ->
     ROM_EXTENSIONS_has (toLowerCase (extname m)) = true ->
     startsWith m "__MACOSX" = false ->
     exists r, In r hiddenEntriesCatalog /\ path r = zipPath /\ zipEntry r = Some m).
Proof.
  apply (hidden_directory_entries_excluded compareNames hiddenEntriesDisk "/roms"
           hiddenEntriesCatalog).
  reflexivity.
Defined.

(** On that disk the hidden directory, the hidden ROM and the resource
    fork leave no entry; the dot member of the archive has one. *)
Lemma hidden_entries_catalog :
  scan compareNames hiddenEntriesDisk "/roms" = Done hiddenEntriesCatalog /\
  map path hiddenEntriesCatalog =
    ["/roms/pack.zip"; "/roms/pack.zip"; "/roms/sub/mario.nes"; "/roms/zelda.nes"] /\
  map zipEntry hiddenEntriesCatalog = [Some ".secret.nes"; Some "game.nes"; None; None].
Proof. repeat split; reflexivity. Qed.

(** ** Archive members (C4) *)

(** C4, as stated, fails on the resource forks of a macOS archive: the
    member [__MACOSX/._game.nes] has a recognized extension and yields no
    entry. *)
Lemma macosx_member_not_cataloged :
  ROM_EXTENSIONS_has (toLowerCase (extname "__MACOSX/._game.nes")) = true /\
  zipOpen macosxDisk "/roms/mac.zip" = Entries ["game.nes"; "__MACOSX/._game.nes"] true /\
  _scanZip macosxDisk "/roms/mac.zip" =
    Done [ {| name := "game"; path := "/roms/mac.zip"; zipEntry := Some "game.nes";
              ext := ".nes"; system := "NES" |} ] /\
  scan compareNames macosxDisk "/roms" =
    Done [ {| name := "game"; path := "/roms/mac.zip"; zipEntry := Some "game.nes";
              ext := ".nes"; system := "NES" |} ].
Proof. repeat split; reflexivity. Qed.

(** C4, amended: an archive that lists to its end yields, member by
    member and in order, exactly one entry for every member with a
    recognized ROM extension whose inner name does not start with
    [__MACOSX], and none for the others; the entry's path is the
    archive's path, its member field the inner name, its system the
    table's and, for a member whose extension is written in lower case,
    its name the member's base name or, when that is all digits or
    shorter than 3 characters, the archive's base filename. When the
    archive is a visible regular file within the depth limit of a disk
    with plain listings, those rows are exactly the entries at the
    archive's path of every catalog [scan] returns; and [scan] does
    return when no archive of the disk breaks off its listing. *)
Theorem archive_members_cataloged cmp fs root comps zipPath members :
  plainListings fs ->
  Listed fs root comps zipPath -> statSync fs zipPath = Some IsFile ->
  (List.length comps <= 4)%nat ->
  toLowerCase (extname (lastName comps)) = ".zip" ->
  zipOpen fs zipPath = Entries members true ->
  exists rowsOf : string -> list Rom,
    (forall m, kept m = true ->
       exists r,
         rowsOf m = [r] /\
         path r = zipPath /\ zipEntry r = Some m /\
         ext r = toLowerCase (extname m) /\
         system r = systemOf (toLowerCase (extname m)) /\
         (extname m = toLowerCase (extname m) ->
          name r = displayName (basename zipPath (extname zipPath))
                               (basename m (extname m)))) /\
    (forall m, kept m = false -> rowsOf m = []) /\
    _scanZip fs zipPath = Done (flat_map rowsOf members) /\
    (forall roms, scan cmp fs root = Done roms ->
       Permutation (entriesAt zipPath roms) (flat_map rowsOf members)) /\
    (archivesEnd fs -> exists roms, scan cmp fs root = Done roms).
Proof.
  intros Hwf HL Hfile Hlen Hzip Hopen.
  pose proof (scanZip_rows fs zipPath members Hopen) as Hrows.
  exists (onEntry zipPath (basename zipPath (extname zipPath))).
  split; [intros m; apply onEntry_row|].
  split; [intros m; apply onEntry_row|].
  split; [exact Hrows|].
  split; [|intros Hend; now apply scan_returns].
  intros roms H. unfold scan, scanDirFrom in H.
  apply bind_Done in H as (found & Hfound & H). injection H as <-.
  unfold entriesAt at 1. rewrite (filter_perm _ _ _ (sortByName_perm cmp found)).
  fold (entriesAt zipPath found).
  rewrite (scanDir_exact fs Hwf root comps zipPath HL Hfile (Z.to_nat (5 - 0)) 0%Z
             found (flat_map (onEntry zipPath (basename zipPath (extname zipPath))) members));
    try lia; auto.
  unfold fileAdds. rewrite Hzip. exact Hrows.
Qed.

Lemma distinct_NoDup l : distinct l = true -> NoDup l.
Proof.
  induction l as [|x l IH]; simpl; intros H; constructor;
    apply andb_prop in H as [Hx Hl]; [|now apply IH].
  intros Hin. apply negb_true_iff in Hx.
  assert (existsb (String.eqb x) l = true) as E; [|congruence].
  apply existsb_exists. exists x. split; [exact Hin | apply String.eqb_refl].
Qed.

Lemma assoc_In {A} (l : list (string * A)) k v : assoc l k = Some v -> In (k, v) l.
Proof.
  induction l as [|[k' v'] l IH]; simpl; [discriminate|].
  destruct (String.eqb_spec k' k) as [->|_]; intros H.
  - injection H as ->. now left.
  - right. now apply IH.
Qed.

Lemma disk_plain dirs stats zips :
  forallb (fun kv => distinct (snd kv) && forallb noSlash (snd kv)) dirs = true ->
  plainListings (disk dirs stats zips).
Proof.
  intros H dir entries Hd. simpl in Hd. apply assoc_In in Hd.
  rewrite forallb_forall in H. apply H in Hd. simpl in Hd.
  apply andb_prop in Hd as [H1 H2]. split; [now apply distinct_NoDup|].
  apply Forall_forall. now apply forallb_forall.
Qed.

Lemma disk_ends dirs stats zips :
  forallb (fun kv => listsToEnd (snd kv)) zips = true ->
  archivesEnd (disk dirs stats zips).
Proof.
  intros H p members Hp. simpl in Hp.
  destruct (assoc zips p) as [z|] eqn:Hz; [|discriminate]. subst z.
  apply assoc_In in Hz. rewrite forallb_forall in H. apply H in Hz. discriminate.
Qed.

Lemma archive_members_cataloged_witness :
  exists rowsOf : string -> list Rom,
    (forall m, kept m = true ->
       exists r,
         rowsOf m = [r] /\
         path r = "/roms/games.zip" /\ zipEntry r = Some m /\
         ext r = toLowerCase (extname m) /\
         system r = systemOf (toLowerCase (extname m)) /\
         (extname m = toLowerCase (extname m) ->
          name r = displayName (basename "/roms/games.zip" (extname "/roms/games.zip"))
                               (basename m (extname m)))) /\
    (forall m, kept m = false -> rowsOf m = []) /\
    _scanZip gamesDisk "/roms/games.zip" = Done (flat_map rowsOf ["1.nes"; "2.nes"]) /\
    (forall roms, scan compareNames gamesDisk "/roms" = Done roms ->
       Permutation (entriesAt "/roms/games.zip" roms) (flat_map rowsOf ["1.nes"; "2.nes"])) /\
    (archivesEnd gamesDisk -> exists roms, scan compareNames gamesDisk "/roms" = Done roms).
Proof.
  apply (archive_members_cataloged compareNames gamesDisk "/roms" ["games.zip"]
           "/roms/games.zip" ["1.nes"; "2.nes"]).
  - apply disk_plain. reflexivity.
  - apply (Listed_here gamesDisk "/roms" ["games.zip"] "games.zip");
      [reflexivity | simpl; auto | reflexivity].
  - reflexivity.
  - simpl. lia.
  - reflexivity.
  - reflexivity.
Defined.

(** The scenario of the specification: two entries named [games], both
    at [games.zip], members [1.nes] and [2.nes], both NES. *)
Lemma games_zip_scenario cmp :
  game1 = {| name := "games"; path := "/roms/games.zip"; zipEntry := Some "1.nes";
             ext := ".nes"; system := "NES" |} /\
  game2 = {| name := "games"; path := "/roms/games.zip"; zipEntry := Some "2.nes";
             ext := ".nes"; system := "NES" |} /\
  (scan cmp gamesDisk "/roms" = Done [game1; game2] \/
   scan cmp gamesDisk "/roms" = Done [game2; game1]).
Proof.
  split; [reflexivity|]. split; [reflexivity|].
  unfold scan.
  assert (scanDirFrom gamesDisk "/roms" [] 0 = Done [game1; game2]) as -> by reflexivity.
  simpl. destruct (cmp "games" "games" <=? 0)%Z; [left | right]; reflexivity.
Qed.

(** ** The depth limit (C5) *)

(** C5, as stated, fails on hidden files: [.hidden.nes] is a regular file
    with a recognized extension directly in the root, and the catalog
    has no entry for it. *)
Lemma hidden_rom_not_cataloged :
  readdirSync hiddenFileDisk "/roms" = Some [".hidden.nes"; "zelda.nes"] /\
  statSync hiddenFileDisk (join "/roms" ".hidden.nes") = Some IsFile /\
  ROM_EXTENSIONS_has (toLowerCase (extname ".hidden.nes")) = true /\
  scan compareNames hiddenFileDisk "/roms" =
    Done [ {| name := "zelda"; path := "/roms/zelda.nes"; zipEntry := None;
              ext := ".nes"; system := "NES" |} ].
Proof. repeat split; reflexivity. Qed.

Lemma rom_extension_not_zip x :
  ROM_EXTENSIONS_has x = true -> String.eqb x ".zip" = false.
Proof.
  intros H. destruct (String.eqb_spec x ".zip") as [->|_]; [|reflexivity].
  discriminate H.
Qed.

(** C5, amended: on a disk with plain listings whose archives list to
    their end, scan returns a catalog in which every regular file with a
    recognized extension that is reached from the root through at most 3
    visible directories that can be read and stat'ed, and is itself
    visible, has exactly one entry, classified by the extension table;
    and every entry lies at a chain of at most 4 listed names (3
    directories and the file) below the root. *)
Theorem scan_within_depth_limit cmp fs root :
  plainListings fs -> archivesEnd fs ->
  exists roms,
    scan cmp fs root = Done roms /\
    (forall comps p,
        Listed fs root comps p -> statSync fs p = Some IsFile ->
        (List.length comps <= 4)%nat ->
        let e := lastName comps in
        let x := toLowerCase (extname e) in
        ROM_EXTENSIONS_has x = true ->
        exists r,
          entriesAt p roms = [r] /\
          path r = p /\ zipEntry r = None /\ ext r = x /\ system r = systemOf x) /\
    (forall r, In r roms ->
        exists comps,
          Listed fs root comps (path r) /\ (List.length comps <= 4)%nat /\
          path r = fold_left join comps root).
Proof.
  intros Hwf Hend. unfold scan, scanDirFrom.
  destruct (scanDir_returns fs Hend (Z.to_nat (5 - 0)) root 0%Z) as [found Hfound].
  rewrite Hfound. simpl bind. eexists. split; [reflexivity|]. split.
  - intros comps p HL Hfile Hlen Hrom.
    set (e := lastName comps) in *. set (x := toLowerCase (extname e)) in *.
    assert (Permutation (entriesAt p (sortByName cmp found)) (entriesAt p found)) as HP
      by (apply filter_perm, sortByName_perm).
    rewrite (scanDir_exact fs Hwf root comps p HL Hfile (Z.to_nat (5 - 0)) 0%Z found
               [fileRom p e x]) in HP; try lia; auto.
    + apply Permutation_sym, Permutation_length_1_inv in HP.
      exists (fileRom p e x). rewrite HP. repeat split.
    + unfold fileAdds. fold e. fold x.
      now rewrite (rom_extension_not_zip x Hrom), Hrom.
  - intros r Hr.
    apply (Permutation_in _ (sortByName_perm cmp found)) in Hr.
    destruct (scanDir_sound fs _ _ _ _ r (Z.le_refl 0) Hfound Hr)
      as (comps & HL & Hlen & _).
    destruct (Listed_path _ _ _ _ HL) as (Hp & _ & Hne).
    exists comps. repeat split; auto. lia.
Qed.

Lemma scan_within_depth_limit_witness :
  exists roms,
    scan compareNames deepDisk "/roms" = Done roms /\
    (forall comps p,
        Listed deepDisk "/roms" comps p -> statSync deepDisk p = Some IsFile ->
        (List.length comps <= 4)%nat ->
        let e := lastName comps in
        let x := toLowerCase (extname e) in
        ROM_EXTENSIONS_has x = true ->
        exists r,
          entriesAt p roms = [r] /\
          path r = p /\ zipEntry r = None /\ ext r = x /\ system r = systemOf x) /\
    (forall r, In r roms ->
        exists comps,
          Listed deepDisk "/roms" comps (path r) /\ (List.length comps <= 4)%nat /\
          path r = fold_left join comps "/roms").
Proof.
  apply (scan_within_depth_limit compareNames deepDisk "/roms").
  - apply disk_plain. reflexivity.
  - apply disk_ends. reflexivity.
Defined.

(** The catalog of the five-level tree stops at the third level. *)
Lemma deep_tree_catalog :
  exists roms,
    scan compareNames deepDisk "/roms" = Done roms /\
    map path roms =
      ["/roms/r0.nes"; "/roms/a/r1.nes"; "/roms/a/b/r2.nes"; "/roms/a/b/c/r3.nes"].
Proof. eexists. split; reflexivity. Qed.

(** ** Failures while scanning (C6) *)

(** An unreadable directory, a failing stat and an archive that does not
    open each add nothing. *)
Lemma failures_contribute_nothing fs :
  (forall fuel dir depth,
      readdirSync fs dir = None -> _scanDir fuel fs dir [] depth = Done []) /\
  (forall recurse dir entry rest roms,
      statSync fs (join dir entry) = None ->
      forEntries recurse fs dir (entry :: rest) roms = forEntries recurse fs dir rest roms) /\
  (forall zipPath, zipOpen fs zipPath = OpenError -> _scanZip fs zipPath = Done []).
Proof.
  split; [|split].
  - intros [|fuel] dir depth H; simpl; [reflexivity|].
    rewrite H. now destruct (depth >? 3)%Z.
  - intros recurse dir entry rest roms H. simpl. rewrite H.
    now destruct (startsWith entry ".").
  - intros zipPath H. unfold _scanZip. now rewrite H.
Qed.

(** On a sample disk with the three of them, the rest is cataloged. *)
Lemma failures_are_skipped cmp :
  scan cmp failuresDisk "/roms" =
    Done [ {| name := "good"; path := "/roms/good.nes"; zipEntry := None;
              ext := ".nes"; system := "NES" |} ].
Proof. reflexivity. Qed.

Lemma collect_pending f entries e :
  In e entries -> f e = Pending -> collect f entries = Pending.
Proof.
  induction entries as [|x rest IH]; intros He Hp; [destruct He|]. simpl.
  destruct (f x) as [a|] eqn:Hx; [|reflexivity]. simpl.
  destruct He as [->|He]; [congruence|]. now rewrite IH.
Qed.

(** Any visible archive within the depth limit whose listing breaks off
    stalls the walk it is part of. *)
Lemma broken_listing_stalls fs dir comps p :
  Listed fs dir comps p -> statSync fs p = Some IsFile ->
  toLowerCase (extname (lastName comps)) = ".zip" ->
  forall members fuel depth,
    zipOpen fs p = Entries members false ->
    (0 <= depth)%Z -> (depth + Z.of_nat (List.length comps) <= 4)%Z ->
    (5 - depth <= Z.of_nat fuel)%Z ->
    _scanDir fuel fs dir [] depth = Pending.
Proof.
  induction 1 as [dir entries e Hdir He Hv | dir entries d comps p Hdir Hin Hv Hs HL IH];
    intros Hfile Hzip members fuel depth Hopen Hd Hlen Hfuel;
    (destruct fuel as [|fuel]; [simpl in Hlen; lia|]);
    rewrite scanDir_unfold;
    (destruct (Z.gtb_spec depth 3) as [Hgt|_]; [simpl in Hlen; lia|]);
    rewrite Hdir.
  - apply (collect_pending _ entries e He).
    unfold entryAdds, fileAdds. unfold visible in Hv. rewrite Hv, Hfile.
    unfold lastName in Hzip. simpl in Hzip. rewrite Hzip. simpl.
    unfold _scanZip. now rewrite Hopen.
  - apply (collect_pending _ entries d Hin).
    unfold entryAdds. unfold visible in Hv. rewrite Hv, Hs.
    assert (comps <> []) as Hne by (now apply Listed_path in HL).
    rewrite lastName_cons in Hzip by exact Hne.
    apply (IH Hfile Hzip members fuel (depth + 1)%Z Hopen); try lia.
    simpl List.length in Hlen. lia.
Qed.

(** C6 fails on an archive that opens and then reports a read error: the
    listing promise of [_scanZip] has no way to reject, the [catch] is
    never reached, and the scan of the whole tree never returns, although
    [good.nes] lies next to the archive. *)
Theorem broken_archive_stalls_scan cmp :
  zipOpen brokenArchiveDisk "/roms/bad.zip" = Entries ["a.nes"] false /\
  _scanZip brokenArchiveDisk "/roms/bad.zip" = Pending /\
  scan cmp brokenArchiveDisk "/roms" = Pending.
Proof. repeat split; reflexivity. Qed.

(** ** Case of the extension (C9) *)

Lemma recognized_is_listed x :
  ROM_EXTENSIONS_has x = true -> In x ROM_EXTENSIONS.
Proof.
  unfold ROM_EXTENSIONS_has. intros H. apply existsb_exists in H as (y & Hy & E).
  apply String.eqb_eq in E. now subst.
Qed.

Lemma recognized_has_system x :
  ROM_EXTENSIONS_has x = true ->
  In (x, systemOf x) SYSTEM_NAMES /\ systemOf x <> "Unknown" /\
  systemOf x <> "Archive" /\ toLowerCase x = x.
Proof.
  intros H. apply recognized_is_listed in H. unfold ROM_EXTENSIONS in H.
  repeat (destruct H as [<-|H];
          [repeat split; try discriminate; vm_compute; tauto|]).
  destruct H.
Qed.






(** The upper-case file and the upper-case member, run: both are
    cataloged as NES, like their lower-case twins. *)
Lemma upper_case_entries :
  map classOf (onEntry "/roms/pack.zip" "pack" "MARIO.NES") = [(".nes", "NES")] /\
  map classOf (onEntry "/roms/pack.zip" "pack" "mario.nes") = [(".nes", "NES")] /\
  (exists a, scanDirFrom upperCaseDisk "/roms" [] 0 = Done a /\
             map classOf a = [(".nes", "NES")]).
Proof. split; [reflexivity|]. split; [reflexivity|]. eexists. split; reflexivity. Qed.

(** The upper-case ROM is cataloged as its lower-case twin would be,
    under the name its case leaves it with. *)
Lemma upper_case_rom_cataloged cmp :
  scan cmp upperCaseDisk "/roms" =
    Done [ {| name := "MARIO.NES"; path := "/roms/MARIO.NES"; zipEntry := None;
              ext := ".nes"; system := "NES" |} ].
Proof. reflexivity. Qed.

(** ** The recent list (C8) *)

Lemma filter_isNot_remove p l : filter (isNot p) l = remove string_dec p l.
Proof.
  induction l as [|x l IH]; simpl; [reflexivity|]. unfold isNot at 1.
  destruct (string_dec p x) as [->|Hne].
  - now rewrite String.eqb_refl.
  - destruct (String.eqb_spec x p) as [->|_]; [congruence|]. simpl. now rewrite IH.
Qed.

Lemma filter_isNot_absent p l : ~ In p l -> filter (isNot p) l = l.
Proof.
  induction l as [|x l IH]; simpl; intros H; [reflexivity|]. unfold isNot at 1.
  destruct (String.eqb_spec x p) as [->|_]; [exfalso; auto|].
  simpl. f_equal. apply IH. auto.
Qed.

Lemma filter_isNot_length p l :
  NoDup l -> In p l -> S (List.length (filter (isNot p) l)) = List.length l.
Proof.
  induction l as [|x l IH]; simpl; intros Hnd Hin; [destruct Hin|].
  inversion Hnd as [|? ? Hx Hnd']; subst. unfold isNot at 1.
  destruct (String.eqb_spec x p) as [->|Hne]; simpl.
  - now rewrite filter_isNot_absent.
  - destruct Hin as [->|Hin]; [congruence|]. f_equal. now apply IH.
Qed.

Lemma filter_NoDup {A} (f : A -> bool) l : NoDup l -> NoDup (filter f l).
Proof.
  induction 1 as [|x l Hx Hnd IH]; simpl; [constructor|].
  destruct (f x); [|exact IH]. constructor; [|exact IH].
  intros Hin. apply filter_In in Hin. tauto.
Qed.

(** C8: with a cap that is a length, [addRecentGame(p)] leaves the list
    [p] followed by the previous entries with every occurrence of [p]
    removed, cut to the first [maxRecent] elements, and touches nothing
    else; on a recent list (no duplicates, within the cap) that already
    holds [p], [p] moves to the front, nothing is duplicated and the
    length is unchanged. *)
Theorem addRecentGame_moves_to_front (c : Config) (p : string) :
  (0 <= maxRecent c)%Z ->
  let recent := recentGames c in
  let recent' := recentGames (addRecentGame p c) in
  recent' = firstn (Z.to_nat (maxRecent c)) (p :: remove string_dec p recent) /\
  (List.length recent' <= Z.to_nat (maxRecent c))%nat /\
  addRecentGame p c = setRecentGames c recent' /\
  (NoDup recent -> (List.length recent <= Z.to_nat (maxRecent c))%nat ->
   In p recent ->
   recent' = p :: remove string_dec p recent /\
   NoDup recent' /\
   List.length recent' = List.length recent).
Proof.
  intros Hcap recent recent'.
  assert (recent' = firstn (Z.to_nat (maxRecent c)) (p :: remove string_dec p recent)) as E.
  { unfold recent', addRecentGame, slice0. simpl recentGames.
    destruct (Z.ltb_spec (maxRecent c) 0) as [Hneg|_]; [lia|].
    fold (isNot p). now rewrite filter_isNot_remove. }
  split; [exact E|]. split; [rewrite E; apply firstn_le_length|].
  split; [reflexivity|].
  intros Hnd Hlen Hin.
  assert (S (List.length (remove string_dec p recent)) = List.length recent) as Hl.
  { rewrite <- filter_isNot_remove. now apply filter_isNot_length. }
  assert (recent' = p :: remove string_dec p recent) as E'.
  { rewrite E. apply firstn_all2. simpl List.length. lia. }
  split; [exact E'|]. rewrite E'. split.
  - constructor; [apply remove_In|].
    rewrite <- filter_isNot_remove. now apply filter_NoDup.
  - simpl. exact Hl.
Qed.

Lemma addRecentGame_moves_to_front_witness :
  recentGames (addRecentGame "B" threeRecent) = ["B"; "A"; "C"] /\
  (0 <= maxRecent threeRecent)%Z /\
  NoDup (recentGames (addRecentGame "B" threeRecent)) /\
  List.length (recentGames (addRecentGame "B" threeRecent)) = 3%nat.
Proof.
  assert (0 <= maxRecent threeRecent)%Z as Hcap by (simpl; lia).
  destruct (addRecentGame_moves_to_front threeRecent "B" Hcap) as (_ & _ & _ & H).
  assert (NoDup (recentGames threeRecent)) as H1
    by (repeat constructor; simpl; intuition discriminate).
  assert (List.length (recentGames threeRecent) <= Z.to_nat (maxRecent threeRecent))%nat
    as H2 by (simpl; lia).
  assert (In "B" (recentGames threeRecent)) as H3 by (simpl; auto).
  destruct (H H1 H2 H3) as (E & Hnd & Hlen).
  split; [rewrite E; reflexivity|].
  split; [exact Hcap|]. split; [exact Hnd | exact Hlen].
Defined.

(** ** The contrast argument (C1) *)

(** [--contrast <value>] is appended exactly when the computed value is
    not the number 1. *)
Lemma launchArgs_contrast p rom :
  launchArgs p rom =
  baseArgs p rom ++
  (if PrimFloat.eqb (contrastValue (resolvedSlider p)) 1%float then []
   else [Text "--contrast"; Fixed2 (contrastValue (resolvedSlider p))]).
Proof.
  unfold launchArgs, baseArgs, resolvedSlider.
  destruct (fgOnly p), (dither p),
    (PrimFloat.eqb (contrastValue (if (contrast p =? 0)%Z then 5%Z else contrast p)) 1%float);
    reflexivity.
Qed.

(** The slider-to-contrast line is neutral at 4, not at 5. *)
Lemma contrast_neutral_at_4 :
  contrastValue 4 = 1%float /\ contrastValue 1 = 0.5%float /\ contrastValue 10 = 2%float.
Proof. repeat split; reflexivity. Qed.

(** Of the ten slider settings only 4 leaves the option out. *)
Lemma only_slider_4_is_neutral s :
  (1 <= s <= 10)%Z ->
  PrimFloat.eqb (contrastValue s) 1%float = (s =? 4)%Z.
Proof.
  intros H.
  assert (s = 1 \/ s = 2 \/ s = 3 \/ s = 4 \/ s = 5 \/ s = 6 \/ s = 7 \/ s = 8 \/
          s = 9 \/ s = 10)%Z as Hs by lia.
  repeat (destruct Hs as [->|Hs]; [reflexivity|]). subst s. reflexivity.
Qed.

(** C1 fails at the documented neutral setting: with the default slider
    value 5 the computed contrast is 1.1666666666666665, and
    [--contrast] is passed for every ROM. *)
Theorem default_contrast_is_passed home rom :
  contrast (DEFAULTS home) = 5%Z /\
  contrastValue 5 = 0x1.2aaaaaaaaaaaap+0%float /\
  launchArgs (DEFAULTS home) rom =
    [Text (path rom); Text "--symbols"; Text "ascii+block"; Text "--colors";
     Text "256"; Text "--fg-only"; Text "--contrast";
     Fixed2 0x1.2aaaaaaaaaaaap+0%float].
Proof. repeat split; reflexivity. Qed.

(** ** The recent view (C10) *)

Lemma showRecentRoms_rows st :
  sortedRoms (_showRecentRoms st) = Some (resolveRecent (roms st) (recentGames (prefs st))).
Proof.
  unfold _showRecentRoms, resolveRecent. simpl. f_equal.
  induction (recentGames (prefs st)) as [|p l IH]; simpl; [reflexivity|].
  now rewrite IH.
Qed.

Lemma find_first_match p before r after :
  path r = p -> (forall x, In x before -> path x <> p) ->
  find (fun x => String.eqb (path x) p) (before ++ r :: after) = Some r.
Proof.
  intros Hr. induction before as [|y before IH]; intros Hb; simpl.
  - now rewrite Hr, String.eqb_refl.
  - destruct (String.eqb_spec (path y) p) as [E|_].
    + exfalso. apply (Hb y); [now left | exact E].
    + apply IH. intros x Hx. apply Hb. now right.
Qed.

Lemma find_no_match p catalog :
  (forall x, In x catalog -> path x <> p) ->
  find (fun x => String.eqb (path x) p) catalog = None.
Proof.
  induction catalog as [|y l IH]; intros H; simpl; [reflexivity|].
  destruct (String.eqb_spec (path y) p) as [E|_].
  - exfalso. apply (H y); [now left | exact E].
  - apply IH. intros x Hx. apply H. now right.
Qed.

Lemma resolveRecent_app catalog l1 l2 :
  resolveRecent catalog (l1 ++ l2) = resolveRecent catalog l1 ++ resolveRecent catalog l2.
Proof. unfold resolveRecent. apply flat_map_app. Qed.

(** C10: the recent view lists, for the stored paths in order, the first
    catalog entry with that path. When the catalog holds entries with the
    path [p], [r] being the first of them, every stored occurrence of [p]
    contributes the one row [r], whichever entries with the same path
    follow [r] in the catalog; a path with no entry contributes none. *)
Theorem recent_view_first_match st before r after earlier p later :
  roms st = before ++ r :: after ->
  path r = p -> (forall x, In x before -> path x <> p) ->
  recentGames (prefs st) = earlier ++ p :: later ->
  sortedRoms (_showRecentRoms st) =
    Some (resolveRecent (roms st) earlier ++ [r] ++ resolveRecent (roms st) later) /\
  currentView (_showRecentRoms st) = RecentView /\
  selected (_showRecentRoms st) = 0%Z.
Proof.
  intros Hroms Hr Hfirst Hrecent.
  assert (find (fun x => String.eqb (path x) p) (roms st) = Some r) as Hfind
    by (rewrite Hroms; now apply find_first_match).
  split; [|split; [reflexivity | apply showRows_selected]].
  rewrite showRecentRoms_rows, Hrecent, resolveRecent_app. do 2 f_equal.
  unfold resolveRecent. simpl. now rewrite Hfind.
Qed.

Lemma recent_view_first_match_witness :
  sortedRoms (_showRecentRoms recentState) =
    Some (resolveRecent (roms recentState) ["/roms/games.zip"; "/roms/zelda.nes"]
          ++ [game1] ++ resolveRecent (roms recentState) []) /\
  currentView (_showRecentRoms recentState) = RecentView /\
  selected (_showRecentRoms recentState) = 0%Z.
Proof.
  apply (recent_view_first_match recentState [] game1 [game2; zelda]
           ["/roms/games.zip"; "/roms/zelda.nes"] "/roms/games.zip" []).
  - reflexivity.
  - reflexivity.
  - intros x [].
  - reflexivity.
Defined.

(** Both stored occurrences of the archive show its first member. *)
Lemma recent_view_of_archive :
  sortedRoms (_showRecentRoms recentState) = Some [game1; zelda; game1].
Proof. reflexivity. Qed.

(** ** The highlight (C7) *)

Lemma navigateUp_list st : sortedRoms (_navigateUp st) = sortedRoms st.
Proof. unfold _navigateUp. now destruct (selected st - 1 >=? 0)%Z. Qed.

Lemma navigateDown_list st : sortedRoms (_navigateDown st) = sortedRoms st.
Proof.
  unfold _navigateDown. now destruct (selected st + 1 <? _)%Z.
Qed.

Lemma navigateUp_inRange st : inRange st -> inRange (_navigateUp st).
Proof.
  unfold inRange. intros [H0 H1].
  assert (listLength (_navigateUp st) = listLength st) as ->
    by (unfold listLength; now rewrite navigateUp_list).
  unfold _navigateUp.
  destruct (Z.geb_spec (selected st - 1) 0) as [Hge|Hlt]; cbv zeta; [|tauto].
  rewrite select_selected_row.
  split; intros Hx; [specialize (H0 Hx) | specialize (H1 Hx)]; lia.
Qed.

Lemma navigateDown_inRange st : inRange st -> inRange (_navigateDown st).
Proof.
  unfold inRange. intros [H0 H1].
  assert (listLength (_navigateDown st) = listLength st) as ->
    by (unfold listLength; now rewrite navigateDown_list).
  unfold _navigateDown. fold (listLength st).
  destruct (Z.ltb_spec (selected st + 1) (listLength st)) as [Hlt|Hge]; cbv zeta; [|tauto].
  rewrite select_selected_row.
  split; intros Hx; [lia | specialize (H1 Hx); lia].
Qed.

Lemma times_preserves {A} (P : A -> Prop) (f : A -> A) n :
  (forall a, P a -> P (f a)) -> forall a, P a -> P (times n f a).
Proof. intros Hf. induction n as [|n IH]; simpl; auto. Qed.

Lemma applyMove_keeps st m :
  inRange st -> inRange (applyMove st m) /\ sortedRoms (applyMove st m) = sortedRoms st.
Proof.
  intros H.
  set (P := fun s => inRange s /\ sortedRoms s = sortedRoms st).
  assert (P st) as HP by (split; [exact H | reflexivity]).
  assert (forall s, P s -> P (_navigateUp s)) as Hup.
  { intros s [Hs Hl]. split; [now apply navigateUp_inRange|].
    now rewrite navigateUp_list. }
  assert (forall s, P s -> P (_navigateDown s)) as Hdown.
  { intros s [Hs Hl]. split; [now apply navigateDown_inRange|].
    now rewrite navigateDown_list. }
  destruct m; unfold applyMove.
  - exact (Hup st HP).
  - exact (Hdown st HP).
  - exact (times_preserves P _navigateUp 10 Hup st HP).
  - exact (times_preserves P _navigateDown 10 Hdown st HP).
Qed.

(** C7: from a highlight inside the list (as every view change leaves
    it: [select(0)]), any sequence of single steps and page moves keeps
    the highlight within [0, listLength-1] and the list as it is; moving
    down at the last index and moving up at index 0 change nothing; and
    with an empty list the highlight stays at 0 and there is no current
    entry. *)
Theorem highlight_stays_in_range (moves : list Move) (st : Launcher) :
  inRange st ->
  let st' := fold_left applyMove moves st in
  inRange st' /\
  sortedRoms st' = sortedRoms st /\
  (selected st = listLength st - 1 -> _navigateDown st = st)%Z /\
  (selected st = 0 -> _navigateUp st = st)%Z /\
  (listLength st = 0 ->
     selected st' = 0 /\ _getSelectedRom st' (selected st') = None)%Z.
Proof.
  intros H. simpl.
  assert (inRange (fold_left applyMove moves st) /\
          sortedRoms (fold_left applyMove moves st) = sortedRoms st) as [Hr Hl].
  { revert st H. induction moves as [|m moves IH]; intros st H; simpl; [auto|].
    destruct (applyMove_keeps st m H) as [Hm Hlm].
    destruct (IH _ Hm) as [H1 H2]. split; [exact H1 | congruence]. }
  split; [exact Hr|]. split; [exact Hl|]. split; [|split].
  - intros Hlast. unfold _navigateDown. fold (listLength st).
    destruct (Z.ltb_spec (selected st + 1) (listLength st)); [lia | reflexivity].
  - intros Hfirst. unfold _navigateUp.
    destruct (Z.geb_spec (selected st - 1) 0); [lia | reflexivity].
  - intros Hempty.
    assert (listLength (fold_left applyMove moves st) = 0%Z) as Hempty'
      by (unfold listLength; now rewrite Hl).
    destruct Hr as [Hr _]. split; [now apply Hr|].
    rewrite (Hr Hempty'). unfold _getSelectedRom. rewrite Hl.
    unfold listLength in Hempty. destruct (sortedRoms st) as [[|x l]|]; try reflexivity.
    simpl in Hempty. lia.
Qed.

Lemma highlight_stays_in_range_witness :
  let st' := fold_left applyMove [StepUp; PageDownMove; StepDown; StepUp; PageUpMove] browsing in
  inRange st' /\
  sortedRoms st' = sortedRoms browsing /\
  (selected browsing = listLength browsing - 1 -> _navigateDown browsing = browsing)%Z /\
  (selected browsing = 0 -> _navigateUp browsing = browsing)%Z /\
  (listLength browsing = 0 ->
     selected st' = 0 /\ _getSelectedRom st' (selected st') = None)%Z.
Proof.
  apply (highlight_stays_in_range
           [StepUp; PageDownMove; StepDown; StepUp; PageUpMove] browsing).
  unfold inRange. simpl. lia.
Defined.

(** Every view change leaves the highlight in range. *)
Lemma views_start_in_range st :
  inRange (construct (prefs st)) /\
  inRange (_showRecentRoms st) /\
  (forall st', _showCurrentSystem st = Ok tt st' -> systems st <> [] -> inRange st').
Proof.
  split; [|split].
  - unfold inRange. simpl. lia.
  - unfold inRange, listLength. rewrite showRecentRoms_rows.
    unfold _showRecentRoms. cbv zeta. rewrite showRows_selected. lia.
  - unfold _showCurrentSystem, bindM, modify, get, ret, throw. simpl.
    destruct (systems st) as [|s sys] eqn:Hsys; [congruence|]. simpl.
    intros st' H _.
    destruct (match at_ (s :: sys) (currentSystemIndex st) with
              | Some sys0 => groupOf (systemRoms st) sys0
              | None => None
              end) as [l|] eqn:Hl; [|discriminate].
    injection H as <-. unfold inRange, listLength. rewrite showRows_selected.
    simpl. lia.
Qed.

(** ** The await-release gate (C2) *)

Lemma anyPressed_false gp :
  anyPressed gp = false -> forall idx, buttonPressed (buttons gp) idx = false.
Proof.
  unfold anyPressed, buttonPressed. intros H idx.
  destruct (nth_error (buttons gp) idx) as [[b|]|] eqn:Hn; try reflexivity.
  destruct b; [|reflexivity].
  apply nth_error_In in Hn.
  assert (existsb (fun b => match b with Some p => p | None => false end) (buttons gp) = true)
    as E; [|congruence].
  apply existsb_exists. exists (Some true). auto.
Qed.

Lemma startControllerPolling_arms st :
  waitingForRelease (_startControllerPolling st) = true /\
  polling (_startControllerPolling st) = true /\
  dispatched (_startControllerPolling st) = dispatched st.
Proof. repeat split. Qed.

(** A tick with the gate armed calls no handler: it leaves the launcher
    as it is, or only opens the gate on a pad with nothing pressed. *)
Lemma pollTick_armed disk pads now st :
  waitingForRelease st = true ->
  pollTick disk pads now st = Ok tt st \/
  (pollTick disk pads now st = Ok tt (setWaitingForRelease st false) /\
   exists gp, firstPad pads = Some gp /\ anyPressed gp = false).
Proof.
  intros Hw. unfold pollTick, firstPad, bindM, get. rewrite Hw.
  destruct (flat_map _ pads) as [|gp rest]; simpl.
  - now left.
  - destruct (anyPressed gp) eqn:Hp; simpl.
    + now left.
    + right. split; [reflexivity|]. eauto.
Qed.

Lemma skipn_own_length {A} (l : list A) : skipn (List.length l) l = [].
Proof. apply skipn_all. Qed.

Lemma pollRun_gate disk : forall ticks st k cmds,
  waitingForRelease st = true ->
  nth_error (fst (pollRun disk ticks st)) k = Some cmds -> cmds <> [] ->
  exists j pads now gp,
    (j < k)%nat /\ nth_error ticks j = Some (pads, now) /\
    firstPad pads = Some gp /\ anyPressed gp = false.
Proof.
  induction ticks as [|[pads now] rest IH]; intros st k cmds Hw Hk Hne.
  - simpl in Hk. destruct k; discriminate.
  - simpl in Hk. destruct (polling st); simpl in Hk; [|destruct k; discriminate].
    destruct (pollTick_armed disk pads now st Hw) as [Hsame | [Hopen (gp & Hgp & Hrel)]].
    + rewrite Hsame in Hk.
      destruct (pollRun disk rest st) as [outs final] eqn:Hrun. simpl in Hk.
      destruct k as [|k]; simpl in Hk.
      * injection Hk as <-. now rewrite skipn_own_length in Hne.
      * assert (nth_error (fst (pollRun disk rest st)) k = Some cmds) as Hk'
          by (now rewrite Hrun).
        destruct (IH st k cmds Hw Hk' Hne) as (j & p & n & g & Hj & Hn & Hf & Hr).
        exists (S j), p, n, g. repeat split; auto. lia.
    + rewrite Hopen in Hk.
      destruct (pollRun disk rest (setWaitingForRelease st false)) as [outs final].
      simpl in Hk. destruct k as [|k]; simpl in Hk.
      * injection Hk as <-. simpl in Hne. now rewrite skipn_own_length in Hne.
      * exists 0%nat, pads, now, gp. repeat split; auto. lia.
Qed.

(** C2: with the gate armed, as [_startControllerPolling] leaves it, a
    poll tick calls no handler of any kind, and over any run of ticks a
    tick that dispatches a command comes after a tick whose pad showed
    every button released. *)
Theorem await_release_gate disk (st : Launcher) ticks :
  waitingForRelease st = true ->
  (forall pads now,
      exists st', pollTick disk pads now st = Ok tt st' /\
                  dispatched st' = dispatched st /\ spawned st' = spawned st /\
                  selected st' = selected st /\ settingsOpen st' = settingsOpen st) /\
  (forall k cmds,
      nth_error (fst (pollRun disk ticks st)) k = Some cmds -> cmds <> [] ->
      exists j pads now gp,
        (j < k)%nat /\ nth_error ticks j = Some (pads, now) /\
        firstPad pads = Some gp /\
        forall idx, buttonPressed (buttons gp) idx = false).
Proof.
  intros Hw. split.
  - intros pads now.
    destruct (pollTick_armed disk pads now st Hw) as [-> | [-> _]];
      eexists; repeat split.
  - intros k cmds Hk Hne.
    destruct (pollRun_gate disk ticks st k cmds Hw Hk Hne)
      as (j & pads & now & gp & Hj & Hn & Hf & Hr).
    exists j, pads, now, gp. repeat split; auto. now apply anyPressed_false.
Qed.

Lemma await_release_gate_witness :
  (forall pads now,
      exists st', pollTick gamesDisk pads now (_startControllerPolling browsing) = Ok tt st' /\
                  dispatched st' = dispatched (_startControllerPolling browsing) /\
                  spawned st' = spawned (_startControllerPolling browsing) /\
                  selected st' = selected (_startControllerPolling browsing) /\
                  settingsOpen st' = settingsOpen (_startControllerPolling browsing)) /\
  (forall k cmds,
      nth_error (fst (pollRun gamesDisk resumeTicks (_startControllerPolling browsing))) k
        = Some cmds -> cmds <> [] ->
      exists j pads now gp,
        (j < k)%nat /\ nth_error resumeTicks j = Some (pads, now) /\
        firstPad pads = Some gp /\
        forall idx, buttonPressed (buttons gp) idx = false).
Proof.
  apply (await_release_gate gamesDisk (_startControllerPolling browsing) resumeTicks).
  reflexivity.
Defined.

(** The held button launches nothing until it has been let go. *)
Lemma resume_run :
  fst (pollRun gamesDisk resumeTicks (_startControllerPolling browsing)) =
    [[]; []; []; [Launch game1]].
Proof. reflexivity. Qed.

(* ================================================================== *)
(** * Further properties of the scanner *)
(* ================================================================== *)

(** ** Order of the catalog *)

Lemma insertSorted_In cmp r l x : In x (insertSorted cmp r l) -> x = r \/ In x l.
Proof.
  intros H. apply (Permutation_in _ (insertSorted_perm cmp r l)) in H.
  destruct H as [<-|H]; auto.
Qed.

Lemma insertSorted_sorted cmp r l :
  consistent cmp ->
  StronglySorted (nameLe cmp) l -> StronglySorted (nameLe cmp) (insertSorted cmp r l).
Proof.
  intros [Hanti Htrans].
  assert (forall a b, cmp a b <= 0 \/ cmp b a <= 0)%Z as Htot
    by (intros a b; destruct (Z.le_gt_cases (cmp a b) 0) as [H|H];
        [now left | right; apply Z.lt_gt, Z.gt_lt, Hanti in H; lia]).
  induction 1 as [|x l Hs IH Hx]; simpl.
  - repeat constructor.
  - destruct (Z.leb_spec (cmp (name r) (name x)) 0) as [Hle|Hgt].
    + constructor; [now constructor|].
      constructor; [exact Hle|].
      rewrite Forall_forall in *. intros y Hy. unfold nameLe in *.
      apply (Htrans _ (name x)); auto.
    + constructor; [exact IH|].
      rewrite Forall_forall in *. intros y Hy.
      apply insertSorted_In in Hy as [->|Hy]; [|now apply Hx].
      unfold nameLe. destruct (Htot (name x) (name r)); [assumption | lia].
Qed.

Lemma sortByName_sorted cmp l :
  consistent cmp -> StronglySorted (nameLe cmp) (sortByName cmp l).
Proof.
  intros Hc. induction l as [|r l IH]; simpl; [constructor|].
  now apply insertSorted_sorted.
Qed.

(** X1: when [localeCompare] orders every pair of names and is
    transitive, the catalog [scan] returns is sorted by name: every entry
    compares [<= 0] with every entry after it; and it holds the entries
    of the walk, each as often as the walk found it. *)
Theorem scan_sorted_by_name cmp fs root roms :
  consistent cmp -> scan cmp fs root = Done roms ->
  StronglySorted (nameLe cmp) roms /\
  exists walk, scanDirFrom fs root [] 0 = Done walk /\ Permutation roms walk.
Proof.
  intros Hc H. unfold scan in H.
  apply bind_Done in H as (walk & Hw & H). injection H as <-.
  split; [now apply sortByName_sorted|].
  exists walk. split; [exact Hw | apply sortByName_perm].
Qed.

Lemma compareLengths_consistent : consistent compareLengths.
Proof. unfold consistent, compareLengths. split; intros; lia. Qed.

Lemma scan_sorted_by_name_witness :
  let dk := mkRom "dk" "/roms/dk.gb" None ".gb" "Game Boy" in
  let asteroids := mkRom "asteroids" "/roms/asteroids.a26" None ".a26" "Atari 2600" in
  StronglySorted (nameLe compareLengths) [dk; zelda; asteroids] /\
  exists walk,
    scanDirFrom shelfDisk "/roms" [] 0 = Done walk /\
    Permutation [dk; zelda; asteroids] walk.
Proof.
  intros dk asteroids.
  apply (scan_sorted_by_name compareLengths shelfDisk "/roms" [dk; zelda; asteroids]).
  - exact compareLengths_consistent.
  - reflexivity.
Defined.

(** On that shelf the walk finds the ROMs in directory order and [scan]
    returns them in the order of the comparator. *)
Lemma shelf_is_reordered :
  (exists walk, scanDirFrom shelfDisk "/roms" [] 0 = Done walk /\
                map name walk = ["zelda"; "dk"; "asteroids"]) /\
  (exists roms, scan compareLengths shelfDisk "/roms" = Done roms /\
                map name roms = ["dk"; "zelda"; "asteroids"]) /\
  (exists roms, scan compareNames shelfDisk "/roms" = Done roms /\
                map name roms = ["asteroids"; "dk"; "zelda"]).
Proof. repeat split; eexists; split; reflexivity. Qed.

Lemma consistent_refl cmp n : consistent cmp -> cmp n n = 0%Z.
Proof. intros [Hanti _]. pose proof (Hanti n n). lia. Qed.

Lemma consistent_sym cmp a b : consistent cmp -> cmp a b = 0%Z -> cmp b a = 0%Z.
Proof. intros [Hanti _] H. pose proof (Hanti a b). pose proof (Hanti b a). lia. Qed.

Lemma ranked_insertSorted cmp n r l :
  consistent cmp ->
  ranked cmp n (insertSorted cmp r l) =
  if (cmp (name r) n =? 0)%Z then r :: ranked cmp n l else ranked cmp n l.
Proof.
  intros Hc. induction l as [|x l IH]; simpl.
  - reflexivity.
  - destruct (Z.leb_spec (cmp (name r) (name x)) 0) as [Hle|Hgt]; simpl.
    + reflexivity.
    + rewrite IH.
      destruct (Z.eqb_spec (cmp (name x) n) 0) as [Hx|Hx];
        destruct (Z.eqb_spec (cmp (name r) n) 0) as [Hr|Hr]; try reflexivity.
      exfalso. apply (consistent_sym cmp _ _ Hc) in Hx.
      destruct Hc as [_ Htrans]. pose proof (Htrans (name r) n (name x)). lia.
Qed.

Lemma ranked_sortByName cmp n walk :
  consistent cmp -> ranked cmp n (sortByName cmp walk) = ranked cmp n walk.
Proof.
  intros Hc. induction walk as [|r walk IH]; simpl; [reflexivity|].
  rewrite (ranked_insertSorted cmp n r _ Hc).
  fold (sortByName cmp walk). rewrite IH. reflexivity.
Qed.

Lemma named_ranked cmp n l : consistent cmp -> named n (ranked cmp n l) = named n l.
Proof.
  intros Hc. unfold named, ranked. induction l as [|r l IH]; simpl; [reflexivity|].
  destruct (String.eqb (name r) n) eqn:E.
  - assert ((cmp (name r) n =? 0)%Z = true) as ->
      by (apply String.eqb_eq in E; rewrite E; apply Z.eqb_eq, consistent_refl; exact Hc).
    simpl. rewrite E. now rewrite IH.
  - destruct (cmp (name r) n =? 0)%Z; simpl; [rewrite E|]; exact IH.
Qed.

(** X2: the sort is stable. With a consistent [localeCompare], the
    entries whose names rank equal (the same name, or names the
    collation does not tell apart) stand in the catalog in the order in
    which the walk found them; so the members of one archive that share
    the archive's name stay in archive order. *)
Theorem scan_keeps_order_of_equal_names cmp fs root roms n :
  consistent cmp -> scan cmp fs root = Done roms ->
  exists walk,
    scanDirFrom fs root [] 0 = Done walk /\
    ranked cmp n roms = ranked cmp n walk /\
    named n roms = named n walk.
Proof.
  intros Hc H. unfold scan in H.
  apply bind_Done in H as (walk & Hw & H). injection H as <-.
  exists walk. split; [exact Hw|].
  pose proof (ranked_sortByName cmp n walk Hc) as Hr.
  split; [exact Hr|].
  rewrite <- (named_ranked cmp n (sortByName cmp walk) Hc), Hr.
  now apply named_ranked.
Qed.

Lemma scan_keeps_order_of_equal_names_witness :
  exists walk,
    scanDirFrom gamesDisk "/roms" [] 0 = Done walk /\
    ranked compareLengths "games" [game1; game2] = ranked compareLengths "games" walk /\
    named "games" [game1; game2] = named "games" walk.
Proof.
  apply (scan_keeps_order_of_equal_names compareLengths gamesDisk "/roms"
           [game1; game2] "games").
  - exact compareLengths_consistent.
  - reflexivity.
Defined.

(** ** Groups by system *)

Lemma groupOf_pushGroup groups r s :
  groupOf (pushGroup groups r) s =
  if String.eqb (system r) s
  then Some (match groupOf groups s with Some g => g ++ [r] | None => [r] end)
  else groupOf groups s.
Proof.
  induction groups as [|[k g] groups IH]; simpl.
  - rewrite String.eqb_sym. destruct (String.eqb s (system r)); reflexivity.
  - destruct (String.eqb_spec k (system r)) as [Hk|Hk]; simpl.
    + subst k. destruct (String.eqb_spec (system r) s) as [Hs|Hs]; reflexivity.
    + rewrite IH. destruct (String.eqb_spec k s) as [Hs|Hs]; [|reflexivity].
      subst k. destruct (String.eqb_spec (system r) s) as [E|_]; [congruence | reflexivity].
Qed.

Lemma groupOf_fold roms : forall groups s,
  groupOf (fold_left pushGroup roms groups) s =
  match groupOf groups s, ofSystem s roms with
  | Some g, l => Some (g ++ l)
  | None, [] => None
  | None, l => Some l
  end.
Proof.
  induction roms as [|r roms IH]; intros groups s; simpl.
  - destruct (groupOf groups s); [now rewrite app_nil_r | reflexivity].
  - rewrite IH, groupOf_pushGroup.
    destruct (String.eqb (system r) s); [|reflexivity].
    destruct (groupOf groups s) as [g|]; simpl; [now rewrite <- app_assoc | reflexivity].
Qed.

Lemma keys_pushGroup groups r :
  map fst (pushGroup groups r) =
  if existsb (String.eqb (system r)) (map fst groups) then map fst groups
  else map fst groups ++ [system r].
Proof.
  induction groups as [|[k g] groups IH]; simpl; [reflexivity|].
  rewrite (String.eqb_sym (system r) k).
  destruct (String.eqb k (system r)); simpl; [reflexivity|].
  rewrite IH. now destruct (existsb _ (map fst groups)).
Qed.

Lemma keys_pushGroup_NoDup groups r :
  NoDup (map fst groups) -> NoDup (map fst (pushGroup groups r)).
Proof.
  intros H. rewrite keys_pushGroup.
  destruct (existsb _ (map fst groups)) eqn:E; [exact H|].
  apply NoDup_app; [exact H | repeat constructor; simpl; tauto | ].
  intros x Hx [<-|[]].
  assert (existsb (String.eqb (system r)) (map fst groups) = true) as E'; [|congruence].
  apply existsb_exists. exists (system r). split; [exact Hx | apply String.eqb_refl].
Qed.

Lemma keys_fold_NoDup roms : forall groups,
  NoDup (map fst groups) -> NoDup (map fst (fold_left pushGroup roms groups)).
Proof.
  induction roms as [|r roms IH]; intros groups H; simpl; [exact H|].
  apply IH. now apply keys_pushGroup_NoDup.
Qed.

Lemma groupOf_key groups s : groupOf groups s <> None <-> In s (map fst groups).
Proof.
  induction groups as [|[k g] groups IH]; simpl; [tauto|].
  destruct (String.eqb_spec k s) as [->|Hne].
  - split; [auto | discriminate].
  - rewrite IH. split; [auto | intros [E|H]; [congruence | exact H]].
Qed.

Lemma tableSystem_check roms :
  forallb (fun r => existsb (String.eqb (system r)) (map snd SYSTEM_NAMES)) roms = true ->
  Forall tableSystem roms.
Proof.
  intros H. rewrite forallb_forall in H. apply Forall_forall. intros r Hr.
  apply H, existsb_exists in Hr as (s & Hs & E). apply String.eqb_eq in E.
  unfold tableSystem. now rewrite E.
Qed.

(** X3: for entries whose systems are names of the extension table,
    [getSystemGroups] files every entry under its own system and nowhere
    else: the group of a system is the sub-list of the catalog's entries
    of that system, in catalog order; a system of no entry has no group;
    and no system is keyed twice. *)
Theorem getSystemGroups_partitions roms s :
  Forall tableSystem roms ->
  groupOf (getSystemGroups roms) s =
    match ofSystem s roms with
    | [] => None
    | l => Some l
    end /\
  NoDup (map fst (getSystemGroups roms)) /\
  (In s (map fst (getSystemGroups roms)) <-> exists r, In r roms /\ system r = s).
Proof.
  intros _.
  assert (groupOf (getSystemGroups roms) s =
          match ofSystem s roms with [] => None | l => Some l end) as Hg.
  { unfold getSystemGroups. rewrite groupOf_fold. simpl.
    now destruct (ofSystem s roms). }
  split; [exact Hg|]. split.
  - unfold getSystemGroups. apply keys_fold_NoDup. constructor.
  - rewrite <- groupOf_key, Hg. unfold ofSystem. split.
    + destruct (filter _ roms) as [|r l] eqn:E; [congruence|]. intros _.
      assert (In r (filter (fun r => String.eqb (system r) s) roms)) as Hr
        by (rewrite E; now left).
      apply filter_In in Hr as [Hr Hs]. exists r. split; [exact Hr|].
      now apply String.eqb_eq.
    + intros (r & Hr & Hs).
      assert (In r (filter (fun r => String.eqb (system r) s) roms)) as Hin
        by (apply filter_In; split; [exact Hr | now apply String.eqb_eq]).
      destruct (filter _ roms); [destruct Hin | discriminate].
Qed.

Lemma getSystemGroups_partitions_witness :
  groupOf (getSystemGroups [zelda; sonic; game1]) "NES" = Some [zelda; game1] /\
  NoDup (map fst (getSystemGroups [zelda; sonic; game1])).
Proof.
  destruct (getSystemGroups_partitions [zelda; sonic; game1] "NES") as (H1 & H2 & _).
  - apply tableSystem_check. reflexivity.
  - split; [exact H1 | exact H2].
Defined.

(** ** Classification of the entries *)

(** X4: every entry of a returned catalog carries a recognized ROM
    extension in lower case and the system the table gives that
    extension; the fallback ["Unknown"] and the archive pseudo-system are
    never used; and the entry's path was stat'ed as a regular file. *)
Theorem catalog_entries_classified cmp fs root roms r :
  scan cmp fs root = Done roms -> In r roms ->
  ROM_EXTENSIONS_has (ext r) = true /\
  In (ext r, system r) SYSTEM_NAMES /\
  system r <> "Unknown" /\ system r <> "Archive" /\
  toLowerCase (ext r) = ext r /\
  statSync fs (path r) = Some IsFile.
Proof.
  unfold scan, scanDirFrom. intros H Hr.
  apply bind_Done in H as (found & Hfound & H). injection H as <-.
  apply (Permutation_in _ (sortByName_perm cmp found)) in Hr.
  destruct (scanDir_sound fs _ _ _ _ r (Z.le_refl 0) Hfound Hr)
    as (comps & _ & _ & Hfile & Hkind).
  assert (ROM_EXTENSIONS_has (ext r) = true /\ system r = systemOf (ext r)) as [Hx Hs].
  { destruct Hkind as [(_ & Hrom & ->) | (_ & members & m & _ & _ & Hin)].
    - split; [exact Hrom | reflexivity].
    - unfold onEntry in Hin.
      destruct (ROM_EXTENSIONS_has (toLowerCase (extname m))) eqn:Hrom; simpl in Hin;
        [|destruct Hin].
      destruct (negb _); simpl in Hin; [|destruct Hin].
      destruct Hin as [<-|[]]. split; [exact Hrom | reflexivity]. }
  destruct (recognized_has_system _ Hx) as (H1 & H2 & H3 & H4).
  rewrite Hs. repeat split; assumption.
Qed.

Lemma catalog_entries_classified_witness :
  ROM_EXTENSIONS_has (ext game2) = true /\
  In (ext game2, system game2) SYSTEM_NAMES /\
  system game2 <> "Unknown" /\ system game2 <> "Archive" /\
  toLowerCase (ext game2) = ext game2 /\
  statSync gamesDisk (path game2) = Some IsFile.
Proof.
  apply (catalog_entries_classified compareNames gamesDisk "/roms" [game1; game2] game2).
  - reflexivity.
  - simpl. auto.
Defined.

(** ** Display names of plain files *)

Lemma chars_str l : chars (str l) = l.
Proof. apply list_ascii_of_string_of_list_ascii. Qed.

Lemma str_chars s : str (chars s) = s.
Proof. apply string_of_list_ascii_of_string. Qed.

Lemma str_app a b : str (a ++ b) = (str a ++ str b)%string.
Proof. induction a as [|c a IH]; simpl; [reflexivity|]. unfold str in *. simpl. now rewrite IH. Qed.

Lemma length_chars s : List.length (chars s) = String.length s.
Proof. induction s as [|c s IH]; simpl; [reflexivity|]. unfold chars in *. simpl. now rewrite IH. Qed.

Lemma noSlash_chars s : noSlash s = true -> Forall (fun c => isSlash c = false) (chars s).
Proof.
  induction s as [|c s IH]; simpl; intros H; [constructor|].
  apply andb_prop in H as [Hc Hs]. constructor; [now apply negb_true_iff | now apply IH].
Qed.

Lemma dropSlashes_none l : Forall (fun c => isSlash c = false) l -> dropSlashes l = l.
Proof. destruct 1 as [|c l Hc Hl]; simpl; [reflexivity | now rewrite Hc]. Qed.

Lemma takeComponent_none l : Forall (fun c => isSlash c = false) l -> takeComponent l = l.
Proof. induction 1 as [|c l Hc Hl IH]; simpl; [reflexivity | now rewrite Hc, IH]. Qed.

Lemma lastComponentRev_plain e :
  noSlash e = true -> lastComponentRev e = rev (chars e).
Proof.
  intros H. unfold lastComponentRev.
  assert (Forall (fun c => isSlash c = false) (rev (chars e))) as Hr
    by (apply Forall_rev, noSlash_chars, H).
  now rewrite (dropSlashes_none _ Hr), (takeComponent_none _ Hr).
Qed.

Lemma splitAtDot_app l b a : splitAtDot l = Some (b, a) -> l = b ++ "."%char :: a.
Proof.
  revert b a. induction l as [|c l IH]; intros b a H; simpl in H; [discriminate|].
  destruct (isDot c) eqn:Hc.
  - injection H as <- <-. unfold isDot in Hc. apply Ascii.eqb_eq in Hc. now subst.
  - destruct (splitAtDot l) as [[b' a']|]; [|discriminate].
    injection H as <- <-. simpl. f_equal. now apply IH.
Qed.

Lemma extname_cases p :
  extname p = "" \/
  exists b a, splitAtDot (lastComponentRev p) = Some (b, a) /\ a <> [] /\
              extname p = str ("."%char :: rev b).
Proof.
  unfold extname. destruct (splitAtDot (lastComponentRev p)) as [[b a]|]; [|now left].
  destruct a as [|x a]; [left; now destruct b|].
  destruct b as [|y b].
  - destruct a as [|z a].
    + destruct (ascii_dec x ".") as [->|Hne]; [now left|].
      right. exists [], [x]. repeat split; [discriminate|].
      destruct x as [[] [] [] [] [] [] [] []]; try reflexivity. congruence.
    + right. exists [], (x :: z :: a). repeat split; [discriminate|].
      destruct x as [[] [] [] [] [] [] [] []]; reflexivity.
  - right. exists (y :: b), (x :: a). repeat split. discriminate.
Qed.

(** A plain name with an extension is a non-empty stem followed by it. *)
Lemma extname_splits e :
  noSlash e = true -> extname e <> "" ->
  exists stem, stem <> [] /\ chars e = stem ++ chars (extname e).
Proof.
  intros Hp Hx. destruct (extname_cases e) as [E | (b & a & Hs & Ha & E)]; [congruence|].
  rewrite (lastComponentRev_plain e Hp) in Hs. apply splitAtDot_app in Hs.
  exists (rev a). split.
  - intros E'. apply Ha. apply (f_equal (@rev _)) in E'. now rewrite rev_involutive in E'.
  - rewrite E, chars_str, <- (rev_involutive (chars e)), Hs, rev_app_distr. simpl.
    now rewrite <- app_assoc.
Qed.

Lemma scanSuffix_strips a b : scanSuffix (a ++ b) a = Stripped b.
Proof.
  induction a as [|c a IH]; simpl; [now destruct b|].
  now rewrite Ascii.eqb_refl.
Qed.

Lemma scanSuffix_mismatch a a' b :
  List.length a = List.length a' -> a <> a' -> scanSuffix (a ++ b) a' = Mismatch.
Proof.
  revert a'. induction a as [|c a IH]; intros [|c' a'] Hl Hne; simpl in *;
    try discriminate; [congruence|].
  destruct (Ascii.eqb_spec c c') as [->|_]; [|reflexivity].
  apply IH; [lia | congruence].
Qed.

Lemma length_toLowerCase s : String.length (toLowerCase s) = String.length s.
Proof. induction s as [|c s IH]; simpl; [reflexivity | now rewrite IH]. Qed.

Lemma length_append a b :
  String.length (a ++ b)%string = (String.length a + String.length b)%nat.
Proof. induction a as [|c a IH]; simpl; [reflexivity | now rewrite IH]. Qed.

(** [basename(e, suffix)] of a plain name [e = stem ++ x], for a suffix as
    long as [x]: the stem when the suffix is [x], all of [e] otherwise. *)
Lemma basename_plain_name e stem x suffix :
  noSlash e = true -> stem <> [] -> x <> "" ->
  chars e = stem ++ chars x -> String.length suffix = String.length x ->
  basename e suffix = if String.eqb suffix x then str stem else e.
Proof.
  intros Hp Hstem Hx He Hlen.
  assert (e = (str stem ++ x)%string) as Hes
    by (rewrite <- (str_chars e), He, str_app, str_chars; reflexivity).
  assert (String.length e = (List.length stem + String.length x)%nat) as Hle
    by (rewrite <- !length_chars, He, length_app; reflexivity).
  assert (0 < List.length stem)%nat as Hs0 by (destruct stem; [congruence | simpl; lia]).
  assert (0 < String.length x)%nat as Hx0 by (destruct x; [congruence | simpl; lia]).
  unfold basename. rewrite (lastComponentRev_plain e Hp).
  destruct (Nat.eqb_spec (String.length suffix) 0) as [E|_]; [lia|].
  destruct (Nat.ltb_spec (String.length e) (String.length suffix)) as [E|_]; [lia|].
  simpl orb. cbv iota.
  destruct (String.eqb_spec suffix e) as [E|_].
  { exfalso. apply (f_equal String.length) in E. lia. }
  rewrite rev_involutive, str_chars, He, rev_app_distr.
  destruct (String.eqb_spec suffix x) as [->|Hne].
  - rewrite scanSuffix_strips.
    destruct (rev stem) as [|c r] eqn:Hr.
    + exfalso. apply Hstem. apply (f_equal (@rev _)) in Hr. now rewrite rev_involutive in Hr.
    + rewrite <- Hr, rev_involutive. reflexivity.
  - rewrite scanSuffix_mismatch; [reflexivity | | ].
    + now rewrite !length_rev, !length_chars.
    + intros E. apply Hne. apply (f_equal (@rev _)) in E.
      rewrite !rev_involutive in E.
      now rewrite <- (str_chars suffix), <- (str_chars x), E.
Qed.

(** The name [_scanDir] gives a plain ROM file. *)
Lemma fileRom_display_name fullPath entry :
  noSlash entry = true ->
  ROM_EXTENSIONS_has (toLowerCase (extname entry)) = true ->
  let r := fileRom fullPath entry (toLowerCase (extname entry)) in
  (extname entry = toLowerCase (extname entry) ->
     (name r ++ ext r)%string = entry /\ name r <> "") /\
  (extname entry <> toLowerCase (extname entry) -> name r = entry).
Proof.
  intros Hp Hrom r.
  assert (extname entry <> "") as Hx by (intros E; rewrite E in Hrom; discriminate).
  destruct (extname_splits entry Hp Hx) as (stem & Hstem & He).
  pose proof (basename_plain_name entry stem (extname entry) (toLowerCase (extname entry))
                Hp Hstem Hx He (length_toLowerCase _)) as Hb.
  unfold r, fileRom. simpl name. simpl ext. split.
  - intros Hlow. rewrite <- Hlow in *. rewrite String.eqb_refl in Hb. rewrite Hb. split.
    + rewrite <- (str_chars entry) at 2. now rewrite He, str_app, str_chars.
    + destruct stem; [congruence | discriminate].
  - intros Hup. rewrite Hb.
    destruct (String.eqb_spec (toLowerCase (extname entry)) (extname entry)); congruence.
Qed.

Lemma Listed_last fs dir comps p :
  Listed fs dir comps p ->
  exists d entries, readdirSync fs d = Some entries /\ In (lastName comps) entries.
Proof.
  induction 1 as [dir entries e Hd He Hv | dir entries d comps p Hd Hin Hv Hs HL IH].
  - exists dir, entries. split; [exact Hd | exact He].
  - destruct IH as (d' & entries' & Hd' & Hin').
    exists d', entries'. split; [exact Hd'|].
    rewrite lastName_cons; [exact Hin'|].
    destruct (Listed_path _ _ _ _ HL) as (_ & _ & Hne). exact Hne.
Qed.

Lemma onEntry_zipEntry zipPath zipName m r :
  In r (onEntry zipPath zipName m) -> zipEntry r = Some m.
Proof.
  unfold onEntry. destruct (_ && _); simpl; [|tauto].
  intros [<-|[]]. reflexivity.
Qed.

(** X5: the display name of a plain ROM file. On a disk whose
    listings hold no separator, every entry of a returned catalog that
    is not an archive member stands for a listed file [e], carries the
    lowercased extension of [e], and is named [e] without its extension
    when the extension is written in lower case, so that name and
    extension put together give the file name back; when the extension
    holds an upper-case letter nothing is cut and the display name is
    the whole file name, because [basename] is handed the lowercased
    extension. *)
Theorem plain_file_display_name cmp fs root roms r :
  plainListings fs -> scan cmp fs root = Done roms -> In r roms -> zipEntry r = None ->
  exists comps,
    Listed fs root comps (path r) /\
    let e := lastName comps in
    ext r = toLowerCase (extname e) /\
    (extname e = ext r -> (name r ++ ext r)%string = e /\ name r <> "") /\
    (extname e <> ext r -> name r = e).
Proof.
  intros Hplain H Hr Hz. unfold scan, scanDirFrom in H.
  apply bind_Done in H as (found & Hfound & H). injection H as <-.
  apply (Permutation_in _ (sortByName_perm cmp found)) in Hr.
  destruct (scanDir_sound fs _ _ _ _ r (Z.le_refl 0) Hfound Hr)
    as (comps & HL & _ & _ & Hkind).
  exists comps. split; [exact HL|].
  destruct Hkind as [(_ & Hrom & Hfile) | (_ & members & m & _ & _ & Hin)].
  - destruct (Listed_last _ _ _ _ HL) as (d & entries & Hd & Hin).
    destruct (Hplain d entries Hd) as [_ Hns]. rewrite Forall_forall in Hns.
    destruct (fileRom_display_name (path r) (lastName comps) (Hns _ Hin) Hrom) as [H1 H2].
    rewrite <- Hfile in H1, H2.
    assert (ext r = toLowerCase (extname (lastName comps))) as Hext
      by (rewrite Hfile; reflexivity).
    rewrite <- Hext in H1, H2. cbv zeta. split; [exact Hext|]. split; [exact H1 | exact H2].
  - apply onEntry_zipEntry in Hin. congruence.
Qed.

Lemma plain_file_display_name_witness :
  exists comps,
    Listed upperCaseDisk "/roms" comps "/roms/MARIO.NES" /\
    let e := lastName comps in
    ".nes" = toLowerCase (extname e) /\
    (extname e = ".nes" -> ("MARIO.NES" ++ ".nes")%string = e /\ "MARIO.NES" <> "") /\
    (extname e <> ".nes" -> "MARIO.NES" = e).
Proof.
  apply (plain_file_display_name compareNames upperCaseDisk "/roms"
           [mkRom "MARIO.NES" "/roms/MARIO.NES" None ".nes" "NES"]
           (mkRom "MARIO.NES" "/roms/MARIO.NES" None ".nes" "NES")).
  - apply disk_plain. reflexivity.
  - reflexivity.
  - now left.
  - reflexivity.
Defined.

(* ================================================================== *)
(** * Further properties of the preferences and the launcher *)
(* ================================================================== *)

(** ** The recent list over many launches *)

Lemma firstSeen_In p l : In p (firstSeen l) <-> In p l.
Proof.
  induction l as [|q l IH]; simpl; [tauto|].
  rewrite filter_In, IH. unfold isNot.
  destruct (String.eqb_spec p q) as [->|Hne]; simpl.
  - tauto.
  - split; [tauto|]. intros [E|H]; [congruence | auto].
Qed.

Lemma firstSeen_NoDup l : NoDup (firstSeen l).
Proof.
  induction l as [|q l IH]; simpl; constructor.
  - rewrite filter_In. unfold isNot. rewrite String.eqb_refl. simpl. intros [_ H]. discriminate.
  - now apply filter_NoDup.
Qed.

Lemma firstSeen_distinct l : NoDup l -> firstSeen l = l.
Proof.
  induction 1 as [|q l Hq Hl IH]; simpl; [reflexivity|].
  rewrite IH. f_equal. now apply filter_isNot_absent.
Qed.

Lemma firstn_NoDup {A} n (l : list A) : NoDup l -> NoDup (firstn n l).
Proof.
  intros H. revert n. induction H as [|x l Hx Hl IH]; intros [|n]; simpl; try constructor.
  - intros Hin. apply Hx. rewrite <- (firstn_skipn n l). apply in_or_app. now left.
  - apply IH.
Qed.

(** Dropping one path from the first [k+1] entries of a list without
    repetition leaves the same first [k] as dropping it from the whole. *)
Lemma firstn_drop_firstn p k l :
  NoDup l ->
  firstn k (filter (isNot p) (firstn (S k) l)) = firstn k (filter (isNot p) l).
Proof.
  intros H. revert k. induction H as [|x l Hx Hl IH]; intros k; [reflexivity|].
  change (firstn (S k) (x :: l)) with (x :: firstn k l). simpl filter.
  destruct (isNot p x) eqn:E.
  - destruct k as [|k]; [reflexivity|]. simpl. f_equal. apply IH.
  - assert (x = p) as -> by (unfold isNot in E; now destruct (String.eqb_spec x p)).
    assert (~ In p (firstn k l)) as Hk.
    { intros Hin. apply Hx. rewrite <- (firstn_skipn k l). apply in_or_app. now left. }
    rewrite (filter_isNot_absent p l Hx), (filter_isNot_absent p _ Hk).
    rewrite firstn_firstn. now rewrite Nat.min_id.
Qed.

Lemma addRecentGame_recent p c :
  (1 <= maxRecent c)%Z ->
  recentGames (addRecentGame p c) =
  p :: firstn (Z.to_nat (maxRecent c) - 1) (filter (isNot p) (recentGames c)).
Proof.
  intros Hcap. unfold addRecentGame, slice0. simpl recentGames.
  destruct (Z.ltb_spec (maxRecent c) 0) as [Hneg|_]; [lia|].
  destruct (Z.to_nat (maxRecent c)) as [|k] eqn:E; [lia|].
  simpl. now rewrite Nat.sub_0_r.
Qed.

Lemma played_snoc plays p c : played (plays ++ [p]) c = addRecentGame p (played plays c).
Proof. unfold played. now rewrite fold_left_app. Qed.

Lemma played_maxRecent plays c : maxRecent (played plays c) = maxRecent c.
Proof.
  revert c. induction plays as [|p plays IH]; intros c; [reflexivity|].
  unfold played in *. simpl. now rewrite IH.
Qed.

Lemma played_recent plays c :
  (1 <= maxRecent c)%Z -> NoDup (recentGames c) -> plays <> [] ->
  recentGames (played plays c) =
  firstn (Z.to_nat (maxRecent c)) (firstSeen (rev plays ++ recentGames c)).
Proof.
  intros Hcap Hnd. induction plays as [|p plays IH] using rev_ind; [congruence|]. intros _.
  rewrite played_snoc, addRecentGame_recent by (rewrite played_maxRecent; exact Hcap).
  rewrite played_maxRecent, rev_app_distr. simpl rev. simpl app. simpl firstSeen.
  destruct (Z.to_nat (maxRecent c)) as [|k] eqn:E; [lia|].
  simpl. rewrite Nat.sub_0_r. f_equal.
  destruct plays as [|q plays].
  - simpl. now rewrite (firstSeen_distinct _ Hnd).
  - rewrite IH by discriminate. apply firstn_drop_firstn, firstSeen_NoDup.
Qed.

(** X6: after any non-empty run of launches, starting from a recent
    list without repetition and with a cap of at least 1, the recent
    list is the most recently launched distinct paths, latest first,
    followed by what is left of the old list, cut to the cap: it never
    repeats a path, never exceeds the cap, starts with the game launched
    last, and the cap itself is never changed. *)
Theorem recent_list_is_latest_distinct c plays :
  (1 <= maxRecent c)%Z -> NoDup (recentGames c) -> plays <> [] ->
  let recent := recentGames (played plays c) in
  recent = firstn (Z.to_nat (maxRecent c)) (firstSeen (rev plays ++ recentGames c)) /\
  NoDup recent /\
  (List.length recent <= Z.to_nat (maxRecent c))%nat /\
  hd_error recent = Some (last plays "") /\
  maxRecent (played plays c) = maxRecent c.
Proof.
  intros Hcap Hnd Hne recent.
  assert (recent = firstn (Z.to_nat (maxRecent c)) (firstSeen (rev plays ++ recentGames c)))
    as E by (now apply played_recent).
  split; [exact E|]. rewrite E. split; [apply firstn_NoDup, firstSeen_NoDup|].
  split; [apply firstn_le_length|]. split; [|apply played_maxRecent].
  destruct (exists_last Hne) as (ps & p & ->).
  rewrite last_last, rev_app_distr. simpl.
  destruct (Z.to_nat (maxRecent c)) eqn:Ek; [lia | reflexivity].
Qed.

Lemma recent_list_is_latest_distinct_witness :
  recentGames (played ["C"; "D"; "C"; "A"] threeRecent) = ["A"; "C"; "D"] /\
  hd_error (recentGames (played ["C"; "D"; "C"; "A"] threeRecent)) = Some "A".
Proof.
  destruct (recent_list_is_latest_distinct threeRecent ["C"; "D"; "C"; "A"])
    as (E & _ & _ & H & _).
  - simpl. lia.
  - simpl. repeat constructor; simpl; intuition discriminate.
  - discriminate.
  - split; [exact E | exact H].
Defined.

(** ** Page moves and the current entry *)

Lemma setSelected_selected st : setSelected st (selected st) = st.
Proof. now destruct st. Qed.

Lemma listLength_nonneg st : (0 <= listLength st)%Z.
Proof. unfold listLength. destruct (sortedRoms st); lia. Qed.

Lemma select_onScreen st i : onScreen (select st i).
Proof.
  unfold onScreen. rewrite select_selected_row.
  change (lastRow (select st i)) with (lastRow st). lia.
Qed.

Lemma navigateDown_row st :
  inRange st -> onScreen st ->
  _navigateDown st =
  setSelected st
    (Z.max 0 (Z.min (selected st + 1)
                    (Z.min (listLength st - 1) (Z.of_nat (lastRow st))))).
Proof.
  intros [H0 H1] Hs. unfold onScreen in Hs. pose proof (listLength_nonneg st) as Hl.
  unfold _navigateDown. fold (listLength st).
  destruct (Z.ltb_spec (selected st + 1) (listLength st)) as [Hlt|Hge].
  - unfold select. cbv zeta.
    destruct (Z.ltb_spec (selected st + 1) 0); [lia|].
    destruct (Z.geb_spec (selected st + 1) (Z.of_nat (lastRow st) + 1)); f_equal; lia.
  - rewrite <- (setSelected_selected st) at 1. f_equal. lia.
Qed.

Lemma navigateUp_row st :
  onScreen st -> _navigateUp st = setSelected st (Z.max (selected st - 1) 0).
Proof.
  intros Hs. unfold onScreen in Hs. unfold _navigateUp.
  destruct (Z.geb_spec (selected st - 1) 0) as [Hge|Hlt].
  - rewrite select_inside by lia. f_equal. lia.
  - rewrite <- (setSelected_selected st) at 1. f_equal. lia.
Qed.

Lemma setSelected_onScreen st i :
  (0 <= i <= Z.of_nat (lastRow st))%Z -> onScreen (setSelected st i).
Proof. intros H. exact H. Qed.

Lemma times_navigateDown n : forall st,
  inRange st -> onScreen st ->
  times n _navigateDown st =
  setSelected st
    (Z.max 0 (Z.min (selected st + Z.of_nat n)
                    (Z.min (listLength st - 1) (Z.of_nat (lastRow st))))).
Proof.
  induction n as [|n IH]; intros st Hr Hs.
  - simpl times. rewrite <- (setSelected_selected st) at 1. f_equal.
    destruct Hr as [H0 H1]. unfold onScreen in Hs.
    pose proof (listLength_nonneg st). lia.
  - change (times (S n) _navigateDown st) with (times n _navigateDown (_navigateDown st)).
    pose proof (navigateDown_inRange st Hr) as Hr'.
    rewrite (navigateDown_row st Hr Hs) in *.
    set (i := Z.max 0 (Z.min (selected st + 1)
                        (Z.min (listLength st - 1) (Z.of_nat (lastRow st))))) in *.
    assert (onScreen (setSelected st i)) as Hs'
      by (apply setSelected_onScreen; unfold i, onScreen in *; lia).
    rewrite (IH _ Hr' Hs').
    change (listLength (setSelected st i)) with (listLength st).
    change (lastRow (setSelected st i)) with (lastRow st).
    change (selected (setSelected st i)) with i.
    change (setSelected (setSelected st i) ?x) with (setSelected st x).
    f_equal. destruct Hr as [H0 H1]. unfold onScreen in Hs.
    pose proof (listLength_nonneg st). unfold i. lia.
Qed.

Lemma navigateUp_onScreen st : onScreen st -> onScreen (_navigateUp st).
Proof.
  intros Hs. rewrite (navigateUp_row st Hs).
  apply setSelected_onScreen. unfold onScreen in Hs. lia.
Qed.

Lemma times_navigateUp n : forall st,
  onScreen st ->
  times n _navigateUp st = setSelected st (Z.max (selected st - Z.of_nat n) 0).
Proof.
  induction n as [|n IH]; intros st Hs.
  - simpl times. rewrite <- (setSelected_selected st) at 1. f_equal.
    unfold onScreen in Hs. lia.
  - change (times (S n) _navigateUp st) with (times n _navigateUp (_navigateUp st)).
    pose proof (navigateUp_onScreen st Hs) as Hs'.
    rewrite (navigateUp_row st Hs) in *.
    rewrite (IH _ Hs').
    change (selected (setSelected st ?i)) with i.
    change (setSelected (setSelected st ?i) ?x) with (setSelected st x).
    f_equal. unfold onScreen in Hs. lia.
Qed.

(** Sample states are checked by computation. *)
Lemma inRange_check st :
  (if (listLength st =? 0)%Z then (selected st =? 0)%Z
   else (0 <=? selected st)%Z && (selected st <? listLength st)%Z) = true ->
  inRange st.
Proof.
  unfold inRange. destruct (Z.eqb_spec (listLength st) 0) as [E|E]; intros H.
  - apply Z.eqb_eq in H. lia.
  - apply andb_prop in H as [H1 H2]. apply Z.leb_le in H1. apply Z.ltb_lt in H2. lia.
Qed.

Lemma onScreen_check st :
  (0 <=? selected st)%Z && (selected st <=? Z.of_nat (lastRow st))%Z = true ->
  onScreen st.
Proof.
  unfold onScreen. intros H. apply andb_prop in H as [H1 H2].
  apply Z.leb_le in H1, H2. lia.
Qed.

(** X7: a page move jumps the highlight by ten rows and stops at the
    ends. From a highlight that is inside the list and is a row of the
    widget, the right shoulder button leaves it at [selected + 10], or
    at the last entry of the list, or at the last row the widget holds
    when that comes first (the widget holds fewer rows than the list
    after a refresh that found no game); the left one leaves it at
    [max (selected - 10) 0]; nothing else of the launcher changes. When
    the widget shows the list, row for row, page down ends at
    [min (selected + 10) (length - 1)]. *)
Theorem page_moves_jump_ten_rows st :
  inRange st -> onScreen st ->
  applyMove st PageDownMove =
    setSelected st
      (Z.max 0 (Z.min (selected st + 10)
                      (Z.min (listLength st - 1) (Z.of_nat (lastRow st))))) /\
  applyMove st PageUpMove = setSelected st (Z.max (selected st - 10) 0) /\
  (listLength st = Z.of_nat (lastRow st) + 1 ->
   selected (applyMove st PageDownMove) =
     Z.min (selected st + 10) (listLength st - 1))%Z.
Proof.
  intros Hr Hs.
  pose proof (times_navigateDown 10 st Hr Hs) as Hd.
  pose proof (times_navigateUp 10 st Hs) as Hu.
  split; [exact Hd|]. split; [exact Hu|].
  intros Hrows. unfold applyMove. rewrite Hd.
  change (selected (setSelected st ?i)) with i.
  unfold onScreen in Hs. change (Z.of_nat 10) with 10%Z.
  lia.
Qed.

Lemma page_moves_jump_ten_rows_witness :
  selected (applyMove browsing PageDownMove) = 2%Z /\
  selected (applyMove (setItems browsing 2) PageDownMove) = 1%Z /\
  selected (applyMove (select browsing 2) PageUpMove) = 0%Z.
Proof.
  destruct (page_moves_jump_ten_rows browsing) as (H1 & _ & _);
    [apply inRange_check; reflexivity | apply onScreen_check; reflexivity |].
  destruct (page_moves_jump_ten_rows (setItems browsing 2)) as (H2 & _ & _);
    [apply inRange_check; reflexivity | apply onScreen_check; reflexivity |].
  destruct (page_moves_jump_ten_rows (select browsing 2)) as (_ & H3 & _);
    [apply inRange_check; reflexivity | apply onScreen_check; reflexivity |].
  rewrite H1, H2, H3. repeat split.
Defined.

Lemma inRange_current st l :
  inRange st -> sortedRoms st = Some l -> l <> [] ->
  exists r, _getSelectedRom st (selected st) = Some r /\
            nth_error l (Z.to_nat (selected st)) = Some r /\ In r l.
Proof.
  intros [_ H1] Hl Hne. unfold listLength in H1. rewrite Hl in H1.
  assert (0 <= selected st < Z.of_nat (List.length l))%Z as Hs
    by (apply H1; destruct l; [congruence | simpl; lia]).
  destruct (nth_error l (Z.to_nat (selected st))) as [r|] eqn:E.
  - exists r. unfold _getSelectedRom, at_. rewrite Hl.
    destruct (Z.ltb_spec (selected st) 0); [lia|].
    repeat split; auto. now apply nth_error_In in E.
  - apply nth_error_None in E. lia.
Qed.

(** X8: while a list with at least one row is shown, there is always
    a current entry: after any sequence of steps and page moves from a
    highlight inside the list, [_getSelectedRom] at the highlight
    returns the row of the list at that index. *)
Theorem current_entry_after_moves (moves : list Move) st l :
  inRange st -> sortedRoms st = Some l -> l <> [] ->
  let st' := fold_left applyMove moves st in
  exists r, _getSelectedRom st' (selected st') = Some r /\
            nth_error l (Z.to_nat (selected st')) = Some r /\ In r l.
Proof.
  intros H Hl Hne st'.
  assert (inRange st' /\ sortedRoms st' = sortedRoms st) as [Hr Hs].
  { unfold st'. clear st' Hl. revert st H.
    induction moves as [|m moves IH]; intros st H; simpl; [auto|].
    destruct (applyMove_keeps st m H) as [Hm Hlm].
    destruct (IH _ Hm) as [H1 H2]. split; [exact H1 | congruence]. }
  apply inRange_current; [exact Hr | congruence | exact Hne].
Qed.

Lemma current_entry_after_moves_witness :
  exists r,
    _getSelectedRom (fold_left applyMove [PageDownMove; StepUp] browsing)
      (selected (fold_left applyMove [PageDownMove; StepUp] browsing)) = Some r /\
    nth_error [game1; game2; zelda]
      (Z.to_nat (selected (fold_left applyMove [PageDownMove; StepUp] browsing))) = Some r /\
    In r [game1; game2; zelda].
Proof.
  apply (current_entry_after_moves [PageDownMove; StepUp] browsing [game1; game2; zelda]).
  - split; simpl; lia.
  - reflexivity.
  - discriminate.
Defined.

(** ** Systems: grouping and switching *)

Lemma ascii_compare_le_trans a b c :
  Ascii.compare a b <> Gt -> Ascii.compare b c <> Gt -> Ascii.compare a c <> Gt.
Proof.
  unfold Ascii.compare. rewrite !N.compare_gt_iff. lia.
Qed.

Lemma codeUnitLe_trans a : forall b c, codeUnitLe a b -> codeUnitLe b c -> codeUnitLe a c.
Proof.
  unfold codeUnitLe.
  induction a as [|x a IH]; intros [|y b] [|z c]; simpl; try congruence.
  destruct (Ascii.compare x y) eqn:Exy; try congruence;
    destruct (Ascii.compare y z) eqn:Eyz; try congruence; intros Hab Hbc.
  - apply Ascii.compare_eq_iff in Exy, Eyz. subst.
    assert (Ascii.compare z z = Eq) as -> by (unfold Ascii.compare; apply N.compare_refl).
    now apply (IH b c).
  - apply Ascii.compare_eq_iff in Exy. subst. now rewrite Eyz.
  - apply Ascii.compare_eq_iff in Eyz. subst. now rewrite Exy.
  - assert (Ascii.compare x z = Lt) as ->; [|discriminate].
    unfold Ascii.compare in *. rewrite N.compare_lt_iff in *. lia.
Qed.

Lemma codeUnitLe_total a b : codeUnitLe a b \/ codeUnitLe b a.
Proof.
  unfold codeUnitLe. rewrite (String.compare_antisym b a).
  destruct (String.compare a b); simpl; [left | left | right]; discriminate.
Qed.

Lemma insertString_perm s l : Permutation (insertString s l) (s :: l).
Proof.
  induction l as [|x l IH]; simpl; [reflexivity|].
  destruct (String.compare s x); try reflexivity.
  rewrite IH. apply perm_swap.
Qed.

Lemma sortStrings_perm l : Permutation (sortStrings l) l.
Proof.
  induction l as [|x l IH]; simpl; [reflexivity|].
  rewrite insertString_perm. now constructor.
Qed.

Lemma insertString_sorted s l :
  StronglySorted codeUnitLe l -> StronglySorted codeUnitLe (insertString s l).
Proof.
  induction 1 as [|x l Hs IH Hx]; simpl; [repeat constructor|].
  assert (codeUnitLe s x ->
          StronglySorted codeUnitLe (s :: x :: l)) as Hfront.
  { intros Hle. constructor; [now constructor|]. constructor; [exact Hle|].
    rewrite Forall_forall in *. intros y Hy. apply (codeUnitLe_trans s x y); auto. }
  destruct (String.compare s x) eqn:E.
  - apply Hfront. unfold codeUnitLe. congruence.
  - apply Hfront. unfold codeUnitLe. congruence.
  - constructor; [exact IH|].
    rewrite Forall_forall in *. intros y Hy.
    apply (Permutation_in _ (insertString_perm s l)) in Hy as [<-|Hy]; [|now apply Hx].
    unfold codeUnitLe. rewrite String.compare_antisym, E. discriminate.
Qed.

Lemma sortStrings_sorted l : StronglySorted codeUnitLe (sortStrings l).
Proof.
  induction l as [|x l IH]; simpl; [constructor | now apply insertString_sorted].
Qed.

Lemma groupOf_map f groups s :
  groupOf (map (fun g : string * list Rom => (fst g, f (snd g))) groups) s =
  option_map f (groupOf groups s).
Proof.
  induction groups as [|[k g] groups IH]; simpl; [reflexivity|].
  destruct (String.eqb k s); [reflexivity | exact IH].
Qed.

Lemma ofSystem_In s roms r : In r (ofSystem s roms) <-> In r roms /\ system r = s.
Proof. unfold ofSystem. rewrite filter_In, String.eqb_eq. tauto. Qed.

Lemma groups_key roms s :
  In s (map fst (fold_left pushGroup roms [])) <-> exists r, In r roms /\ system r = s.
Proof.
  rewrite <- groupOf_key, groupOf_fold. simpl. split.
  - destruct (ofSystem s roms) as [|r l] eqn:E; [congruence|]. intros _.
    exists r. apply ofSystem_In. rewrite E. now left.
  - intros (r & Hr). apply ofSystem_In in Hr.
    destruct (ofSystem s roms); [destruct Hr | discriminate].
Qed.

Lemma groups_group roms s :
  In s (map fst (fold_left pushGroup roms [])) ->
  groupOf (fold_left pushGroup roms []) s = Some (ofSystem s roms).
Proof.
  intros H. apply groupOf_key in H. rewrite groupOf_fold in *. simpl in *.
  now destruct (ofSystem s roms).
Qed.

Lemma groupRomsBySystem_systems cmp st s :
  In s (systems (_groupRomsBySystem cmp st)) <->
  In s (map fst (fold_left pushGroup (roms st) [])).
Proof.
  unfold _groupRomsBySystem. simpl systems. split; intros H.
  - now apply (Permutation_in _ (sortStrings_perm _)).
  - now apply (Permutation_in _ (Permutation_sym (sortStrings_perm _))).
Qed.

Lemma groupRomsBySystem_group cmp st s :
  In s (systems (_groupRomsBySystem cmp st)) ->
  groupOf (systemRoms (_groupRomsBySystem cmp st)) s =
    Some (sortByName cmp (ofSystem s (roms st))).
Proof.
  intros H. apply groupRomsBySystem_systems in H.
  unfold _groupRomsBySystem. simpl systemRoms.
  now rewrite groupOf_map, (groups_group _ _ H).
Qed.

Lemma groupRomsBySystem_count cmp st :
  List.length (systems (_groupRomsBySystem cmp st)) =
  List.length (getSystemGroups (roms st)).
Proof.
  unfold _groupRomsBySystem, getSystemGroups. simpl systems.
  now rewrite (Permutation_length (sortStrings_perm _)), length_map.
Qed.

(** X9: for a catalog whose systems are names of the extension
    table and a consistent [localeCompare], [_groupRomsBySystem] lists
    the systems of the catalog, each once, in code-unit order, and files
    under each system the catalog's entries of that system sorted by
    name; the catalog, the system index and the list on screen are left
    as they were. *)
Theorem systems_listed_in_order cmp st :
  consistent cmp -> Forall tableSystem (roms st) ->
  let st' := _groupRomsBySystem cmp st in
  StronglySorted codeUnitLe (systems st') /\
  NoDup (systems st') /\
  (forall s, In s (systems st') <-> exists r, In r (roms st) /\ system r = s) /\
  (forall s, In s (systems st') ->
     groupOf (systemRoms st') s = Some (sortByName cmp (ofSystem s (roms st)))) /\
  roms st' = roms st /\ currentSystemIndex st' = currentSystemIndex st /\
  sortedRoms st' = sortedRoms st.
Proof.
  intros _ _ st'. split; [apply sortStrings_sorted|]. split.
  - apply (Permutation_NoDup (Permutation_sym (sortStrings_perm _))).
    apply keys_fold_NoDup. constructor.
  - split; [|split; [|repeat split]].
    + intros s. unfold st'. rewrite groupRomsBySystem_systems. apply groups_key.
    + intros s. apply groupRomsBySystem_group.
Qed.

Lemma systems_listed_in_order_witness :
  systems (_groupRomsBySystem compareLengths twoSystems) = ["Genesis"; "NES"] /\
  NoDup (systems (_groupRomsBySystem compareLengths twoSystems)).
Proof.
  destruct (systems_listed_in_order compareLengths twoSystems) as (_ & H & _).
  - exact compareLengths_consistent.
  - apply tableSystem_check. reflexivity.
  - split; [reflexivity | exact H].
Defined.

(** ** Switching between systems *)

Lemma setCurrentSystemIndex_same st : setCurrentSystemIndex st (currentSystemIndex st) = st.
Proof. now destruct st. Qed.

Lemma showCurrentSystem_ok st l :
  systems st <> [] -> groupAt st (currentSystemIndex st) = Some l ->
  _showCurrentSystem st = Ok tt (showing st l).
Proof.
  intros Hne Hg. unfold _showCurrentSystem, bindM, modify, get, groupAt in *.
  simpl. destruct (systems st) as [|s0 rest] eqn:Es; [congruence|]. simpl.
  destruct (at_ (s0 :: rest) (currentSystemIndex st)) as [s|]; [|discriminate].
  rewrite Hg. reflexivity.
Qed.

Lemma showCurrentSystem_throws st :
  systems st <> [] -> groupAt st (currentSystemIndex st) = None ->
  _showCurrentSystem st = Threw (setSortedRoms (setCurrentView st SystemView) None).
Proof.
  intros Hne Hg. unfold _showCurrentSystem, bindM, modify, get, groupAt in *.
  simpl. destruct (systems st) as [|s0 rest] eqn:Es; [congruence|]. simpl.
  destruct (at_ (s0 :: rest) (currentSystemIndex st)) as [s|]; [rewrite Hg|]; reflexivity.
Qed.

Lemma at_inside {A} (l : list A) i :
  (0 <= i < Z.of_nat (List.length l))%Z -> exists x, at_ l i = Some x /\ In x l.
Proof.
  intros H. unfold at_. destruct (Z.ltb_spec i 0); [lia|].
  destruct (nth_error l (Z.to_nat i)) as [x|] eqn:E.
  - exists x. split; [reflexivity | now apply nth_error_In in E].
  - apply nth_error_None in E. lia.
Qed.

Lemma at_outside {A} (l : list A) i :
  ~ (0 <= i < Z.of_nat (List.length l))%Z -> at_ l i = None.
Proof.
  intros H. unfold at_. destruct (Z.ltb_spec i 0); [reflexivity|].
  apply nth_error_None. lia.
Qed.

Lemma groupAt_inside st i :
  grouped st -> (0 <= i < systemCount st)%Z -> exists l, groupAt st i = Some l.
Proof.
  intros Hg Hi. destruct (at_inside (systems st) i Hi) as (s & Hs & Hin).
  unfold groupAt. rewrite Hs. specialize (Hg s Hin).
  destruct (groupOf (systemRoms st) s) as [l|]; [now exists l | congruence].
Qed.

Lemma systems_nonempty st : (0 < systemCount st)%Z -> systems st <> [].
Proof. unfold systemCount. destruct (systems st); simpl; [lia | discriminate]. Qed.

Lemma navigateNextSystem_step st :
  currentView st = SystemView -> systemInRange st ->
  _navigateNextSystem st =
  _showCurrentSystem
    (setCurrentSystemIndex st ((currentSystemIndex st + 1) mod systemCount st)).
Proof.
  intros Hv Hi. unfold systemInRange, systemCount in *.
  unfold _navigateNextSystem, bindM, get, modify. rewrite Hv. simpl.
  destruct (Nat.eqb_spec (List.length (systems st)) 0) as [E|_]; [lia|].
  destruct (Z.geb_spec (currentSystemIndex st + 1) (Z.of_nat (List.length (systems st))))
    as [Hge|Hlt].
  - replace (currentSystemIndex st + 1)%Z with (Z.of_nat (List.length (systems st))) by lia.
    rewrite Z.mod_same by lia. reflexivity.
  - rewrite Z.mod_small by lia. reflexivity.
Qed.

Lemma navigatePrevSystem_step st :
  currentView st = SystemView -> systemInRange st ->
  _navigatePrevSystem st =
  _showCurrentSystem
    (setCurrentSystemIndex st ((currentSystemIndex st - 1) mod systemCount st)).
Proof.
  intros Hv Hi. unfold systemInRange, systemCount in *.
  unfold _navigatePrevSystem, bindM, get, modify. rewrite Hv. simpl.
  destruct (Nat.eqb_spec (List.length (systems st)) 0) as [E|_]; [lia|].
  destruct (Z.ltb_spec (currentSystemIndex st - 1) 0) as [Hlt|Hge].
  - rewrite <- (Z.mod_unique (currentSystemIndex st - 1) (Z.of_nat (List.length (systems st)))
                  (-1) (Z.of_nat (List.length (systems st)) - 1)) by lia.
    reflexivity.
  - rewrite Z.mod_small by lia. reflexivity.
Qed.

(** Switching to the system at index [j]. *)
Lemma switch_to st j :
  grouped st -> (0 <= j < systemCount st)%Z ->
  exists l, groupAt st j = Some l /\
    _showCurrentSystem (setCurrentSystemIndex st j) =
      Ok tt (showing (setCurrentSystemIndex st j) l).
Proof.
  intros Hg Hj. destruct (groupAt_inside st j Hg Hj) as [l Hl].
  exists l. split; [exact Hl|].
  apply showCurrentSystem_ok; [apply (systems_nonempty st); lia | exact Hl].
Qed.

Lemma next_times k : forall st,
  grouped st -> currentView st = SystemView -> systemInRange st ->
  exists l,
    groupAt st ((currentSystemIndex st + Z.of_nat (S k)) mod systemCount st) = Some l /\
    repeatM (S k) _navigateNextSystem st =
      Ok tt (showing (setCurrentSystemIndex st
               ((currentSystemIndex st + Z.of_nat (S k)) mod systemCount st)) l).
Proof.
  induction k as [|k IH]; intros st Hg Hv Hi.
  - assert (0 <= (currentSystemIndex st + 1) mod systemCount st < systemCount st)%Z as Hj
      by (apply Z.mod_pos_bound; unfold systemInRange in Hi; lia).
    destruct (switch_to st _ Hg Hj) as (l & Hl & E).
    exists l. split; [exact Hl|].
    change (repeatM 1 _navigateNextSystem st) with
      (bindM _navigateNextSystem (fun _ => ret tt) st).
    unfold bindM. rewrite (navigateNextSystem_step st Hv Hi), E. reflexivity.
  - assert (0 <= (currentSystemIndex st + 1) mod systemCount st < systemCount st)%Z as Hj
      by (apply Z.mod_pos_bound; unfold systemInRange in Hi; lia).
    destruct (switch_to st _ Hg Hj) as (l1 & Hl1 & E).
    change (repeatM (S (S k)) _navigateNextSystem st) with
      (bindM _navigateNextSystem (fun _ => repeatM (S k) _navigateNextSystem) st).
    unfold bindM at 1. rewrite (navigateNextSystem_step st Hv Hi), E.
    set (st1 := showing _ l1).
    destruct (IH st1) as (l & Hl & E1); [exact Hg | reflexivity | exact Hj |].
    change (systemCount st1) with (systemCount st) in *.
    change (currentSystemIndex st1)
      with ((currentSystemIndex st + 1) mod systemCount st)%Z in *.
    replace (((currentSystemIndex st + 1) mod systemCount st + Z.of_nat (S k))
               mod systemCount st)%Z
      with ((currentSystemIndex st + Z.of_nat (S (S k))) mod systemCount st)%Z in *
      by (rewrite Z.add_mod_idemp_l by (unfold systemInRange in Hi; lia); f_equal; lia).
    exists l. split; [exact Hl | exact E1].
Qed.

(** X10: in the system view of a grouped catalog, the right key moves
    to the next system and the left key to the previous one, wrapping
    around at both ends; each switch shows that system's list with the
    first row highlighted; left undoes right and right undoes left; and
    pressing right once for every system comes back to where it
    started. *)
Theorem system_switch_wraps st :
  grouped st -> currentView st = SystemView -> systemInRange st ->
  let i := currentSystemIndex st in
  let n := systemCount st in
  (forall k, exists l,
      groupAt st ((i + Z.of_nat (S k)) mod n) = Some l /\
      repeatM (S k) _navigateNextSystem st =
        Ok tt (showing (setCurrentSystemIndex st ((i + Z.of_nat (S k)) mod n)) l)) /\
  (exists l,
      groupAt st ((i - 1) mod n) = Some l /\
      _navigatePrevSystem st =
        Ok tt (showing (setCurrentSystemIndex st ((i - 1) mod n)) l)) /\
  (_navigateNextSystem ;; _navigatePrevSystem) st = _showCurrentSystem st /\
  (_navigatePrevSystem ;; _navigateNextSystem) st = _showCurrentSystem st /\
  repeatM (List.length (systems st)) _navigateNextSystem st = _showCurrentSystem st.
Proof.
  intros Hg Hv Hi i n.
  assert (0 < n)%Z as Hn by (unfold systemInRange in Hi; fold n in Hi; lia).
  assert (0 <= i < n)%Z as Hi' by exact Hi.
  assert (0 <= (i + 1) mod n < n)%Z as Hnext by (apply Z.mod_pos_bound; lia).
  assert (0 <= (i - 1) mod n < n)%Z as Hprev by (apply Z.mod_pos_bound; lia).
  destruct (groupAt_inside st i Hg Hi') as [l0 Hl0].
  assert (_showCurrentSystem st = Ok tt (showing st l0)) as Hshow
    by (apply showCurrentSystem_ok; [apply systems_nonempty; exact Hn | exact Hl0]).
  assert (forall j l, showing (setCurrentSystemIndex (showing (setCurrentSystemIndex st j) l) i) l0
                      = showing st l0) as Hback.
  { intros j l. unfold i. now destruct st. }
  split; [intros k; now apply next_times|]. split; [|split; [|split]].
  - destruct (switch_to st _ Hg Hprev) as (l & Hl & E).
    exists l. split; [exact Hl|]. now rewrite (navigatePrevSystem_step st Hv Hi).
  - destruct (switch_to st _ Hg Hnext) as (l & Hl & E).
    unfold bindM. rewrite (navigateNextSystem_step st Hv Hi). fold i n. rewrite E.
    set (st1 := showing _ l).
    rewrite (navigatePrevSystem_step st1); [|reflexivity | exact Hnext].
    change (systemCount st1) with n. change (currentSystemIndex st1) with ((i + 1) mod n)%Z.
    replace (((i + 1) mod n - 1) mod n)%Z with i
      by (rewrite Zminus_mod_idemp_l; replace (i + 1 - 1)%Z with i by lia;
          now rewrite Z.mod_small).
    rewrite Hshow, <- (Hback ((i + 1) mod n)%Z l).
    apply showCurrentSystem_ok; [apply (systems_nonempty st); exact Hn | exact Hl0].
  - destruct (switch_to st _ Hg Hprev) as (l & Hl & E).
    unfold bindM. rewrite (navigatePrevSystem_step st Hv Hi). fold i n. rewrite E.
    set (st1 := showing _ l).
    rewrite (navigateNextSystem_step st1); [|reflexivity | exact Hprev].
    change (systemCount st1) with n. change (currentSystemIndex st1) with ((i - 1) mod n)%Z.
    replace (((i - 1) mod n + 1) mod n)%Z with i
      by (rewrite Z.add_mod_idemp_l by lia; replace (i - 1 + 1)%Z with i by lia;
          now rewrite Z.mod_small).
    rewrite Hshow, <- (Hback ((i - 1) mod n)%Z l).
    apply showCurrentSystem_ok; [apply (systems_nonempty st); exact Hn | exact Hl0].
  - destruct (List.length (systems st)) as [|k] eqn:Ek;
      [unfold n, systemCount in Hn; rewrite Ek in Hn; simpl in Hn; lia|].
    destruct (next_times k st Hg Hv Hi) as (l & Hl & E). rewrite E.
    fold i n in Hl |- *.
    assert ((i + Z.of_nat (S k)) mod n = i)%Z as Hi0.
    { unfold n, systemCount. rewrite Ek.
      rewrite <- (Z.mul_1_l (Z.of_nat (S k))) at 1.
      rewrite Z.mod_add by lia. apply Z.mod_small.
      unfold n, systemCount in Hi'. now rewrite Ek in Hi'. }
    rewrite Hi0 in *. rewrite Hshow. f_equal.
    assert (l = l0) as -> by congruence.
    unfold i. now rewrite setCurrentSystemIndex_same.
Qed.

Lemma system_switch_wraps_witness :
  (_navigateNextSystem ;; _navigatePrevSystem) (_groupRomsBySystem compareNames twoSystems)
    = _showCurrentSystem (_groupRomsBySystem compareNames twoSystems) /\
  repeatM 2 _navigateNextSystem (_groupRomsBySystem compareNames twoSystems)
    = _showCurrentSystem (_groupRomsBySystem compareNames twoSystems).
Proof.
  destruct (system_switch_wraps (_groupRomsBySystem compareNames twoSystems))
    as (_ & _ & H1 & _ & H2).
  - intros s Hs. rewrite (groupRomsBySystem_group _ _ _ Hs). discriminate.
  - reflexivity.
  - unfold systemInRange, systemCount. simpl. lia.
  - split; [exact H1 | exact H2].
Defined.

(** ** Refreshing the catalog *)

Lemma groupRomsBySystem_grouped cmp st : grouped (_groupRomsBySystem cmp st).
Proof. intros s Hs. rewrite (groupRomsBySystem_group _ _ _ Hs). discriminate. Qed.

Lemma groupRomsBySystem_nonempty cmp st :
  roms st <> [] -> systems (_groupRomsBySystem cmp st) <> [].
Proof.
  intros Hne E. destruct (roms st) as [|r l] eqn:Er; [congruence|].
  assert (In (system r) (systems (_groupRomsBySystem cmp st))) as Hin.
  { apply groupRomsBySystem_systems, groups_key. exists r. rewrite Er. split; [now left | reflexivity]. }
  rewrite E in Hin. destruct Hin.
Qed.

(** X11: a refresh keeps the system index ([localeCompare] being
    consistent). When the new scan finds
    games and the index still names one of the systems found, the
    refresh ends in the system view of that system: the games of the
    new catalog of that system, sorted by name, first row highlighted.
    When the new catalog has fewer systems than the index, the refresh
    throws, with the new catalog stored and no list to show. *)
Theorem refresh_keeps_system_index cmp disk st dir rest found :
  consistent cmp ->
  loading st = dir :: rest -> scan cmp disk dir = Done found -> found <> [] ->
  let i := currentSystemIndex st in
  let n := Z.of_nat (List.length (getSystemGroups found)) in
  ((0 <= i < n)%Z ->
     exists st' s,
       loadRomsResumed cmp disk st = Ok tt st' /\
       roms st' = found /\ loading st' = rest /\
       currentSystemIndex st' = i /\ at_ (systems st') i = Some s /\
       sortedRoms st' = Some (sortByName cmp (ofSystem s found)) /\
       ofSystem s found <> [] /\
       selected st' = 0%Z /\ currentView st' = SystemView) /\
  (~ (0 <= i < n)%Z ->
     exists st',
       loadRomsResumed cmp disk st = Threw st' /\
       roms st' = found /\ sortedRoms st' = None).
Proof.
  intros _ Hload Hscan Hne i n.
  set (st1 := _groupRomsBySystem cmp (setRoms (setLoading st rest) found)).
  assert (loadRomsResumed cmp disk st = _showCurrentSystem st1) as Hrun.
  { unfold loadRomsResumed, bindM, get, modify. rewrite Hload, Hscan.
    destruct found; [congruence | reflexivity]. }
  assert (systems st1 <> []) as Hsys by (apply groupRomsBySystem_nonempty; exact Hne).
  assert (systemCount st1 = n) as Hn
    by (unfold systemCount, st1, n; now rewrite groupRomsBySystem_count).
  split.
  - intros Hi.
    destruct (at_inside (systems st1) i) as (s & Hs & Hin);
      [fold (systemCount st1); now rewrite Hn|].
    pose proof (groupRomsBySystem_group cmp _ s Hin) as Hg. fold st1 in Hg.
    exists (showing st1 (sortByName cmp (ofSystem s found))), s.
    split; [|repeat split; try exact Hs; try apply showRows_selected].
    + rewrite Hrun. apply showCurrentSystem_ok; [exact Hsys|].
      unfold groupAt. change (currentSystemIndex st1) with i. now rewrite Hs.
    + apply groupRomsBySystem_systems, groups_key in Hin as (r & Hr).
      apply ofSystem_In in Hr. intros E. simpl roms in Hr. rewrite E in Hr. destruct Hr.
  - intros Hi.
    exists (setSortedRoms (setCurrentView st1 SystemView) None).
    split; [|split; reflexivity].
    rewrite Hrun. apply showCurrentSystem_throws; [exact Hsys|].
    unfold groupAt. change (currentSystemIndex st1) with i.
    rewrite at_outside; [reflexivity|]. fold (systemCount st1). now rewrite Hn.
Qed.

Lemma refresh_keeps_system_index_witness :
  exists st',
    loadRomsResumed compareLengths gamesDisk
      (setLoading (setCurrentSystemIndex (construct threeRecent) 1) ["/roms"]) = Threw st' /\
    roms st' = [game1; game2] /\ sortedRoms st' = None.
Proof.
  destruct (refresh_keeps_system_index compareLengths gamesDisk
              (setLoading (setCurrentSystemIndex (construct threeRecent) 1) ["/roms"])
              "/roms" [] [game1; game2]) as [_ H].
  - exact compareLengths_consistent.
  - reflexivity.
  - reflexivity.
  - discriminate.
  - apply H. simpl. lia.
Defined.

(** ** Key repeat *)

Lemma repeat_window e :
  (0 < e)%Z ->
  (jsRem e 80 <? jsRem (e - 16) 80)%Z || (e <? 16)%Z = (e mod 80 <? 16)%Z.
Proof.
  intros He. unfold jsRem.
  destruct (Z.ltb_spec e 16) as [Hlt|Hge].
  - rewrite orb_true_r. rewrite Z.mod_small by lia. symmetry. now apply Z.ltb_lt.
  - rewrite orb_false_r. rewrite !Z.rem_mod_nonneg by lia.
    pose proof (Z.mod_pos_bound e 80 ltac:(lia)) as Hr.
    pose proof (Z.mod_pos_bound (e - 16) 80 ltac:(lia)) as Hp.
    pose proof (Z.div_mod e 80 ltac:(lia)) as Ee.
    pose proof (Z.div_mod (e - 16) 80 ltac:(lia)) as Ep.
    destruct (Z.ltb_spec (e mod 80) 16); [apply Z.ltb_lt | apply Z.ltb_ge]; lia.
Qed.

Lemma heldWithRepeat_held now key st since :
  holdTime st key = Some since -> since <> 0%Z ->
  heldWithRepeat now key true st =
    Ok ((300 <? now - since)%Z && ((now - since - 300) mod 80 <? 16)%Z) st.
Proof.
  intros Hh Hs. unfold heldWithRepeat. rewrite Hh.
  assert (forall (a b : Res bool), match since with 0%Z => a | _ => b end = b) as ->
    by (intros; destruct since; congruence).
  rewrite Z.gtb_ltb.
  destruct (Z.ltb_spec 300 (now - since)) as [Hlt|Hge]; [|reflexivity].
  rewrite repeat_window by lia. rewrite andb_true_l.
  now destruct (_ <? 16)%Z.
Qed.

(** X12: a direction or shoulder button that is held down repeats on
    a fixed grid: with the key down since [since], a poll at [now]
    repeats the move exactly when more than 300 ms have passed and the
    time past the delay falls in the first 16 ms of an 80 ms period; the
    stored press time is not moved. On the 16 ms poll timer this is no
    move for ticks 1 to 18 after the press, a move at tick 19 (304 ms)
    and a move at every fifth tick from there on. *)
Theorem held_key_repeat_schedule now key st since :
  holdTime st key = Some since -> since <> 0%Z ->
  heldWithRepeat now key true st =
    Ok ((300 <? now - since)%Z && ((now - since - 300) mod 80 <? 16)%Z) st /\
  (forall k : Z,
     heldWithRepeat (since + 16 * k) key true st =
       Ok ((19 <=? k)%Z && (k mod 5 =? 4)%Z) st).
Proof.
  intros Hh Hs. split; [now apply heldWithRepeat_held|].
  intros k. rewrite (heldWithRepeat_held _ key st since Hh Hs). f_equal.
  replace (since + 16 * k - since)%Z with (16 * k)%Z by lia.
  destruct (Z.leb_spec 19 k) as [Hk|Hk];
    destruct (Z.ltb_spec 300 (16 * k)) as [Hl|Hl]; try lia; try reflexivity.
  rewrite andb_true_l.
  pose proof (Z.mod_pos_bound k 5 ltac:(lia)) as Hr.
  pose proof (Z.div_mod k 5 ltac:(lia)) as Ek.
  pose proof (Z.mod_pos_bound (16 * k - 300) 80 ltac:(lia)) as Hp.
  pose proof (Z.div_mod (16 * k - 300) 80 ltac:(lia)) as Ep.
  destruct (Z.eqb_spec (k mod 5) 4); [apply Z.ltb_lt | apply Z.ltb_ge]; lia.
Qed.

Lemma held_key_repeat_schedule_witness :
  heldWithRepeat 1304 SDown true (setHoldTime browsing (fun _ => Some 1000%Z)) =
    Ok true (setHoldTime browsing (fun _ => Some 1000%Z)) /\
  heldWithRepeat 1320 SDown true (setHoldTime browsing (fun _ => Some 1000%Z)) =
    Ok false (setHoldTime browsing (fun _ => Some 1000%Z)).
Proof.
  destruct (held_key_repeat_schedule 1304 SDown
              (setHoldTime browsing (fun _ => Some 1000%Z)) 1000) as [H1 H2];
    [reflexivity | discriminate |].
  split; [exact H1 | exact (H2 20%Z)].
Defined.

(** ** What a poll tick can do *)




































(** ** The settings dialog is modal *)

Ltac split_ifs :=
  repeat match goal with
         | |- context [if ?b then _ else _] => destruct b eqn:?; simpl
         end.

Lemma setItems_onScreen st n : onScreen (setItems st n).
Proof. apply select_onScreen. Qed.

Lemma setItems_lastRow st n : lastRow (setItems st n) = Nat.pred n.
Proof. reflexivity. Qed.

(** What saving leaves as it was, and what the list widget shows then. *)
Lemma saveAndClose_effects disk d st :
  let st' := saveAndClose disk d st in
  (dispatched st' = dispatched st /\ sortedRoms st' = sortedRoms st /\
   currentView st' = currentView st /\
   currentSystemIndex st' = currentSystemIndex st /\
   holdTime st' = holdTime st /\ spawned st' = spawned st /\
   polling st' = polling st) /\
  onScreen st' /\ (lastRow st' = 4%nat \/ lastRow st' = 0%nat).
Proof.
  unfold saveAndClose, _loadRoms. cbv zeta.
  destruct (negb _).
  - split; [repeat split|]. split; [|now left].
    unfold onScreen.
    match goal with
    | |- context [setRoms (setItems ?X 5) []] =>
        change (selected (setRoms (setItems X 5) [])) with (selected (setItems X 5));
        change (lastRow (setRoms (setItems X 5) [])) with (lastRow (setItems X 5));
        apply (setItems_onScreen X 5)
    end.
  - split; [repeat split|]. split; [|now right].
    unfold onScreen.
    match goal with
    | |- context [setLoading (setItems ?X 1) ?l] =>
        change (selected (setLoading (setItems X 1) l)) with (selected (setItems X 1));
        change (lastRow (setLoading (setItems X 1) l)) with (lastRow (setItems X 1));
        apply (setItems_onScreen X 1)
    end.
Qed.

(** X14: while the settings dialog is open the pad drives the dialog
    only: a poll tick never throws, dispatches at most one command, and
    that one is a dialog command; the list behind the dialog, the view,
    the system index and the key-repeat timers are left alone, no game
    is started and the poll timer keeps running. The highlight and the
    rows of the list widget stay as they are on every tick but the one
    that saves: saving reloads the catalog, which puts the one row
    [Scanning ROMs...] or the five rows of the missing-directory message
    into the widget and lets it pick the highlight among them. *)
Theorem settings_dialog_is_modal disk st d pads now :
  settingsOpen st = true -> settingsState st = Some d ->
  exists st' cmds,
    pollTick disk pads now st = Ok tt st' /\
    dispatched st' = dispatched st ++ cmds /\
    (List.length cmds <= 1)%nat /\ forallb isDialogCommand cmds = true /\
    sortedRoms st' = sortedRoms st /\
    currentView st' = currentView st /\
    currentSystemIndex st' = currentSystemIndex st /\
    holdTime st' = holdTime st /\
    spawned st' = spawned st /\ polling st' = polling st /\
    (cmds <> [SaveAndClose] ->
       selected st' = selected st /\ lastRow st' = lastRow st) /\
    (cmds = [SaveAndClose] ->
       onScreen st' /\ (lastRow st' = 4%nat \/ lastRow st' = 0%nat)).
Proof.
  intros Ho Hd.
  pose (P := fun (st0 st' : Launcher) (cmds : list Command) =>
    dispatched st' = dispatched st0 ++ cmds /\
    (List.length cmds <= 1)%nat /\ forallb isDialogCommand cmds = true /\
    sortedRoms st' = sortedRoms st0 /\
    currentView st' = currentView st0 /\
    currentSystemIndex st' = currentSystemIndex st0 /\
    holdTime st' = holdTime st0 /\
    spawned st' = spawned st0 /\ polling st' = polling st0 /\
    (cmds <> [SaveAndClose] ->
       selected st' = selected st0 /\ lastRow st' = lastRow st0) /\
    (cmds = [SaveAndClose] ->
       onScreen st' /\ (lastRow st' = 4%nat \/ lastRow st' = 0%nat))).
  change (exists st' cmds, pollTick disk pads now st = Ok tt st' /\ P st st' cmds).
  assert (forall st0 st', dispatched st' = dispatched st0 ->
            sortedRoms st' = sortedRoms st0 -> currentView st' = currentView st0 ->
            currentSystemIndex st' = currentSystemIndex st0 ->
            holdTime st' = holdTime st0 -> spawned st' = spawned st0 ->
            polling st' = polling st0 -> selected st' = selected st0 ->
            lastRow st' = lastRow st0 -> P st0 st' []) as Hquiet.
  { intros st0 st' E1 E2 E3 E4 E5 E6 E7 E8 E9. unfold P. rewrite app_nil_r.
    repeat split; auto; discriminate. }
  assert (forall c st0 st', isDialogCommand c = true -> c <> SaveAndClose ->
            dispatched st' = dispatched st0 ++ [c] ->
            sortedRoms st' = sortedRoms st0 -> currentView st' = currentView st0 ->
            currentSystemIndex st' = currentSystemIndex st0 ->
            holdTime st' = holdTime st0 -> spawned st' = spawned st0 ->
            polling st' = polling st0 -> selected st' = selected st0 ->
            lastRow st' = lastRow st0 -> P st0 st' [c]) as Hone.
  { intros c st0 st' Hc Hne E1 E2 E3 E4 E5 E6 E7 E8 E9. unfold P. simpl.
    rewrite Hc. repeat split; auto; congruence. }
  assert (forall gamepads, exists st' cmds,
             _handleGamepadInput disk gamepads now st = Ok tt st' /\ P st st' cmds)
    as Hdialog.
  { intros [|gp rest]; [exists st, []; split; [reflexivity | now apply Hquiet]|].
    unfold _handleGamepadInput, bindM, get. rewrite Ho, Hd.
    unfold dialogInput, bindM, pressed, log, modify, ret, closeForm, onDialog.
    simpl. rewrite ?Hd.
    split_ifs; rewrite ?Hd; simpl;
      try (eexists; exists []; split; [reflexivity|]; now apply Hquiet);
      try (eexists; eexists; split; [reflexivity|];
           eapply Hone; cycle 2; [reflexivity .. | reflexivity | discriminate]).
    all: eexists; exists [SaveAndClose]; (split; [reflexivity|]).
    all: match goal with
         | |- context [saveAndClose ?dk ?dd ?Y] =>
             destruct (saveAndClose_effects dk dd Y)
               as ((E1 & E2 & E3 & E4 & E5 & E6 & E7) & E8 & E9)
         end.
    all: unfold P; rewrite E1, E2, E3, E4, E5, E6, E7;
      do 9 (split; [auto; reflexivity|]);
      (split; [intros Hne; exfalso; apply Hne; reflexivity | intros _; split; assumption]). }
  destruct (Hdialog (flat_map (fun gp => match gp with Some g => [g] | None => [] end) pads))
    as (st' & cmds & Hrun & HP).
  unfold pollTick, bindM, get.
  destruct (waitingForRelease st); [|exists st', cmds; split; assumption].
  destruct (flat_map _ pads) as [|gp rest] eqn:E;
    [exists st', cmds; split; assumption|].
  destruct (negb (anyPressed gp)).
  - unfold modify. eexists; exists []. split; [reflexivity | now apply Hquiet].
  - exists st, []. split; [reflexivity | now apply Hquiet].
Qed.

Lemma settings_dialog_is_modal_witness :
  exists st' cmds,
    pollTick gamesDisk [Some padA] 1000 settingsShown = Ok tt st' /\
    dispatched st' = dispatched settingsShown ++ cmds /\
    (List.length cmds <= 1)%nat /\ forallb isDialogCommand cmds = true /\
    sortedRoms st' = sortedRoms settingsShown /\
    currentView st' = currentView settingsShown /\
    currentSystemIndex st' = currentSystemIndex settingsShown /\
    holdTime st' = holdTime settingsShown /\
    spawned st' = spawned settingsShown /\ polling st' = polling settingsShown /\
    (cmds <> [SaveAndClose] ->
       selected st' = selected settingsShown /\ lastRow st' = lastRow settingsShown) /\
    (cmds = [SaveAndClose] ->
       onScreen st' /\ (lastRow st' = 4%nat \/ lastRow st' = 0%nat)).
Proof.
  apply (settings_dialog_is_modal gamesDisk settingsShown sampleDialog [Some padA] 1000);
    reflexivity.
Defined.

(** The save tick, run with the second of three rows highlighted behind
    the dialog: where the ROM directory exists the widget is left with
    the one row [Scanning ROMs...] and the highlight on it; where it is
    missing, with the five rows of the message. *)
Lemma save_tick_reselects :
  let st := stateOf (_showSettings (select browsing 1)) in
  let found := stateOf (pollTick homeDisk [Some padA] 1000 st) in
  let missing := stateOf (pollTick gamesDisk [Some padA] 1000 st) in
  (selected st = 1%Z /\ lastRow st = 2%nat) /\
  (dispatched found = dispatched st ++ [SaveAndClose] /\
   selected found = 0%Z /\ lastRow found = 0%nat /\ loading found = ["/home/u/roms"]) /\
  (dispatched missing = dispatched st ++ [SaveAndClose] /\
   lastRow missing = 4%nat /\ loading missing = []).
Proof. cbv zeta. repeat split; vm_compute; reflexivity. Qed.

(** ** Launching from the pad *)

Lemma sticksIdle_inv gp :
  sticksIdle gp = true ->
  PrimFloat.ltb (axisOrZero gp 1) (-0.5)%float = false /\
  PrimFloat.ltb 0.5%float (axisOrZero gp 1) = false /\
  PrimFloat.ltb (axisOrZero gp 0) (-0.5)%float = false /\
  PrimFloat.ltb 0.5%float (axisOrZero gp 0) = false.
Proof.
  unfold sticksIdle. intros H.
  apply andb_prop in H as [H H4]. apply andb_prop in H as [H H3].
  apply andb_prop in H as [H1 H2].
  rewrite negb_true_iff in *. auto.
Qed.

(** A key that is not held: its timer is cleared and nothing is done. *)
Lemma skip_hold {B} now key (m : M unit) (k : unit -> M B) st :
  bindM (heldWithRepeat now key false) (fun b => bindM (when b m) k) st =
  k tt (setHold key None st).
Proof. reflexivity. Qed.

(** A button that is up: the sample is remembered and nothing is done. *)
Lemma skip_button {B} bs idx (m : M unit) (k : unit -> M B) st :
  buttonPressed bs idx = false ->
  bindM (pressed bs idx) (fun b => bindM (when b m) k) st = k tt (setPrev idx false st).
Proof. intros H. unfold bindM, pressed, setPrev. now rewrite H. Qed.

Lemma skip_last_button bs idx (m : M unit) st :
  buttonPressed bs idx = false ->
  bindM (pressed bs idx) (fun b => when b m) st = Ok tt (setPrev idx false st).
Proof. intros H. unfold bindM, pressed, setPrev. now rewrite H. Qed.

(** A button that went down since the last sample: its handler runs. *)
Lemma fire_button {B} bs idx (m : M unit) (k : unit -> M B) st :
  buttonPressed bs idx = true -> prevButtons st idx = false ->
  bindM (pressed bs idx) (fun b => bindM (when b m) k) st = bindM m k (setPrev idx true st).
Proof. intros H Hp. unfold bindM at 1 2, pressed, setPrev. now rewrite H, Hp. Qed.

Lemma fire_last_button bs idx (m : M unit) st :
  buttonPressed bs idx = true -> prevButtons st idx = false ->
  bindM (pressed bs idx) (fun b => when b m) st = m (setPrev idx true st).
Proof. intros H Hp. unfold bindM, pressed, setPrev. now rewrite H, Hp. Qed.

Lemma launchSelected_current r st :
  _getSelectedRom st (selected st) = Some r ->
  launchSelected st = Ok tt (_launchGame r (setDispatched st (dispatched st ++ [Launch r]))).
Proof. intros H. unfold launchSelected, bindM, get, log, modify. now rewrite H. Qed.

Lemma bindM_Ok {A B} (m : M A) (k : A -> M B) st a st' :
  m st = Ok a st' -> bindM m k st = k a st'.
Proof. intros H. unfold bindM. now rewrite H. Qed.

Ltac launched st r :=
  match goal with
  | |- ?d = _ /\ ?p = _ /\ ?s = _ /\ ?g = _ /\ ?i = _ /\ ?l = _ /\ ?v = _ =>
      change (dispatched st ++ [Launch r] = dispatched st ++ [Launch r] /\
              addRecentGame (path r) (prefs st) = addRecentGame (path r) (prefs st) /\
              spawned st ++ [launchArgs (addRecentGame (path r) (prefs st)) r] =
                spawned st ++ [launchArgs (addRecentGame (path r) (prefs st)) r] /\
              false = false /\ selected st = selected st /\
              sortedRoms st = sortedRoms st /\ true = true)
  end;
  repeat split.

(** X15: with the gate open and the dialog closed, pressing A
    (button 0) or Start (button 9) alone, on a pad whose sticks are at
    rest, launches the entry under the highlight: the tick dispatches
    that one launch and nothing else, puts the entry's path at the front
    of the recent list, starts one child with the arguments of that
    entry, and clears the poll timer; highlight and list stay as they
    were. *)
Theorem launch_button_starts_current_entry disk st gp rest now b r :
  waitingForRelease st = false -> settingsOpen st = false ->
  b = 0%nat \/ b = 9%nat ->
  onlyButton gp b -> sticksIdle gp = true -> prevButtons st b = false ->
  _getSelectedRom st (selected st) = Some r ->
  exists st',
    pollTick disk (Some gp :: rest) now st = Ok tt st' /\
    dispatched st' = dispatched st ++ [Launch r] /\
    prefs st' = addRecentGame (path r) (prefs st) /\
    spawned st' = spawned st ++ [launchArgs (prefs st') r] /\
    polling st' = false /\
    selected st' = selected st /\ sortedRoms st' = sortedRoms st /\
    prevButtons st' b = true.
Proof.
  intros Hw Hs Hb Honly Hidle Hprev Hr.
  apply sticksIdle_inv in Hidle as (H1 & H2 & H3 & H4).
  assert (forall idx, idx <> b -> buttonPressed (buttons gp) idx = false) as Hup
    by (intros idx Hne; rewrite (Honly idx); now apply Nat.eqb_neq).
  assert (buttonPressed (buttons gp) b = true) as Hdown
    by (rewrite (Honly b); apply Nat.eqb_refl).
  assert (pollTick disk (Some gp :: rest) now st =
          _handleGamepadInput disk
            (gp :: flat_map (fun g => match g with Some g => [g] | None => [] end) rest)
            now st) as ->
    by (unfold pollTick, bindM, get; now rewrite Hw).
  unfold _handleGamepadInput. rewrite (bindM_Ok get _ st st st eq_refl), Hs.
  rewrite H1, H2, H3, H4.
  rewrite !(Hup 12%nat), !(Hup 13%nat), !(Hup 14%nat), !(Hup 15%nat),
    !(Hup 4%nat), !(Hup 5%nat) by (destruct Hb; subst b; discriminate).
  change (false || false) with false.
  rewrite !skip_hold.
  destruct Hb; subst b.
  - rewrite (fire_button _ 0%nat) by assumption.
    match goal with
    | |- context [bindM launchSelected ?k ?X] =>
        rewrite (bindM_Ok launchSelected k X tt _ (launchSelected_current r X Hr))
    end.
    rewrite (skip_button _ 2%nat), (skip_button _ 3%nat), (skip_last_button _ 9%nat)
      by (apply Hup; discriminate).
    eexists. split; [reflexivity|]. launched st r.
  - rewrite (skip_button _ 0%nat), (skip_button _ 2%nat) by (apply Hup; discriminate).
    assert (forall (k : unit -> M unit) st0,
               bindM (pressed (buttons gp) 3) (fun b => bindM (when b (log ShowSettings ;; _showSettings)) k) st0
               = k tt (setPrev 3 false st0)) as Hskip3
      by (intros k st0; apply skip_button, Hup; discriminate).
    rewrite Hskip3.
    rewrite (fire_last_button _ 9%nat) by assumption.
    match goal with
    | |- context [launchSelected ?X] => rewrite (launchSelected_current r X Hr)
    end.
    eexists. split; [reflexivity|]. launched st r.
Qed.

Lemma launch_button_starts_current_entry_witness :
  exists st',
    pollTick gamesDisk [Some padA] 1000 browsing = Ok tt st' /\
    dispatched st' = dispatched browsing ++ [Launch game1] /\
    prefs st' = addRecentGame (path game1) (prefs browsing) /\
    spawned st' = spawned browsing ++ [launchArgs (prefs st') game1] /\
    polling st' = false /\
    selected st' = selected browsing /\ sortedRoms st' = sortedRoms browsing /\
    prevButtons st' 0 = true.
Proof.
  apply (launch_button_starts_current_entry gamesDisk browsing padA [] 1000 0 game1);
    try reflexivity.
  - now left.
  - intros [|[|[|[|[|idx]]]]]; reflexivity.
Defined.

(** ** The settings dialog: choices, saving and reopening *)

Lemma indexOfFrom_absent arr x : forall i, ~ In x arr -> indexOfFrom i arr x = (-1)%Z.
Proof.
  induction arr as [|y arr IH]; intros i H; simpl; [reflexivity|].
  destruct (String.eqb_spec y x) as [->|_]; [exfalso; apply H; now left|].
  apply IH. intros Hin. apply H. now right.
Qed.

(** X16: the choices of the dialog go round in a ring. For a value
    of the table, one step right and one step left cancel, in either
    order, and as many steps as the table is long come back to the
    value: 10 for the symbols, 4 for the colours, 6 for the focused
    field. A stored symbols value that is not in the table is replaced
    by the first entry on a step right and by the last but one on a step
    left. *)
Theorem dialog_choices_cycle d :
  In (selectedSymbols d) SYMBOLS -> In (selectedColors d) COLORS ->
  In (focusedField d) FIELDS ->
  (toggleSymbols (toggleSymbols d 1) (-1) = d /\
   toggleSymbols (toggleSymbols d (-1)) 1 = d /\
   times 10 (fun d => toggleSymbols d 1) d = d) /\
  (toggleColors (toggleColors d 1) (-1) = d /\
   toggleColors (toggleColors d (-1)) 1 = d /\
   times 4 (fun d => toggleColors d 1) d = d) /\
  (focusPrevField (focusNextField d) = d /\
   focusNextField (focusPrevField d) = d /\
   times 6 focusNextField d = d) /\
  (forall s, ~ In s SYMBOLS ->
     cycle SYMBOLS s 1 = "block" /\ cycle SYMBOLS s (-1) = "octant").
Proof.
  intros Hs Hc Hf. destruct d as [ri ss sc sf sd sn ff]. simpl in Hs, Hc, Hf.
  split; [|split; [|split]].
  - clear Hc Hf. unfold SYMBOLS in Hs.
    repeat (destruct Hs as [<-|Hs]; [repeat split|]). destruct Hs.
  - clear Hs Hf. unfold COLORS in Hc.
    repeat (destruct Hc as [<-|Hc]; [repeat split|]). destruct Hc.
  - clear Hs Hc. unfold FIELDS in Hf.
    repeat (destruct Hf as [<-|Hf]; [repeat split|]). destruct Hf.
  - intros s Hs'. unfold cycle, indexOf. rewrite (indexOfFrom_absent _ _ 0%Z Hs').
    split; reflexivity.
Qed.

Lemma dialog_choices_cycle_witness :
  toggleSymbols (toggleSymbols sampleDialog 1) (-1) = sampleDialog /\
  times 6 focusNextField sampleDialog = sampleDialog.
Proof.
  destruct (dialog_choices_cycle sampleDialog) as ((H1 & _) & _ & (_ & _ & H2) & _).
  - simpl. tauto.
  - simpl. tauto.
  - simpl. tauto.
  - split; [exact H1 | exact H2].
Defined.

Lemma dialogStep_contrast c d :
  (0 <= selectedContrast d <= 10)%Z -> (0 <= selectedContrast (dialogStep c d) <= 10)%Z.
Proof.
  intros H. destruct c; simpl; try exact H;
    unfold handleLeftRight, handleToggle;
    repeat match goal with
           | |- context [if ?b then _ else _] => destruct b
           end; simpl; try exact H; lia.
Qed.

Lemma dialogStep_romsInput c d : romsInput (dialogStep c d) = romsInput d.
Proof.
  destruct c; simpl; try reflexivity;
    unfold handleLeftRight, handleToggle;
    repeat match goal with
           | |- context [if ?b then _ else _] => destruct b
           end; reflexivity.
Qed.

Lemma edited_keeps cmds : forall d,
  (0 <= selectedContrast d <= 10)%Z ->
  (0 <= selectedContrast (edited cmds d) <= 10)%Z /\
  romsInput (edited cmds d) = romsInput d.
Proof.
  induction cmds as [|c cmds IH]; intros d H; [split; [exact H | reflexivity]|].
  unfold edited in *. simpl.
  destruct (IH (dialogStep c d) (dialogStep_contrast c d H)) as [H1 H2].
  split; [exact H1 | now rewrite H2, dialogStep_romsInput].
Qed.

(** X17: what the dialog saves is what it shows when opened again.
    From a dialog whose slider is within 0..10, any sequence of dialog
    commands leaves the slider within 0..10 and the typed directory
    untouched; saving stores the five choices as they stand, the typed
    directory trimmed, or the old one when nothing but blanks is typed,
    and leaves the recent list, its cap and the saves directory alone;
    and opening the dialog again does not throw and starts from the
    saved values, the directory field focused. *)
Theorem saved_settings_reopen disk st d0 cmds :
  (0 <= selectedContrast d0 <= 10)%Z ->
  let d := edited cmds d0 in
  let st1 := saveAndClose disk d st in
  (0 <= selectedContrast d <= 10)%Z /\ romsInput d = romsInput d0 /\
  prefs st1 =
    mkConfig (if String.eqb (trim (romsInput d)) "" then romsDir (prefs st)
              else trim (romsInput d))
             (savesDir (prefs st)) (recentGames (prefs st)) (maxRecent (prefs st))
             (selectedSymbols d) (selectedColors d) (selectedFgOnly d)
             (selectedDither d) (selectedContrast d) /\
  settingsOpen st1 = false /\ settingsState st1 = None /\
  exists st2,
    _showSettings st1 = Ok tt st2 /\
    settingsOpen st2 = true /\
    settingsState st2 =
      Some (mkDialog (romsDir (prefs st1)) (selectedSymbols d) (selectedColors d)
                     (selectedFgOnly d) (selectedDither d) (selectedContrast d) "roms").
Proof.
  intros H d st1. destruct (edited_keeps cmds d0 H) as [Hc Hr]. fold d in Hc, Hr.
  split; [exact Hc|]. split; [exact Hr|].
  assert (prefs st1 =
    mkConfig (if String.eqb (trim (romsInput d)) "" then romsDir (prefs st)
              else trim (romsInput d))
             (savesDir (prefs st)) (recentGames (prefs st)) (maxRecent (prefs st))
             (selectedSymbols d) (selectedColors d) (selectedFgOnly d)
             (selectedDither d) (selectedContrast d)) as Hp.
  { unfold st1, saveAndClose, _loadRoms. simpl. now destruct (negb _). }
  split; [exact Hp|].
  split; [unfold st1, saveAndClose, _loadRoms; simpl; now destruct (negb _)|].
  split; [unfold st1, saveAndClose, _loadRoms; simpl; now destruct (negb _)|].
  unfold _showSettings, bindM, modify, get. simpl. rewrite Hp. simpl.
  unfold renderSliderThrows.
  destruct (Z.ltb_spec (selectedContrast d) 0) as [Hneg|_]; [lia|].
  destruct (Z.ltb_spec (10 - selectedContrast d) 0) as [Hbig|_]; [lia|].
  simpl. eexists. repeat split.
Qed.

Lemma saved_settings_reopen_witness :
  contrast (prefs (saveAndClose gamesDisk
                     (edited [FocusPrev; LeftRight 1; LeftRight 1] sampleDialog)
                     settingsShown)) = 7%Z /\
  exists st2,
    _showSettings (saveAndClose gamesDisk
                     (edited [FocusPrev; LeftRight 1; LeftRight 1] sampleDialog)
                     settingsShown) = Ok tt st2 /\
    settingsOpen st2 = true.
Proof.
  destruct (saved_settings_reopen gamesDisk settingsShown sampleDialog
              [FocusPrev; LeftRight 1; LeftRight 1]) as (_ & _ & Hp & _ & _ & st2 & H1 & H2 & _).
  - simpl. lia.
  - split; [rewrite Hp; reflexivity|]. exists st2. split; [exact H1 | exact H2].
Defined.

(** ** From a launch to the recent view *)

Lemma resolveRecent_paths catalog paths :
  map path (resolveRecent catalog paths) =
  filter (fun p => existsb (fun x => String.eqb (path x) p) catalog) paths.
Proof.
  unfold resolveRecent. induction paths as [|p paths IH]; simpl; [reflexivity|].
  rewrite map_app, IH.
  destruct (find (fun x => String.eqb (path x) p) catalog) as [x|] eqn:E.
  - pose proof (find_some _ _ E) as [Hin Hp].
    assert (existsb (fun x => String.eqb (path x) p) catalog = true) as ->
      by (apply existsb_exists; now exists x).
    simpl. f_equal. now apply String.eqb_eq.
  - assert (existsb (fun x => String.eqb (path x) p) catalog = false) as ->.
    { apply not_true_is_false. intros H. apply existsb_exists in H as (x & Hin & Hp).
      now rewrite (find_none _ _ E x Hin) in Hp. }
    reflexivity.
Qed.

(** X18: after a game of the catalog was launched, the recent view
    opens on it. With a cap of at least 1 and a recent list without
    repetition, the view shown after [_launchGame r] has as its first,
    highlighted row the first catalog entry with the path of [r], which
    is [r] itself when no other entry shares its path; so the launch
    handlers pick a game with the path just played. No path is shown on
    two rows, and there are no more rows than the cap. *)
Theorem recent_view_after_launch r st :
  In r (roms st) -> (1 <= maxRecent (prefs st))%Z -> NoDup (recentGames (prefs st)) ->
  let st' := _showRecentRoms (_launchGame r st) in
  exists r0 rows,
    sortedRoms st' = Some (r0 :: rows) /\
    find (fun x => String.eqb (path x) (path r)) (roms st) = Some r0 /\
    path r0 = path r /\
    ((forall x, In x (roms st) -> path x = path r -> x = r) -> r0 = r) /\
    currentView st' = RecentView /\
    _getSelectedRom st' (selected st') = Some r0 /\
    NoDup (map path (r0 :: rows)) /\
    (List.length (r0 :: rows) <= Z.to_nat (maxRecent (prefs st)))%nat.
Proof.
  intros Hin Hcap Hnd st'.
  destruct (find (fun x => String.eqb (path x) (path r)) (roms st)) as [r0|] eqn:Hfind.
  2: { pose proof (find_none _ _ Hfind r Hin) as E. simpl in E.
       rewrite String.eqb_refl in E. discriminate. }
  pose proof (find_some _ _ Hfind) as [Hin0 Hp0]. apply String.eqb_eq in Hp0.
  set (old := firstn (Z.to_nat (maxRecent (prefs st)) - 1)
                (filter (isNot (path r)) (recentGames (prefs st)))).
  assert (recentGames (prefs (_launchGame r st)) = path r :: old) as Hrecent
    by (unfold _launchGame; simpl prefs; now apply addRecentGame_recent).
  assert (sortedRoms st' = Some (r0 :: resolveRecent (roms st) old)) as Hrows.
  { unfold st'. rewrite showRecentRoms_rows, Hrecent.
    change (roms (_launchGame r st)) with (roms st).
    unfold resolveRecent at 1. simpl flat_map. now rewrite Hfind. }
  exists r0, (resolveRecent (roms st) old).
  split; [exact Hrows|]. split; [reflexivity|]. split; [exact Hp0|].
  split; [intros Huniq; now apply Huniq|]. split; [reflexivity|].
  split.
  { unfold _getSelectedRom. rewrite Hrows.
    replace (selected st') with 0%Z; [reflexivity|].
    symmetry. unfold st', _showRecentRoms. cbv zeta. apply showRows_selected. }
  assert (NoDup (path r :: old)) as Hnd'.
  { constructor.
    - intros Hold. unfold old in Hold.
      assert (In (path r) (filter (isNot (path r)) (recentGames (prefs st)))) as Hf
        by (rewrite <- (firstn_skipn (Z.to_nat (maxRecent (prefs st)) - 1));
            apply in_or_app; now left).
      apply filter_In in Hf as [_ Hf]. unfold isNot in Hf.
      now rewrite String.eqb_refl in Hf.
    - apply firstn_NoDup. now apply filter_NoDup. }
  split.
  - change (map path (r0 :: resolveRecent (roms st) old))
      with (path r0 :: map path (resolveRecent (roms st) old)).
    rewrite Hp0, resolveRecent_paths. inversion Hnd' as [|? ? Hnot Hold]. subst.
    constructor; [|now apply filter_NoDup].
    intros Hf. apply filter_In in Hf as [Hf _]. contradiction.
  - simpl List.length.
    assert (List.length (resolveRecent (roms st) old) <= List.length old)%nat as Hlen.
    { rewrite <- (length_map path), resolveRecent_paths. apply filter_length_le. }
    assert (List.length old <= Z.to_nat (maxRecent (prefs st)) - 1)%nat
      by apply firstn_le_length.
    lia.
Qed.

Lemma recent_view_after_launch_witness :
  exists r0 rows,
    sortedRoms (_showRecentRoms (_launchGame game2 (setPrefs recentState threeRecent)))
      = Some (r0 :: rows) /\
    find (fun x => String.eqb (path x) (path game2)) [game1; game2; zelda] = Some r0 /\
    path r0 = path game2.
Proof.
  destruct (recent_view_after_launch game2 (setPrefs recentState threeRecent))
    as (r0 & rows & H1 & H2 & H3 & _).
  - simpl. tauto.
  - simpl. lia.
  - simpl. repeat constructor; simpl; intuition discriminate.
  - exists r0, rows. split; [exact H1|]. split; [exact H2 | exact H3].
Defined.
